(** * Passkey ceremonies of Hackers' Pub (models/passkey.ts)

    A shallow embedding of the four exported functions of the passkey module
    ([getRegistrationOptions], [verifyRegistration], [getAuthenticationOptions],
    [verifyAuthentication]) together with the stores they act on: the Keyv
    challenge store, the passkey table and the credential verifier of
    @simplewebauthn/server, which the module consumes as a black box. *)

From Stdlib Require Import ZArith String Ascii.
From stdpp Require Import gmap strings list.

Local Open Scope string_scope.
Local Open Scope Z_scope.

(** ** Data model *)

Definition Uuid := string.
Definition Bytes := list Byte.byte.

(** Transport hints an authenticator may advertise. *)
Inductive AuthenticatorTransportFuture :=
  | ble | cable | hybrid | internal | nfc | smart_card | usb.

Inductive CredentialDeviceType := singleDevice | multiDevice.

(** The columns of [Account] that this module reads. *)
Module Account.
Record t := mk { id : Uuid; username : string }.
End Account.

(** Modelled from the spec: the row type of [passkeyTable] (schema.ts is not
    part of the sources at hand); the columns are those written by
    [verifyRegistration] and [verifyAuthentication] plus [created]. A null
    column is [None]. The counter is a bigint column holding the 32-bit
    signature counter of an authenticator, so [Number(passkey.counter)] and
    [BigInt(newCounter)] lose nothing and both sides are plain integers. *)
Module Passkey.
Record t := mk {
  id : string;
  accountId : Uuid;
  name : string;
  publicKey : Bytes;
  webauthnUserId : string;
  counter : Z;
  deviceType : CredentialDeviceType;
  backedUp : bool;
  transports : option (list AuthenticatorTransportFuture);
  lastUsed : option Z;
  created : Z
}.

(** The two columns assigned by the UPDATE of [verifyAuthentication]. *)
Definition set_counter_lastUsed (c : Z) (used : option Z) (p : t) : t :=
  mk (id p) (accountId p) (name p) (publicKey p) (webauthnUserId p) c
     (deviceType p) (backedUp p) (transports p) used (created p).
End Passkey.

(** [Account & { passkeys: Passkey[] }] *)
Module AccountWithPasskeys.
Record t := mk { account : Account.t; passkeys : list Passkey.t }.
End AccountWithPasskeys.

(** [Passkey & { account: Account }], the result of the relational query. The
    joined account is [None] when no account row matches. *)
Module PasskeyWithAccount.
Record t := mk { passkey : Passkey.t; account : option Account.t }.
End PasskeyWithAccount.

(** One entry of [excludeCredentials]. *)
Module Descriptor.
Record t := mk {
  id : string;
  transports : option (list AuthenticatorTransportFuture)
}.
End Descriptor.

Module UserEntity.
Record t := mk { id : string; name : string; displayName : string }.
End UserEntity.

Module RpEntity.
Record t := mk { name : string; id : string }.
End RpEntity.

(** [PublicKeyCredentialCreationOptionsJSON] *)
Module CreationOptions.
Record t := mk {
  challenge : string;
  rp : RpEntity.t;
  user : UserEntity.t;
  attestation : string;
  excludeCredentials : list Descriptor.t
}.
End CreationOptions.

(** [PublicKeyCredentialRequestOptionsJSON]; no allow-list is requested. *)
Module RequestOptions.
Record t := mk {
  challenge : string;
  rpId : string;
  allowCredentials : list Descriptor.t
}.
End RequestOptions.

(** The argument object of [generateRegistrationOptions]. *)
Module GenerateRegistrationArgs.
Record t := mk {
  rpName : string;
  rpID : string;
  userName : string;
  attestationType : string;
  excludeCredentials : list Descriptor.t
}.
End GenerateRegistrationArgs.

(** The credential as the verifier sees and reports it. *)
Module WebAuthnCredential.
Record t := mk {
  id : string;
  publicKey : Bytes;
  counter : Z;
  transports : option (list AuthenticatorTransportFuture)
}.
End WebAuthnCredential.

(** The client's registration response. The fields after [id] stand for the
    decoded contents of clientDataJSON and of the attestation object; only the
    verifier looks into them. *)
Module RegistrationResponse.
Record t := mk {
  id : string;
  clientChallenge : string;
  clientOrigin : string;
  rpId : string;
  publicKey : Bytes;
  counter : Z;
  deviceType : CredentialDeviceType;
  backedUp : bool;
  transports : option (list AuthenticatorTransportFuture);
  attestationValid : bool
}.
End RegistrationResponse.

(** The client's authentication response. [counter] is the signature counter
    embedded in the authenticator data; [signedBy] is the public key under
    which the assertion signature verifies. *)
Module AuthenticationResponse.
Record t := mk {
  id : string;
  clientChallenge : string;
  clientOrigin : string;
  rpId : string;
  counter : Z;
  signedBy : Bytes
}.
End AuthenticationResponse.

Module RegistrationInfo.
Record t := mk {
  credential : WebAuthnCredential.t;
  credentialDeviceType : CredentialDeviceType;
  credentialBackedUp : bool
}.
End RegistrationInfo.

(** [VerifiedRegistrationResponse] *)
Module VerifiedRegistration.
Record t := mk { verified : bool; registrationInfo : option RegistrationInfo.t }.
End VerifiedRegistration.

Module AuthenticationInfo.
Record t := mk { newCounter : Z; credentialID : string }.
End AuthenticationInfo.

(** [VerifiedAuthenticationResponse] *)
Module VerifiedAuthentication.
Record t := mk { verified : bool; authenticationInfo : AuthenticationInfo.t }.
End VerifiedAuthentication.

(** The object returned by [verifyAuthentication]. *)
Module AuthenticationResult.
Record t := mk {
  response : VerifiedAuthentication.t;
  account : option Account.t;
  passkey : PasskeyWithAccount.t
}.
End AuthenticationResult.

(** ** Errors *)

(** The two ways in which the verifier refuses a response by throwing. *)
Inductive VerifierErrorKind := VerificationFailed | PossibleCloneDetected.

Inductive Exception :=
  | Error_MissingRegistrationOptions (accountId : Uuid)
  | TypeError_InvalidURL (input : string)
  | TypeError_UndefinedProperty (property : string)
  | VerifierError (kind : VerifierErrorKind) (message : string)
  | DbError_UniqueViolation (key : string).

(** How a call ends: it returns a value or throws. *)
Inductive Completion (A : Type) :=
  | Returned (a : A)
  | Threw (e : Exception).
Arguments Returned {A} a.
Arguments Threw {A} e.

(** ** The challenge store (Keyv) *)

(** What the module keeps in the store: the options of an open ceremony. *)
Inductive KvValue :=
  | StoredCreation (o : CreationOptions.t)
  | StoredRequest (o : RequestOptions.t).

Definition stored_challenge (v : KvValue) : string :=
  match v with
  | StoredCreation o => CreationOptions.challenge o
  | StoredRequest o => RequestOptions.challenge o
  end.

(** [options.user], undefined on request options. *)
Definition stored_user (v : KvValue) : option UserEntity.t :=
  match v with
  | StoredCreation o => Some (CreationOptions.user o)
  | StoredRequest _ => None
  end.

Module KvEntry.
Record t := mk { value : KvValue; expires : option Z }.
End KvEntry.

(** Modelled from the spec: the Challenge Store of section 4.1, which the code
    reaches through the Keyv interface ([kv.set(key, value, ttl?)] and
    [kv.get(key)]). Times are milliseconds. [ttl] is the time-to-live the
    store applies when [set] is called without one. *)
Module Keyv.
Record t := mk { store : gmap string KvEntry.t; ttl : option Z }.

(** The time-to-live in force for one [set]: the explicit one, else the
    store's; zero stands for none. *)
Definition effective_ttl (explicit : option Z) (kv : t) : option Z :=
  match (match explicit with Some x => Some x | None => ttl kv end) with
  | Some 0 => None
  | other => other
  end.

Definition set (key : string) (v : KvValue) (explicit : option Z) (now : Z)
    (kv : t) : t :=
  mk (<[key := KvEntry.mk v ((λ d, now + d) <$> effective_ttl explicit kv)]>
        (store kv))
     (ttl kv).

(** An entry is good up to and including its expiry time, and gone after. *)
Definition live (now : Z) (e : KvEntry.t) : bool :=
  match KvEntry.expires e with
  | Some t => negb (t <? now)
  | None => true
  end.

Definition get (key : string) (now : Z) (kv : t) : option KvValue :=
  match store kv !! key with
  | Some e => if live now e then Some (KvEntry.value e) else None
  | None => None
  end.
End Keyv.

(** ** The database *)

Module Database.
Record t := mk { passkeyTable : list Passkey.t; accountTable : list Account.t }.
End Database.

(** The first row of the table carrying the given credential id. *)
Fixpoint passkey_findFirst (cid : string) (rows : list Passkey.t)
    : option Passkey.t :=
  match rows with
  | [] => None
  | p :: rest =>
      if String.eqb (Passkey.id p) cid then Some p
      else passkey_findFirst cid rest
  end.

Fixpoint account_findFirst (aid : Uuid) (rows : list Account.t)
    : option Account.t :=
  match rows with
  | [] => None
  | a :: rest =>
      if String.eqb (Account.id a) aid then Some a
      else account_findFirst aid rest
  end.

(** [db.query.passkeyTable.findFirst({ where: { id }, with: { account: true } })] *)
Definition db_findPasskey (cid : string) (db : Database.t)
    : option PasskeyWithAccount.t :=
  match passkey_findFirst cid (Database.passkeyTable db) with
  | Some p =>
      Some (PasskeyWithAccount.mk p
              (account_findFirst (Passkey.accountId p) (Database.accountTable db)))
  | None => None
  end.

(** Modelled from the spec: [insert] of section 4.2; the credential id is the
    primary key of the table, so a second row with a stored id is refused.
    The table itself is declared in schema.ts, outside the sources at hand. *)
Definition db_insertPasskey (row : Passkey.t) (db : Database.t)
    : Completion Database.t :=
  match passkey_findFirst (Passkey.id row) (Database.passkeyTable db) with
  | Some _ => Threw (DbError_UniqueViolation (Passkey.id row))
  | None =>
      Returned (Database.mk (Database.passkeyTable db ++ [row])
                            (Database.accountTable db))
  end.

(** [db.update(passkeyTable).set({ counter, lastUsed }).where(eq(passkeyTable.id, cid))] *)
Definition db_updateCounter (cid : string) (c : Z) (now : Z) (db : Database.t)
    : Database.t :=
  Database.mk
    (map (λ p, if String.eqb (Passkey.id p) cid
               then Passkey.set_counter_lastUsed c (Some now) p
               else p)
         (Database.passkeyTable db))
    (Database.accountTable db).

(** ** The platform and the WebAuthn library *)

(** The two getters of a parsed [URL] that the module reads. *)
Module URL.
Record t := mk { origin : string; hostname : string }.
End URL.

(** What the module takes from its runtime: [new URL(input)], which fails on
    an input that is not a URL, and the random source behind freshly
    generated challenges and user handles. *)
Class Platform := {
  URL_parse : string → option URL.t;
  randomChallenge : nat → string;
  randomUserId : nat → string
}.

Module VerifyRegistrationArgs.
Record t := mk {
  response : RegistrationResponse.t;
  expectedChallenge : string;
  expectedOrigin : string;
  expectedRPID : string
}.
End VerifyRegistrationArgs.

Module VerifyAuthenticationArgs.
Record t := mk {
  response : AuthenticationResponse.t;
  expectedChallenge : string;
  expectedOrigin : string;
  expectedRPID : string;
  credential : WebAuthnCredential.t
}.

Definition with_counter (c : Z) (a : t) : t :=
  mk (response a) (expectedChallenge a) (expectedOrigin a) (expectedRPID a)
     (WebAuthnCredential.mk
        (WebAuthnCredential.id (credential a))
        (WebAuthnCredential.publicKey (credential a))
        c
        (WebAuthnCredential.transports (credential a))).
End VerifyAuthenticationArgs.

(** The Credential Verifier boundary: one entry point per ceremony kind.
    Each either returns its verdict or throws. *)
Class CredentialVerifier := {
  verifyRegistrationResponse :
    VerifyRegistrationArgs.t → Completion VerifiedRegistration.t;
  verifyAuthenticationResponse :
    VerifyAuthenticationArgs.t → Completion VerifiedAuthentication.t
}.

(** ** The world the ceremonies run in *)

(** A consultation of the verifier, recorded in the order it happens. *)
Inductive Event :=
  | ConsultedRegistrationVerifier (a : VerifyRegistrationArgs.t)
  | ConsultedAuthenticationVerifier (a : VerifyAuthenticationArgs.t).

Module World.
Record t := mk {
  kv : Keyv.t;
  db : Database.t;
  now : Z;
  rng : nat;
  log : list Event
}.

Definition with_kv (k : Keyv.t) (w : t) : t := mk k (db w) (now w) (rng w) (log w).
Definition with_db (d : Database.t) (w : t) : t := mk (kv w) d (now w) (rng w) (log w).
Definition with_rng (n : nat) (w : t) : t := mk (kv w) (db w) (now w) n (log w).
Definition with_log (l : list Event) (w : t) : t := mk (kv w) (db w) (now w) (rng w) l.
(** The same stores looked at when the clock shows [time]. *)
Definition at_time (time : Z) (w : t) : t := mk (kv w) (db w) time (rng w) (log w).
End World.

(** A call takes the world as it finds it and leaves the world as changed so
    far, whether it returns or throws: nothing is rolled back. *)
Definition M (A : Type) : Type := World.t → Completion A * World.t.

Definition ret {A} (a : A) : M A := λ w, (Returned a, w).

Definition throw {A} (e : Exception) : M A := λ w, (Threw e, w).

Definition bind {A B} (m : M A) (k : A → M B) : M B :=
  λ w, match m w with
       | (Returned a, w') => k a w'
       | (Threw e, w') => (Threw e, w')
       end.

Notation "'let*' x ':=' m 'in' k" := (bind m (λ x, k))
  (at level 10, x name, m at level 100, k at level 200, only parsing).

Definition new_URL `{Platform} (input : string) : M URL.t :=
  match URL_parse input with
  | Some u => ret u
  | None => throw (TypeError_InvalidURL input)
  end.

Definition kv_set (key : string) (v : KvValue) (ttl : option Z) : M unit :=
  λ w, (Returned tt,
        World.with_kv (Keyv.set key v ttl (World.now w) (World.kv w)) w).

Definition kv_get (key : string) : M (option KvValue) :=
  λ w, (Returned (Keyv.get key (World.now w) (World.kv w)), w).

Definition awaitVerifyRegistrationResponse `{CredentialVerifier}
    (a : VerifyRegistrationArgs.t) : M VerifiedRegistration.t :=
  λ w, (verifyRegistrationResponse a,
        World.with_log (World.log w ++ [ConsultedRegistrationVerifier a]) w).

Definition awaitVerifyAuthenticationResponse `{CredentialVerifier}
    (a : VerifyAuthenticationArgs.t) : M VerifiedAuthentication.t :=
  λ w, (verifyAuthenticationResponse a,
        World.with_log (World.log w ++ [ConsultedAuthenticationVerifier a]) w).

Definition insertPasskey (row : Z → Passkey.t) : M unit :=
  λ w, match db_insertPasskey (row (World.now w)) (World.db w) with
       | Returned d => (Returned tt, World.with_db d w)
       | Threw e => (Threw e, w)
       end.

Definition updateCounter (cid : string) (c : Z) : M unit :=
  λ w, (Returned tt,
        World.with_db (db_updateCounter cid c (World.now w) (World.db w)) w).

Definition findPasskey (cid : string) : M (option PasskeyWithAccount.t) :=
  λ w, (Returned (db_findPasskey cid (World.db w)), w).

(** Modelled from the spec: [generateRegistrationOptions] of the WebAuthn
    library, by the output listed in section 4.3: a fresh challenge, the
    relying party's name and identifier, the user name, a fresh user handle
    and the exclusion list as given. *)
Definition generateRegistrationOptions `{Platform}
    (a : GenerateRegistrationArgs.t) : M CreationOptions.t :=
  λ w, let n := World.rng w in
       (Returned
          (CreationOptions.mk
             (randomChallenge n)
             (RpEntity.mk (GenerateRegistrationArgs.rpName a)
                          (GenerateRegistrationArgs.rpID a))
             (UserEntity.mk (randomUserId (S n))
                            (GenerateRegistrationArgs.userName a) "")
             (GenerateRegistrationArgs.attestationType a)
             (GenerateRegistrationArgs.excludeCredentials a)),
        World.with_rng (S (S n)) w).

(** Modelled from the spec: [generateAuthenticationOptions] of the WebAuthn
    library, by the output listed in section 4.4: a fresh challenge and the
    relying-party identifier, without an allow-list. *)
Definition generateAuthenticationOptions `{Platform} (rpID : string)
    : M RequestOptions.t :=
  λ w, let n := World.rng w in
       (Returned (RequestOptions.mk (randomChallenge n) rpID []),
        World.with_rng (S n) w).

(** ** [String.prototype.trim], on the ASCII white space *)

Definition is_white_space (c : ascii) : bool :=
  let n := nat_of_ascii c in
  (Nat.eqb n 32 || (Nat.leb 9 n && Nat.leb n 13))%bool.

Fixpoint trimStart (s : string) : string :=
  match s with
  | String c rest => if is_white_space c then trimStart rest else s
  | EmptyString => EmptyString
  end.

Fixpoint trimEnd (s : string) : string :=
  match s with
  | String c rest =>
      match trimEnd rest with
      | EmptyString => if is_white_space c then EmptyString else String c EmptyString
      | kept => String c kept
      end
  | EmptyString => EmptyString
  end.

Definition trim (s : string) : string := trimEnd (trimStart s).

(** ** models/passkey.ts *)

Definition RP_NAME : string := "Hackers' Pub".
Definition KV_NAMESPACE : string := "passkey".

Definition registration_key (accountId : Uuid) : string :=
  KV_NAMESPACE +:+ "/registration/" +:+ accountId.

Definition authentication_key (sessionId : Uuid) : string :=
  KV_NAMESPACE +:+ "/authentication/" +:+ sessionId.

Definition getRegistrationOptions `{Platform}
    (origin : string) (account : AccountWithPasskeys.t) : M CreationOptions.t :=
  let* url := new_URL origin in
  let* options :=
    generateRegistrationOptions
      (GenerateRegistrationArgs.mk
         RP_NAME
         (URL.hostname url)
         (Account.username (AccountWithPasskeys.account account))
         "none"
         (map (λ passkey,
                 Descriptor.mk (Passkey.id passkey) (Passkey.transports passkey))
              (AccountWithPasskeys.passkeys account))) in
  let* _ :=
    kv_set (registration_key (Account.id (AccountWithPasskeys.account account)))
           (StoredCreation options) None in
  ret options.

Definition verifyRegistration `{Platform} `{CredentialVerifier}
    (origin : string) (account : Account.t) (name : string)
    (response : RegistrationResponse.t) : M VerifiedRegistration.t :=
  let* options := kv_get (registration_key (Account.id account)) in
  match options with
  | None => throw (Error_MissingRegistrationOptions (Account.id account))
  | Some options =>
      let* url := new_URL origin in
      let* result :=
        awaitVerifyRegistrationResponse
          (VerifyRegistrationArgs.mk response (stored_challenge options)
             (URL.origin url) (URL.hostname url)) in
      match VerifiedRegistration.verified result,
            VerifiedRegistration.registrationInfo result with
      | true, Some info =>
          let credential := RegistrationInfo.credential info in
          match stored_user options with
          | None => throw (TypeError_UndefinedProperty "id")
          | Some user =>
              let* _ :=
                insertPasskey (λ created,
                  Passkey.mk
                    (WebAuthnCredential.id credential)
                    (Account.id account)
                    (trim name)
                    (WebAuthnCredential.publicKey credential)
                    (UserEntity.id user)
                    (WebAuthnCredential.counter credential)
                    (RegistrationInfo.credentialDeviceType info)
                    (RegistrationInfo.credentialBackedUp info)
                    (WebAuthnCredential.transports credential)
                    None
                    created) in
              ret result
          end
      | _, _ => ret result
      end
  end.

(** The time-to-live of an authentication challenge, in milliseconds. *)
Definition AUTHENTICATION_TTL : Z := 5 * 60 * 1000.

Definition getAuthenticationOptions `{Platform}
    (origin : string) (sessionId : Uuid) : M RequestOptions.t :=
  let* url := new_URL origin in
  let* options := generateAuthenticationOptions (URL.hostname url) in
  let* _ :=
    kv_set (authentication_key sessionId) (StoredRequest options)
           (Some AUTHENTICATION_TTL) in
  ret options.

Definition verifyAuthentication `{Platform} `{CredentialVerifier}
    (origin : string) (sessionId : Uuid) (response : AuthenticationResponse.t)
    : M (option AuthenticationResult.t) :=
  let* options := kv_get (authentication_key sessionId) in
  match options with
  | None => ret None
  | Some options =>
      let* passkey := findPasskey (AuthenticationResponse.id response) in
      match passkey with
      | None => ret None
      | Some passkey =>
          let row := PasskeyWithAccount.passkey passkey in
          let* url := new_URL origin in
          let* result :=
            awaitVerifyAuthenticationResponse
              (VerifyAuthenticationArgs.mk response (stored_challenge options)
                 (URL.origin url) (URL.hostname url)
                 (WebAuthnCredential.mk
                    (AuthenticationResponse.id response)
                    (Passkey.publicKey row)
                    (Passkey.counter row)
                    (Passkey.transports row))) in
          let* _ :=
            if VerifiedAuthentication.verified result
            then updateCounter (AuthenticationResponse.id response)
                   (AuthenticationInfo.newCounter
                      (VerifiedAuthentication.authenticationInfo result))
            else ret tt in
          ret (Some (AuthenticationResult.mk result
                       (PasskeyWithAccount.account passkey) passkey))
      end
  end.

(** ** A reference platform and a reference verifier *)

Fixpoint bytes_eqb (a b : Bytes) : bool :=
  match a, b with
  | [], [] => true
  | x :: a', y :: b' => (Byte.eqb x y && bytes_eqb a' b')%bool
  | _, _ => false
  end.

(** The part of [s] after [prefix], if [s] starts with it. *)
Fixpoint strip_prefix (prefix s : string) : option string :=
  match prefix, s with
  | EmptyString, _ => Some s
  | String p prefix', String c s' =>
      if Ascii.eqb p c then strip_prefix prefix' s' else None
  | String _ _, EmptyString => None
  end.

(** The part of [s] before the first character satisfying [stop]. *)
Fixpoint take_until (stop : ascii → bool) (s : string) : string :=
  match s with
  | String c s' => if stop c then EmptyString else String c (take_until stop s')
  | EmptyString => EmptyString
  end.

(** A URL reader for the inputs [scheme://host[:port][/...]] with scheme
    http or https, enough to run the ceremonies on concrete origins. *)
Definition reference_URL_parse (input : string) : option URL.t :=
  let with_scheme (scheme : string) :=
    match strip_prefix scheme input with
    | Some rest =>
        let authority := take_until (Ascii.eqb "/") rest in
        if String.eqb authority "" then None
        else Some (URL.mk (scheme +:+ authority)
                          (take_until (Ascii.eqb ":") authority))
    | None => None
    end in
  match with_scheme "https://" with
  | Some u => Some u
  | None => with_scheme "http://"
  end.

Fixpoint digits (fuel : nat) (n : nat) (acc : string) : string :=
  match fuel with
  | O => acc
  | S fuel' =>
      let acc' := String (ascii_of_nat (48 + Nat.modulo n 10)) acc in
      match Nat.div n 10 with
      | O => acc'
      | q => digits fuel' q acc'
      end
  end.

#[local] Instance reference_platform : Platform := {
  URL_parse := reference_URL_parse;
  randomChallenge n := "challenge-" +:+ digits (S n) n "";
  randomUserId n := "user-" +:+ digits (S n) n ""
}.

(** Modelled from the spec: the anti-cloning rule of section 4.4. The reported
    counter must exceed the stored one, unless both are zero. *)
Definition counter_rule (stored reported : Z) : bool :=
  ((stored <? reported) || ((stored =? 0) && (reported =? 0)))%bool.

(** Modelled from the spec: a Credential Verifier as section 4.3 and 4.4
    describe it. It checks the challenge, the origin and the relying-party
    identifier, then the counter rule, and reports the outcome of the
    signature check in [verified]. *)
Definition reference_verifyRegistrationResponse (a : VerifyRegistrationArgs.t)
    : Completion VerifiedRegistration.t :=
  let r := VerifyRegistrationArgs.response a in
  if negb (String.eqb (RegistrationResponse.clientChallenge r)
                      (VerifyRegistrationArgs.expectedChallenge a))
  then Threw (VerifierError VerificationFailed "Unexpected registration response challenge")
  else if negb (String.eqb (RegistrationResponse.clientOrigin r)
                           (VerifyRegistrationArgs.expectedOrigin a))
  then Threw (VerifierError VerificationFailed "Unexpected registration response origin")
  else if negb (String.eqb (RegistrationResponse.rpId r)
                           (VerifyRegistrationArgs.expectedRPID a))
  then Threw (VerifierError VerificationFailed "Unexpected RP ID hash")
  else if RegistrationResponse.attestationValid r
  then Returned (VerifiedRegistration.mk true
         (Some (RegistrationInfo.mk
                  (WebAuthnCredential.mk
                     (RegistrationResponse.id r)
                     (RegistrationResponse.publicKey r)
                     (RegistrationResponse.counter r)
                     (RegistrationResponse.transports r))
                  (RegistrationResponse.deviceType r)
                  (RegistrationResponse.backedUp r))))
  else Returned (VerifiedRegistration.mk false None).

Definition reference_verifyAuthenticationResponse (a : VerifyAuthenticationArgs.t)
    : Completion VerifiedAuthentication.t :=
  let r := VerifyAuthenticationArgs.response a in
  let credential := VerifyAuthenticationArgs.credential a in
  if negb (String.eqb (AuthenticationResponse.clientChallenge r)
                      (VerifyAuthenticationArgs.expectedChallenge a))
  then Threw (VerifierError VerificationFailed "Unexpected authentication response challenge")
  else if negb (String.eqb (AuthenticationResponse.clientOrigin r)
                           (VerifyAuthenticationArgs.expectedOrigin a))
  then Threw (VerifierError VerificationFailed "Unexpected authentication response origin")
  else if negb (String.eqb (AuthenticationResponse.rpId r)
                           (VerifyAuthenticationArgs.expectedRPID a))
  then Threw (VerifierError VerificationFailed "Unexpected RP ID hash")
  else if negb (counter_rule (WebAuthnCredential.counter credential)
                             (AuthenticationResponse.counter r))
  then Threw (VerifierError PossibleCloneDetected "Response counter value was lower than expected")
  else Returned (VerifiedAuthentication.mk
         (bytes_eqb (AuthenticationResponse.signedBy r)
                    (WebAuthnCredential.publicKey credential))
         (AuthenticationInfo.mk (AuthenticationResponse.counter r)
                                (WebAuthnCredential.id credential))).

#[local] Instance reference_verifier : CredentialVerifier := {
  verifyRegistrationResponse := reference_verifyRegistrationResponse;
  verifyAuthenticationResponse := reference_verifyAuthenticationResponse
}.

(** ** A concrete scenario: alice, one authenticator, one session *)

Definition hackers_pub : string := "https://hackers.pub".

Definition alice : Account.t := Account.mk "alice-uuid" "alice".

Definition key_1 : Bytes := [Byte.x01; Byte.x02; Byte.x03].

Definition empty_world (ttl : option Z) (now : Z) : World.t :=
  World.mk (Keyv.mk ∅ ttl) (Database.mk [] [alice]) now 0 [].

(** A registration response answering [challenge]. *)
Definition registration_of (challenge : string) (counter : Z)
    : RegistrationResponse.t :=
  RegistrationResponse.mk "cred-1" challenge hackers_pub "hackers.pub" key_1
    counter multiDevice true (Some [internal; hybrid]) true.

(** An authentication response answering [challenge] with [counter]. *)
Definition authentication_of (challenge : string) (counter : Z) (signer : Bytes)
    : AuthenticationResponse.t :=
  AuthenticationResponse.mk "cred-1" challenge hackers_pub "hackers.pub"
    counter signer.

(** The world at time 1000 after registration options were issued to
    [alice], who has no authenticator yet. *)
Definition pending_world (ttl : option Z) : World.t :=
  (getRegistrationOptions hackers_pub (AccountWithPasskeys.mk alice [])
     (empty_world ttl 1000)).2.

(** The world after [alice] has then registered [cred-1] with the given
    initial counter. *)
Definition registered_world (counter : Z) : World.t :=
  (verifyRegistration hackers_pub alice " laptop "
     (registration_of "challenge-0" counter) (pending_world None)).2.

(** The same, after authentication options were issued to [sess-1]. *)
Definition challenged_world (counter : Z) : World.t :=
  (getAuthenticationOptions hackers_pub "sess-1" (registered_world counter)).2.

(** ** Auxiliary definitions used in the statements *)

(** The arguments [verifyAuthentication] hands to the verifier. *)
Definition authentication_args (response : AuthenticationResponse.t)
    (options : KvValue) (url : URL.t) (row : Passkey.t)
    : VerifyAuthenticationArgs.t :=
  VerifyAuthenticationArgs.mk response (stored_challenge options)
    (URL.origin url) (URL.hostname url)
    (WebAuthnCredential.mk (AuthenticationResponse.id response)
       (Passkey.publicKey row) (Passkey.counter row) (Passkey.transports row)).

(** The arguments [verifyRegistration] hands to the verifier. *)
Definition registration_args (response : RegistrationResponse.t)
    (options : KvValue) (url : URL.t) : VerifyRegistrationArgs.t :=
  VerifyRegistrationArgs.mk response (stored_challenge options)
    (URL.origin url) (URL.hostname url).

(** The row [verifyRegistration] inserts. *)
Definition new_passkey (account : Account.t) (name : string)
    (info : RegistrationInfo.t) (user : UserEntity.t) (created : Z) : Passkey.t :=
  let credential := RegistrationInfo.credential info in
  Passkey.mk (WebAuthnCredential.id credential) (Account.id account) (trim name)
    (WebAuthnCredential.publicKey credential) (UserEntity.id user)
    (WebAuthnCredential.counter credential)
    (RegistrationInfo.credentialDeviceType info)
    (RegistrationInfo.credentialBackedUp info)
    (WebAuthnCredential.transports credential) None created.

(** The entry under [key] is absent, or present and past its expiry time. *)
Definition absent_or_expired (key : string) (now : Z) (kv : Keyv.t) : Prop :=
  Keyv.store kv !! key = None ∨
  ∃ e t, Keyv.store kv !! key = Some e ∧ KvEntry.expires e = Some t ∧ t < now.


(** An authentication response naming a credential nobody registered. *)
Definition stranger_response (challenge : string) : AuthenticationResponse.t :=
  AuthenticationResponse.mk "cred-9" challenge hackers_pub "hackers.pub" 1 key_1.

(** The verifier's verdict is a failure: it threw, or returned unverified. *)
Definition reports_failure {A} (verified : A → bool) (c : Completion A) : Prop :=
  match c with
  | Returned r => verified r = false
  | Threw _ => True
  end.

(** The verifier finds nothing wrong with the response apart, possibly, from
    its counter: against any stored counter that the counter rule lets pass,
    it returns a verified verdict. *)
Definition otherwise_valid (V : CredentialVerifier)
    (a : VerifyAuthenticationArgs.t) : Prop :=
  ∀ c,
    counter_rule c
      (AuthenticationResponse.counter (VerifyAuthenticationArgs.response a))
      = true →
    ∃ r, verifyAuthenticationResponse (VerifyAuthenticationArgs.with_counter c a)
           = Returned r ∧
         VerifiedAuthentication.verified r = true.

(** Modelled from the spec: the counter contract of the Credential Verifier
    (section 4.4). An otherwise valid response whose counter breaks
    [counter_rule] against the stored one is refused with
    [PossibleCloneDetected]; a verdict that is returned reports the counter
    of the response as the new counter. *)
Record CounterContract (V : CredentialVerifier) : Prop := {
  contract_regression : ∀ a,
    otherwise_valid V a →
    counter_rule
      (WebAuthnCredential.counter (VerifyAuthenticationArgs.credential a))
      (AuthenticationResponse.counter (VerifyAuthenticationArgs.response a))
      = false →
    ∃ message,
      verifyAuthenticationResponse a
        = Threw (VerifierError PossibleCloneDetected message);
  contract_newCounter : ∀ a r,
    verifyAuthenticationResponse a = Returned r →
    AuthenticationInfo.newCounter (VerifiedAuthentication.authenticationInfo r)
      = AuthenticationResponse.counter (VerifyAuthenticationArgs.response a)
}.

(** A second account and a second authenticator for the scenario. *)
Definition key_2 : Bytes := [Byte.x0a; Byte.x0b].


(** * The locale module *)

(** ** Strings as the locale functions use them

    Locale codes are ASCII text. [toLowerCase] and [toUpperCase] map the 26
    letters and leave every other character as it is, which is what the
    JavaScript methods do on ASCII text. *)

Definition is_ascii_text (s : string) : Prop :=
  Forall (λ c, (nat_of_ascii c < 128)%nat) (list_ascii_of_string s).

Definition toLowerCase_char (c : ascii) : ascii :=
  let n := nat_of_ascii c in
  if (Nat.leb 65 n && Nat.leb n 90)%bool then ascii_of_nat (n + 32) else c.

Definition toUpperCase_char (c : ascii) : ascii :=
  let n := nat_of_ascii c in
  if (Nat.leb 97 n && Nat.leb n 122)%bool then ascii_of_nat (n - 32) else c.

Fixpoint map_chars (f : ascii → ascii) (s : string) : string :=
  match s with
  | String c rest => String (f c) (map_chars f rest)
  | EmptyString => EmptyString
  end.

Definition toLowerCase (s : string) : string := map_chars toLowerCase_char s.
Definition toUpperCase (s : string) : string := map_chars toUpperCase_char s.

(** [s.replaceAll(from, to)] for one-character [from] and [to]. *)
Definition replaceAll (from to : ascii) (s : string) : string :=
  map_chars (λ c, if Ascii.eqb c from then to else c) s.

(** [s.includes(c)] for a one-character [c]. *)
Fixpoint includes (sep : ascii) (s : string) : bool :=
  match s with
  | String c rest => (Ascii.eqb c sep || includes sep rest)%bool
  | EmptyString => false
  end.

(** [s.split(sep)] for a one-character separator: the pieces between the
    separators, one more than there are separators. *)
Fixpoint split (sep : ascii) (s : string) : list string :=
  match s with
  | EmptyString => [EmptyString]
  | String c rest =>
      if Ascii.eqb c sep then EmptyString :: split sep rest
      else match split sep rest with
           | piece :: pieces => String c piece :: pieces
           | [] => [String c EmptyString]
           end
  end.

(** [s.startsWith(prefix)] *)
Fixpoint startsWith (prefix s : string) : bool :=
  match prefix, s with
  | EmptyString, _ => true
  | String p prefix', String c s' => (Ascii.eqb p c && startsWith prefix' s')%bool
  | String _ _, EmptyString => false
  end.

(** What [if (x)] makes of the result of [Array.prototype.find] on strings:
    undefined and the empty string do not count. *)
Definition truthy (found : option string) : option string :=
  match found with
  | Some EmptyString => None
  | other => other
  end.

(** ** locale.ts *)

Definition POSSIBLE_LOCALES : list string :=
  ["aa"; "ab"; "ae"; "af"; "ak"; "am"; "an"; "ar"; "as"; "av"; "ay"; "az";
   "ba"; "be"; "bg"; "bh"; "bi"; "bm"; "bn"; "bo"; "br"; "bs"; "ca"; "ce";
   "ch"; "co"; "cr"; "cs"; "cu"; "cv"; "cy"; "da"; "de"; "de-AT"; "de-CH";
   "de-DE"; "dv"; "dz"; "ee"; "el"; "en"; "en-AU"; "en-CA"; "en-GB";
   "en-IN"; "en-US"; "eo"; "es"; "es-AR"; "es-ES"; "es-MX"; "et"; "eu";
   "fa"; "ff"; "fi"; "fj"; "fo"; "fr"; "fr-CA"; "fr-FR"; "fy"; "ga"; "gd";
   "gl"; "gn"; "gu"; "gv"; "ha"; "he"; "hi"; "ho"; "hr"; "ht"; "hu"; "hy";
   "hz"; "ia"; "id"; "ie"; "ig"; "ii"; "ik"; "io"; "is"; "it"; "iu"; "ja";
   "jv"; "ka"; "kg"; "ki"; "kj"; "kk"; "kl"; "km"; "kn"; "ko"; "ko-CN";
   "ko-KP"; "ko-KR"; "kr"; "ks"; "ku"; "kv"; "kw"; "ky"; "la"; "lb"; "lg";
   "li"; "ln"; "lo"; "lt"; "lu"; "lv"; "mg"; "mh"; "mi"; "mk"; "ml"; "mn";
   "mr"; "ms"; "mt"; "my"; "na"; "nb"; "nd"; "ne"; "ng"; "nl"; "nn"; "no";
   "nr"; "nv"; "ny"; "oc"; "oj"; "om"; "or"; "os"; "pa"; "pi"; "pl"; "ps";
   "pt"; "pt-BR"; "pt-PT"; "qu"; "rm"; "rn"; "ro"; "ru"; "rw"; "sa"; "sc";
   "sd"; "se"; "sg"; "si"; "sk"; "sl"; "sm"; "sn"; "so"; "sq"; "sr"; "ss";
   "st"; "su"; "sv"; "sw"; "ta"; "te"; "tg"; "th"; "ti"; "tk"; "tl"; "tn";
   "to"; "tr"; "ts"; "tt"; "tw"; "ty"; "ug"; "uk"; "ur"; "uz"; "ve"; "vi";
   "vo"; "wa"; "wo"; "xh"; "yi"; "yo"; "za"; "zh"; "zh-CN"; "zh-HK";
   "zh-MO"; "zh-TW"; "zu"].

Definition isLocale (value : string) : bool :=
  existsb (String.eqb value) POSSIBLE_LOCALES.

Definition normalizeLocale (value : string) : option string :=
  let normalized := replaceAll "_" "-" (toLowerCase value) in
  let normalized :=
    if String.eqb normalized "zh-hans" then "zh-cn"
    else if String.eqb normalized "zh-hant" then "zh-tw"
    else if includes "-" normalized then
      match split "-" normalized with
      | lang :: region :: _ => lang +:+ "-" +:+ toUpperCase region
      | _ => normalized (* a string that includes - has a second piece *)
      end
    else normalized in
  if isLocale normalized then Some normalized else None.

Definition findNearestLocale (locale : string) (availableLocales : list string)
    : option string :=
  let lowerCaseLanguage := toLowerCase locale in
  let exactMatch :=
    List.find (λ lang, String.eqb (toLowerCase lang) lowerCaseLanguage)
      availableLocales in
  match truthy exactMatch with
  | Some exactMatch => Some exactMatch
  | None =>
      let languageParts := split "-" lowerCaseLanguage in
      let languageWithoutRegion := hd EmptyString languageParts in
      let matchingBaseLanguages :=
        List.filter
          (λ lang,
             let lowerCaseLang := toLowerCase lang in
             (startsWith (languageWithoutRegion +:+ "-") lowerCaseLang
              || String.eqb lowerCaseLang languageWithoutRegion)%bool)
          availableLocales in
      if (0 <? length matchingBaseLanguages)%nat then
        let exactBaseMatch :=
          List.find
            (λ lang, String.eqb (toLowerCase lang) languageWithoutRegion)
            availableLocales in
        match truthy exactBaseMatch with
        | Some exactBaseMatch => Some exactBaseMatch
        | None => hd_error matchingBaseLanguages
        end
      else None
  end.

(** What a call of the pure modules ends in: a value, or an exception. *)
Inductive Outcome (E A : Type) :=
  | Ok (a : A)
  | Raise (e : E).
Arguments Ok {E A} a.
Arguments Raise {E A} e.

(** The getters of [Intl.Locale] that [negotiateLocale] reads. An absent
    script or region is [None]. *)
Module IntlLocale.
Record t := mk {
  baseName : string;
  language : string;
  script : option string;
  region : option string
}.
End IntlLocale.

(** [new Intl.Locale(tag)], which throws a [RangeError] on a tag that is
    not well formed, and [Intl.Locale.prototype.maximize]. *)
Class Intl := {
  Intl_Locale : string → option IntlLocale.t;
  maximize : IntlLocale.t → IntlLocale.t
}.

Inductive RangeError := RangeError_InvalidLanguageTag (tag : string).

(** [Intl.Locale | string] *)
Inductive LocaleOrTag :=
  | OfLocale (l : IntlLocale.t)
  | OfTag (tag : string).

(** The first parameter of [negotiateLocale]: one locale, or an array. *)
Inductive WantedLocales :=
  | WantedOne (l : LocaleOrTag)
  | WantedArray (ls : list LocaleOrTag).

(** [typeof l === "string" ? new Intl.Locale(l) : l] *)
Definition toIntlLocale `{Intl} (l : LocaleOrTag)
    : Outcome RangeError IntlLocale.t :=
  match l with
  | OfLocale l => Ok l
  | OfTag tag =>
      match Intl_Locale tag with
      | Some l => Ok l
      | None => Raise (RangeError_InvalidLanguageTag tag)
      end
  end.

(** [ls.map(toIntlLocale)], stopping at the first element that throws. *)
Fixpoint mapToIntlLocale `{Intl} (ls : list LocaleOrTag)
    : Outcome RangeError (list IntlLocale.t) :=
  match ls with
  | [] => Ok []
  | l :: rest =>
      match toIntlLocale l with
      | Raise e => Raise e
      | Ok l' =>
          match mapToIntlLocale rest with
          | Raise e => Raise e
          | Ok rest' => Ok (l' :: rest')
          end
      end
  end.

Definition option_string_eqb (a b : option string) : bool :=
  match a, b with
  | Some x, Some y => String.eqb x y
  | None, None => true
  | _, _ => false
  end.

(** The three passes over the available locales for one wanted locale, each
    returning the raw locale of the first entry it accepts. *)
Definition matchWanted (wantedMaximized : IntlLocale.t)
    (availablesWithMaximized : list (IntlLocale.t * IntlLocale.t))
    : option IntlLocale.t :=
  match List.find
          (λ a, String.eqb (IntlLocale.baseName wantedMaximized)
                  (IntlLocale.baseName a.2))
          availablesWithMaximized with
  | Some a => Some a.1
  | None =>
    match List.find
            (λ a, (String.eqb (IntlLocale.language wantedMaximized)
                     (IntlLocale.language a.2)
                   && option_string_eqb (IntlLocale.script wantedMaximized)
                        (IntlLocale.script a.2))%bool)
            availablesWithMaximized with
    | Some a => Some a.1
    | None =>
      match List.find
              (λ a, String.eqb (IntlLocale.language wantedMaximized)
                      (IntlLocale.language a.2))
              availablesWithMaximized with
      | Some a => Some a.1
      | None => None
      end
    end
  end.

(** The loop over the wanted locales, in priority order. *)
Fixpoint negotiateLoop `{Intl} (wantedArray : list IntlLocale.t)
    (availablesWithMaximized : list (IntlLocale.t * IntlLocale.t))
    : option IntlLocale.t :=
  match wantedArray with
  | [] => None
  | wanted :: rest =>
      match matchWanted (maximize wanted) availablesWithMaximized with
      | Some raw => Some raw
      | None => negotiateLoop rest availablesWithMaximized
      end
  end.

Definition negotiateLocale `{Intl} (wantedLocales : WantedLocales)
    (availableLocales : list LocaleOrTag)
    : Outcome RangeError (option IntlLocale.t) :=
  if (length availableLocales =? 0)%nat then Ok None
  else
    match mapToIntlLocale
            (match wantedLocales with
             | WantedArray ls => ls
             | WantedOne l => [l]
             end) with
    | Raise e => Raise e
    | Ok wantedArray =>
        match mapToIntlLocale availableLocales with
        | Raise e => Raise e
        | Ok availableLocalesNormalized =>
            let availablesWithMaximized :=
              map (λ raw, (raw, maximize raw)) availableLocalesNormalized in
            Ok (negotiateLoop wantedArray availablesWithMaximized)
        end
    end.

(** The test by which [findNearestLocale] collects [matchingBaseLanguages]:
    [lang], in lower case, is the language of [locale] alone or that
    language followed by a hyphen and more. *)
Definition sameLanguage (locale lang : string) : bool :=
  let languageWithoutRegion :=
    hd EmptyString (split "-" (toLowerCase locale)) in
  let lowerCaseLang := toLowerCase lang in
  (startsWith (languageWithoutRegion +:+ "-") lowerCaseLang
   || String.eqb lowerCaseLang languageWithoutRegion)%bool.

(** The wanted locales as the array [negotiateLocale] walks through. *)
Definition wantedList (wantedLocales : WantedLocales) : list LocaleOrTag :=
  match wantedLocales with
  | WantedArray ls => ls
  | WantedOne l => [l]
  end.

(** The three tests of [negotiateLocale], on locales as given. *)
Definition sameBaseName `{Intl} (wanted available : IntlLocale.t) : bool :=
  String.eqb (IntlLocale.baseName (maximize wanted))
             (IntlLocale.baseName (maximize available)).

Definition sameLanguageAndScript `{Intl} (wanted available : IntlLocale.t)
    : bool :=
  (String.eqb (IntlLocale.language (maximize wanted))
              (IntlLocale.language (maximize available))
   && option_string_eqb (IntlLocale.script (maximize wanted))
                        (IntlLocale.script (maximize available)))%bool.

Definition sameMaximizedLanguage `{Intl} (wanted available : IntlLocale.t)
    : bool :=
  String.eqb (IntlLocale.language (maximize wanted))
             (IntlLocale.language (maximize available)).

(** A property of [Intl.Locale]: the base name begins with the language, so
    two maximized locales with one base name have one language. *)
Definition baseName_fixes_language `{Intl} : Prop :=
  ∀ x y,
    IntlLocale.baseName (maximize x) = IntlLocale.baseName (maximize y) →
    IntlLocale.language (maximize x) = IntlLocale.language (maximize y).

(** A small [Intl] for running [negotiateLocale]: the tags of the doc
    comment's examples, with the likely subtags CLDR gives them. *)
Definition reference_Intl_Locale (tag : string) : option IntlLocale.t :=
  if String.eqb tag "en" then Some (IntlLocale.mk "en" "en" None None)
  else if String.eqb tag "en-US"
  then Some (IntlLocale.mk "en-US" "en" None (Some "US"))
  else if String.eqb tag "ko" then Some (IntlLocale.mk "ko" "ko" None None)
  else if String.eqb tag "ko-KR"
  then Some (IntlLocale.mk "ko-KR" "ko" None (Some "KR"))
  else if String.eqb tag "ja" then Some (IntlLocale.mk "ja" "ja" None None)
  else if String.eqb tag "zh-CN"
  then Some (IntlLocale.mk "zh-CN" "zh" None (Some "CN"))
  else if String.eqb tag "zh-TW"
  then Some (IntlLocale.mk "zh-TW" "zh" None (Some "TW"))
  else if String.eqb tag "zh-HK"
  then Some (IntlLocale.mk "zh-HK" "zh" None (Some "HK"))
  else None.

(** The base name with its likely script and region added. *)
Definition likelyBaseName (base : string) : string :=
  if String.eqb base "en" || String.eqb base "en-US" then "en-Latn-US"
  else if String.eqb base "ko" || String.eqb base "ko-KR" then "ko-Kore-KR"
  else if String.eqb base "ja" then "ja-Jpan-JP"
  else if String.eqb base "zh-CN" then "zh-Hans-CN"
  else if String.eqb base "zh-TW" then "zh-Hant-TW"
  else if String.eqb base "zh-HK" then "zh-Hant-HK"
  else base.

Definition reference_maximize (l : IntlLocale.t) : IntlLocale.t :=
  let base := likelyBaseName (IntlLocale.baseName l) in
  let pieces := split "-" base in
  IntlLocale.mk base (hd EmptyString pieces) (nth_error pieces 1)
    (nth_error pieces 2).

#[local] Instance reference_Intl : Intl := {
  Intl_Locale := reference_Intl_Locale;
  maximize := reference_maximize
}.

(** * The account module *)

(** ** [transformAvatar] *)

(** What [sharp(input).metadata()] reports, as far as it is read. A missing
    width, height or format is [None]; a missing [hasAlpha] counts as
    false, as it does in the condition that reads it. *)
Module ImageMetadata.
Record t := mk {
  width : option Z;
  height : option Z;
  hasAlpha : bool;
  format : option string
}.
End ImageMetadata.

(** The calls made on the [sharp] pipeline, in order. *)
Inductive SharpOperation :=
  | Extract (left top width height : Z)
  | Resize (width : Z)
  | Webp (quality : Z)
  | Jpeg (quality : Z).

(** [x | 0] on an integer: the value taken modulo 2^32 into the signed
    range. *)
Definition toInt32 (x : Z) : Z :=
  let m := x mod 2 ^ 32 in
  if m <? 2 ^ 31 then m else m - 2 ^ 32.

Inductive AvatarFormat := jpeg | webp.

(** The pipeline [transformAvatar] builds for an image with the given
    metadata and the format it reports; the pixels themselves are sharp's.
    The division by two is a floating-point one whose result [| 0] truncates
    toward zero. *)
Definition transformAvatar (metadata : ImageMetadata.t)
    : Outcome string (list SharpOperation * AvatarFormat) :=
  match ImageMetadata.width metadata, ImageMetadata.height metadata with
  | Some width, Some height =>
      let '(image, width) :=
        if negb (width =? height) then
          let size := Z.min width height in
          let left := toInt32 (Z.quot (width - size) 2) in
          let top := toInt32 (Z.quot (height - size) 2) in
          ([Extract left top size size], size)
        else ([], width) in
      let image :=
        if 1024 <? width then (image ++ [Resize 1024])%list else image in
      if ImageMetadata.hasAlpha metadata
      then Ok ((image ++ [Webp 90])%list, webp)
      else if negb (option_string_eqb (ImageMetadata.format metadata)
                      (Some "jpeg"))
      then Ok ((image ++ [Jpeg 90])%list, jpeg)
      else Ok (image, jpeg)
  | _, _ => Raise "Failed to read image metadata."
  end.

(** ** [normalizeEmail] *)

(** [string | null | undefined] *)
Inductive NullableString :=
  | IsUndefined
  | IsNull
  | IsString (s : string).

(** [new URL(input).host], which throws a [TypeError] on an input that is
    not a URL. *)
Class UrlHost := { URL_host : string → option string }.

Inductive EmailError :=
  | TypeError_InvalidEmailFormat
  | TypeError_InvalidHost (url : string).

(** Whether [s.trim()] is the empty string, with [trim] on the ASCII white
    space. *)
Definition is_blank (s : string) : bool := String.eqb (trim s) EmptyString.

Definition normalizeEmail `{UrlHost} (email : NullableString)
    : Outcome EmailError NullableString :=
  match email with
  | IsUndefined => Ok IsUndefined
  | IsNull => Ok IsNull
  | IsString email =>
      let parts := split "@" (trim email) in
      let local := nth_error parts 0 in
      let host := nth_error parts 1 in
      let shouldNotExist := nth_error parts 2 in
      match local, host, shouldNotExist with
      | Some local, Some host, None =>
          if (is_blank local || is_blank host)%bool
          then Raise TypeError_InvalidEmailFormat
          else
            match URL_host ("https://" +:+ host +:+ "/") with
            | Some normalizedHost =>
                Ok (IsString (local +:+ "@" +:+ normalizedHost))
            | None => Raise (TypeError_InvalidHost ("https://" +:+ host +:+ "/"))
            end
      | _, _, _ => Raise TypeError_InvalidEmailFormat
      end
  end.

(** A host normalizer for running [normalizeEmail]: lower case, and no host
    with a blank or a slash in it. *)
#[local] Instance reference_UrlHost : UrlHost := {
  URL_host input :=
    match strip_prefix "https://" input with
    | Some rest =>
        let host := take_until (Ascii.eqb "/") rest in
        if (String.eqb host EmptyString || includes " " host)%bool then None
        else Some (toLowerCase host)
    | None => None
    end
}.

(** ** [updateAccountData] *)

(** A row of the account table. Its declaration (schema.ts) is outside the
    sources at hand: the row carries the columns that the SQL of
    [updateAccountData] names, and [others] holds every other column by
    name. *)
Module AccountRow.
Record t := mk {
  id : Uuid;
  username : string;
  oldUsername : option string;
  usernameChanged : option Z;
  updated : Z;
  others : gmap string string
}.
End AccountRow.

(** [Partial<Omit<NewAccount, "id">> & { id: Uuid }]: the id of the row to
    update and the columns given. A column that is absent or undefined is
    [None]; for the two nullable columns [Some None] is an explicit null. *)
Module AccountValues.
Record t := mk {
  id : Uuid;
  username : option string;
  oldUsername : option (option string);
  usernameChanged : option (option Z);
  updated : option Z;
  others : gmap string string
}.
End AccountValues.

(** The constraints that the declaration of the table puts on its rows; an
    UPDATE that would break one is refused. *)
Class AccountSchema := { accountTable_accepts : list AccountRow.t → bool }.

Inductive AccountDbError := ConstraintViolation.

Definition is_null {A} (x : option A) : bool :=
  match x with
  | Some _ => false
  | None => true
  end.

(** The SET clause, evaluated on the row as it was. *)
Definition updateAccountData_set (values : AccountValues.t) (now : Z)
    (row : AccountRow.t) : AccountRow.t :=
  AccountRow.mk
    (AccountRow.id row)
    (match AccountValues.username values with
     | None => AccountRow.username row
     | Some username =>
         if is_null (AccountRow.usernameChanged row) then username
         else AccountRow.username row
     end)
    (match AccountValues.username values with
     | None =>
         match AccountValues.oldUsername values with
         | Some given => given
         | None => AccountRow.oldUsername row
         end
     | Some username =>
         if (String.eqb (AccountRow.username row) username
             || negb (is_null (AccountRow.usernameChanged row)))%bool
         then None
         else Some (AccountRow.username row)
     end)
    (match AccountValues.username values with
     | None =>
         match AccountValues.usernameChanged values with
         | Some given => given
         | None => AccountRow.usernameChanged row
         end
     | Some username =>
         if (String.eqb (AccountRow.username row) username
             || negb (is_null (AccountRow.usernameChanged row)))%bool
         then AccountRow.usernameChanged row
         else Some now
     end)
    now
    (AccountValues.others values ∪ AccountRow.others row).

(** [db.update(accountTable).set(...).where(eq(accountTable.id, account.id))
    .returning()], then the first returned row or undefined. The outcome
    pairs what the call returns with the table it leaves. *)
Definition updateAccountData `{AccountSchema} (account : AccountValues.t)
    (now : Z) (table : list AccountRow.t)
    : Outcome AccountDbError (option AccountRow.t * list AccountRow.t) :=
  let matches (row : AccountRow.t) :=
    String.eqb (AccountRow.id row) (AccountValues.id account) in
  let table' :=
    map (λ row, if matches row then updateAccountData_set account now row
                else row) table in
  if accountTable_accepts table'
  then Ok (hd_error (List.filter matches table'), table')
  else Raise ConstraintViolation.

(** A schema for running [updateAccountData]: user names are unique. *)
#[local] Instance reference_AccountSchema : AccountSchema := {
  accountTable_accepts table :=
    bool_decide (NoDup (map AccountRow.username table))
}.

(** Two accounts to run [updateAccountData] on. *)
Definition account_rows : list AccountRow.t :=
  [AccountRow.mk "id-1" "alice" None None 10 ∅;
   AccountRow.mk "id-2" "bob" None None 20 ∅].

(** An update of account [id-1] carrying a user name only. *)
Definition rename_to (username : string) : AccountValues.t :=
  AccountValues.mk "id-1" (Some username) None None None ∅.

(** ** [getAvatarUrl] *)

(** The columns of an account's email row that [getAvatarUrl] reads. *)
Module AccountEmail.
Record t := mk { email : string; verified : option Z; public : bool }.
End AccountEmail.

(** What [getAvatarUrl] takes from outside: the URL the disk gives for a
    key; [gravatar_hash email], the hexadecimal SHA-256 digest of the UTF-8
    bytes of [email.toLowerCase()]; [encodeURIComponent]; and the order in
    which [Array.prototype.sort] leaves the emails under the comparator
    [(a, b) => a.public ? 1 : b.public ? -1 : 0]. *)
Class AvatarRuntime := {
  disk_getUrl : string → string;
  gravatar_hash : string → string;
  encodeURIComponent : string → string;
  sort_emails : list AccountEmail.t → list AccountEmail.t
}.

(** A sort rearranges and neither adds nor drops. *)
Definition sort_rearranges `{AvatarRuntime} : Prop :=
  ∀ emails, Permutation (sort_emails emails) emails.

(** One round of the loop: the URL so far becomes the fallback of the
    Gravatar URL of the next email. *)
Definition gravatar_url `{AvatarRuntime} (url : string)
    (email : AccountEmail.t) : string :=
  "https://gravatar.com/avatar/" +:+ gravatar_hash (AccountEmail.email email)
    +:+ "?r=pg&s=128&d=" +:+ encodeURIComponent url.

Definition getAvatarUrl `{AvatarRuntime} (avatarKey : option string)
    (emails : list AccountEmail.t) : string :=
  match avatarKey with
  | Some avatarKey => disk_getUrl avatarKey
  | None =>
      let emails :=
        sort_emails
          (List.filter (λ e, negb (is_null (AccountEmail.verified e))) emails) in
      let url := fold_left gravatar_url emails "mp" in
      if String.eqb url "mp" then "https://gravatar.com/avatar/?d=mp&s=128"
      else url
  end.

(** A runtime for running [getAvatarUrl]: public emails last, in the order
    given otherwise. *)
#[local] Instance reference_AvatarRuntime : AvatarRuntime := {
  disk_getUrl key := "https://media.example/" +:+ key;
  gravatar_hash email := "hash(" +:+ toLowerCase email +:+ ")";
  encodeURIComponent s := s;
  sort_emails emails :=
    (List.filter (λ e, negb (AccountEmail.public e)) emails
     ++ List.filter AccountEmail.public emails)%list
}.

(** ** [getAccountByUsername] *)

(** The row with the latest [usernameChanged] among [rows], all of which
    have one: what [orderBy: { usernameChanged: "desc" }] puts first. Among
    rows changed at the same time the database is free to choose; here the
    earliest in the list is taken. *)
Fixpoint latestChanged (rows : list AccountRow.t) : option AccountRow.t :=
  match rows with
  | [] => None
  | row :: rest =>
      match latestChanged rest with
      | Some best =>
          if (default 0 (AccountRow.usernameChanged row)
              <? default 0 (AccountRow.usernameChanged best))
          then Some best else Some row
      | None => Some row
      end
  end.

(** Which account row [getAccountByUsername] finds; the actor, emails and
    links joined to it are read-only and left out. *)
Definition getAccountByUsername (username : string)
    (table : list AccountRow.t) : option AccountRow.t :=
  match List.find (λ row, String.eqb (AccountRow.username row) username)
          table with
  | Some account => Some account
  | None =>
      latestChanged
        (List.filter
           (λ row, (option_string_eqb (AccountRow.oldUsername row)
                      (Some username)
                    && negb (is_null (AccountRow.usernameChanged row)))%bool)
           table)
  end.
(** ** The ceremonies, step by step *)

Arguments registration_key : simpl never.
Arguments authentication_key : simpl never.

Ltac unfold_monad :=
  unfold new_URL, generateRegistrationOptions, generateAuthenticationOptions,
    kv_get, kv_set, findPasskey, insertPasskey, updateCounter,
    awaitVerifyRegistrationResponse, awaitVerifyAuthenticationResponse,
    bind, ret, throw.

Section Steps.
Context `{P : Platform} `{V : CredentialVerifier}.

Lemma verifyAuthentication_eq origin sessionId response w :
  verifyAuthentication origin sessionId response w =
  match Keyv.get (authentication_key sessionId) (World.now w) (World.kv w) with
  | None => (Returned None, w)
  | Some options =>
    match db_findPasskey (AuthenticationResponse.id response) (World.db w) with
    | None => (Returned None, w)
    | Some passkey =>
      match URL_parse origin with
      | None => (Threw (TypeError_InvalidURL origin), w)
      | Some url =>
        let a := authentication_args response options url
                   (PasskeyWithAccount.passkey passkey) in
        let w1 := World.with_log
                    (World.log w ++ [ConsultedAuthenticationVerifier a]) w in
        match verifyAuthenticationResponse a with
        | Threw e => (Threw e, w1)
        | Returned result =>
          (Returned (Some (AuthenticationResult.mk result
                             (PasskeyWithAccount.account passkey) passkey)),
           if VerifiedAuthentication.verified result
           then World.with_db
                  (db_updateCounter (AuthenticationResponse.id response)
                     (AuthenticationInfo.newCounter
                        (VerifiedAuthentication.authenticationInfo result))
                     (World.now w) (World.db w)) w1
           else w1)
        end
      end
    end
  end.
Proof.
  unfold verifyAuthentication, authentication_args. unfold_monad.
  destruct (Keyv.get _ _ _) as [options|]; [|reflexivity].
  destruct (db_findPasskey _ _) as [passkey|]; [|reflexivity].
  destruct (URL_parse origin) as [url|]; [|reflexivity].
  destruct (verifyAuthenticationResponse _) as [result|e]; [|reflexivity].
  destruct (VerifiedAuthentication.verified result); reflexivity.
Qed.

Lemma verifyRegistration_eq origin account name response w :
  verifyRegistration origin account name response w =
  match Keyv.get (registration_key (Account.id account)) (World.now w)
          (World.kv w) with
  | None => (Threw (Error_MissingRegistrationOptions (Account.id account)), w)
  | Some options =>
    match URL_parse origin with
    | None => (Threw (TypeError_InvalidURL origin), w)
    | Some url =>
      let a := registration_args response options url in
      let w1 := World.with_log
                  (World.log w ++ [ConsultedRegistrationVerifier a]) w in
      match verifyRegistrationResponse a with
      | Threw e => (Threw e, w1)
      | Returned result =>
        match VerifiedRegistration.verified result,
              VerifiedRegistration.registrationInfo result with
        | true, Some info =>
          match stored_user options with
          | None => (Threw (TypeError_UndefinedProperty "id"), w1)
          | Some user =>
            match db_insertPasskey
                    (new_passkey account name info user (World.now w))
                    (World.db w) with
            | Returned d => (Returned result, World.with_db d w1)
            | Threw e => (Threw e, w1)
            end
          end
        | _, _ => (Returned result, w1)
        end
      end
    end
  end.
Proof.
  unfold verifyRegistration, registration_args, new_passkey. unfold_monad.
  destruct (Keyv.get _ _ _) as [options|]; [|reflexivity].
  destruct (URL_parse origin) as [url|]; [|reflexivity].
  destruct (verifyRegistrationResponse _) as [result|e]; [|reflexivity].
  destruct (VerifiedRegistration.verified result); [|reflexivity].
  destruct (VerifiedRegistration.registrationInfo result) as [info|];
    [|reflexivity].
  destruct (stored_user options) as [user|]; [|reflexivity].
  simpl. destruct (db_insertPasskey _ _); reflexivity.
Qed.

Lemma getAuthenticationOptions_eq origin sessionId w :
  getAuthenticationOptions origin sessionId w =
  match URL_parse origin with
  | None => (Threw (TypeError_InvalidURL origin), w)
  | Some url =>
    let options := RequestOptions.mk (randomChallenge (World.rng w))
                     (URL.hostname url) [] in
    (Returned options,
     World.mk
       (Keyv.set (authentication_key sessionId) (StoredRequest options)
          (Some AUTHENTICATION_TTL) (World.now w) (World.kv w))
       (World.db w) (World.now w) (S (World.rng w)) (World.log w))
  end.
Proof.
  unfold getAuthenticationOptions. unfold_monad.
  destruct (URL_parse origin); reflexivity.
Qed.

Lemma getRegistrationOptions_eq origin account w :
  getRegistrationOptions origin account w =
  match URL_parse origin with
  | None => (Threw (TypeError_InvalidURL origin), w)
  | Some url =>
    let options :=
      CreationOptions.mk (randomChallenge (World.rng w))
        (RpEntity.mk RP_NAME (URL.hostname url))
        (UserEntity.mk (randomUserId (S (World.rng w)))
           (Account.username (AccountWithPasskeys.account account)) "")
        "none"
        (map (λ passkey,
                Descriptor.mk (Passkey.id passkey) (Passkey.transports passkey))
             (AccountWithPasskeys.passkeys account)) in
    (Returned options,
     World.mk
       (Keyv.set
          (registration_key (Account.id (AccountWithPasskeys.account account)))
          (StoredCreation options) None (World.now w) (World.kv w))
       (World.db w) (World.now w) (S (S (World.rng w))) (World.log w))
  end.
Proof.
  unfold getRegistrationOptions. unfold_monad.
  destruct (URL_parse origin); reflexivity.
Qed.

End Steps.

(** ** Facts about the stores *)

Lemma Keyv_get_set_eq key v explicit now t kv :
  Keyv.get key t (Keyv.set key v explicit now kv) =
  match Keyv.effective_ttl explicit kv with
  | Some d => if now + d <? t then None else Some v
  | None => Some v
  end.
Proof.
  unfold Keyv.get, Keyv.set, Keyv.live. simpl.
  rewrite lookup_insert_eq. simpl.
  destruct (Keyv.effective_ttl explicit kv) as [d|]; simpl; [|reflexivity].
  destruct (now + d <? t); reflexivity.
Qed.

Lemma Keyv_get_None key now kv :
  absent_or_expired key now kv ↔ Keyv.get key now kv = None.
Proof.
  unfold absent_or_expired, Keyv.get, Keyv.live. split.
  - intros [-> | (e & t & -> & -> & Hlt)]; [reflexivity|].
    apply Z.ltb_lt in Hlt. rewrite Hlt. reflexivity.
  - destruct (Keyv.store kv !! key) as [e|]; [|left; reflexivity].
    destruct (KvEntry.expires e) as [t|] eqn:He; [|discriminate].
    destruct (t <? now) eqn:Hlt; [|discriminate].
    intros _. right. exists e, t. apply Z.ltb_lt in Hlt. auto.
Qed.

Lemma passkey_findFirst_None cid rows :
  passkey_findFirst cid rows = None ↔ ∀ p, p ∈ rows → Passkey.id p ≠ cid.
Proof.
  induction rows as [|q rows IH]; simpl.
  - split; [intros _ p Hp; inversion Hp | reflexivity].
  - destruct (String.eqb (Passkey.id q) cid) eqn:E.
    + split; [discriminate|]. intros Hall.
      apply String.eqb_eq in E. destruct (Hall q); [left|exact E].
    + rewrite IH. apply String.eqb_neq in E. split.
      * intros Hall p Hp. inversion Hp; subst; auto.
      * intros Hall p Hp. apply Hall. right. exact Hp.
Qed.

(** The UPDATE keeps every id, so the row found first is the same row,
    updated. *)
Lemma passkey_findFirst_update cid c used rows :
  passkey_findFirst cid
    (map (λ p, if String.eqb (Passkey.id p) cid
               then Passkey.set_counter_lastUsed c used p else p) rows) =
  Passkey.set_counter_lastUsed c used <$> passkey_findFirst cid rows.
Proof.
  induction rows as [|q rows IH]; simpl; [reflexivity|].
  destruct (String.eqb (Passkey.id q) cid) eqn:E; simpl; rewrite E.
  - reflexivity.
  - exact IH.
Qed.

Lemma db_findPasskey_None cid db :
  db_findPasskey cid db = None ↔
  passkey_findFirst cid (Database.passkeyTable db) = None.
Proof.
  unfold db_findPasskey.
  destruct (passkey_findFirst cid (Database.passkeyTable db)); split;
    congruence.
Qed.

Section Ceremonies.
Context `{P : Platform} `{V : CredentialVerifier}.



Lemma verifyAuthentication_missing origin sessionId response w :
  Keyv.get (authentication_key sessionId) (World.now w) (World.kv w) = None →
  verifyAuthentication origin sessionId response w = (Returned None, w).
Proof. intros H. rewrite verifyAuthentication_eq, H. reflexivity. Qed.

Lemma verifyRegistration_missing origin account name response w :
  Keyv.get (registration_key (Account.id account)) (World.now w) (World.kv w)
    = None →
  verifyRegistration origin account name response w =
  (Threw (Error_MissingRegistrationOptions (Account.id account)), w).
Proof. intros H. rewrite verifyRegistration_eq, H. reflexivity. Qed.

End Ceremonies.

(** ** Issuing authentication options *)

(** Reading back the entry written by [getAuthenticationOptions]. *)
Lemma getAuthenticationOptions_get `{P : Platform} origin url sessionId w t :
  URL_parse origin = Some url →
  Keyv.get (authentication_key sessionId) t
    (World.kv (getAuthenticationOptions origin sessionId w).2) =
  if World.now w + AUTHENTICATION_TTL <? t then None
  else Some (StoredRequest
               (RequestOptions.mk (randomChallenge (World.rng w))
                  (URL.hostname url) [])).
Proof.
  intros Hurl. rewrite getAuthenticationOptions_eq, Hurl. simpl.
  rewrite Keyv_get_set_eq. reflexivity.
Qed.

(** C6: every call that issues authentication options stores the options
    under the key [passkey/authentication/<session id>] with an expiry time
    of exactly five minutes (5 * 60 * 1000 ms) after the call; the entry is
    read back up to that time and is absent at every later time. *)
Theorem C6_authentication_challenge_ttl `{P : Platform}
    (origin : string) (url : URL.t) (sessionId : Uuid) (w : World.t) :
  URL_parse origin = Some url →
  ∃ options,
    (getAuthenticationOptions origin sessionId w).1 = Returned options ∧
    let kv' := World.kv (getAuthenticationOptions origin sessionId w).2 in
    authentication_key sessionId = "passkey/authentication/" +:+ sessionId ∧
    Keyv.store kv' !! authentication_key sessionId =
      Some (KvEntry.mk (StoredRequest options)
              (Some (World.now w + 5 * 60 * 1000))) ∧
    ∀ t, Keyv.get (authentication_key sessionId) t kv' =
         if World.now w + 5 * 60 * 1000 <? t then None
         else Some (StoredRequest options).
Proof.
  intros Hurl. rewrite getAuthenticationOptions_eq, Hurl. simpl.
  eexists. split; [reflexivity|]. split; [reflexivity|]. split.
  - unfold Keyv.set. simpl. rewrite lookup_insert_eq. reflexivity.
  - intros t. rewrite Keyv_get_set_eq. reflexivity.
Qed.

Lemma C6_authentication_challenge_ttl_witness :
  ∃ options,
    (getAuthenticationOptions hackers_pub "sess-1" (registered_world 0)).1
      = Returned options ∧
    Keyv.get (authentication_key "sess-1") 301000
      (World.kv (getAuthenticationOptions hackers_pub "sess-1"
                   (registered_world 0)).2) = Some (StoredRequest options) ∧
    Keyv.get (authentication_key "sess-1") 301001
      (World.kv (getAuthenticationOptions hackers_pub "sess-1"
                   (registered_world 0)).2) = None.
Proof.
  destruct (C6_authentication_challenge_ttl (P := reference_platform)
              hackers_pub (URL.mk hackers_pub "hackers.pub") "sess-1"
              (registered_world 0) eq_refl)
    as (options & Hret & _ & _ & Hget).
  exists options. split; [exact Hret|].
  split; rewrite Hget; reflexivity.
Defined.

(** ** Issuing registration options *)

(** C9, as the code has it: [getRegistrationOptions] passes no time-to-live,
    so the entry under [passkey/registration/<account id>] gets the expiry
    the store applies by default, and none when the store has no default: it
    is then read back at every later time. *)
Theorem C9_registration_challenge_store_default `{P : Platform}
    (origin : string) (url : URL.t) (account : AccountWithPasskeys.t)
    (w : World.t) :
  URL_parse origin = Some url →
  let key := registration_key (Account.id (AccountWithPasskeys.account account)) in
  let kv' := World.kv (getRegistrationOptions origin account w).2 in
  ∃ options,
    (getRegistrationOptions origin account w).1 = Returned options ∧
    key = "passkey/registration/"
            +:+ Account.id (AccountWithPasskeys.account account) ∧
    Keyv.store kv' !! key =
      Some (KvEntry.mk (StoredCreation options)
              ((λ d, World.now w + d)
                 <$> Keyv.effective_ttl None (World.kv w))) ∧
    (∀ d t, Keyv.ttl (World.kv w) = Some d → d ≠ 0 →
       Keyv.get key t kv' =
       if World.now w + d <? t then None else Some (StoredCreation options)) ∧
    (Keyv.ttl (World.kv w) = None →
       ∀ t, Keyv.get key t kv' = Some (StoredCreation options)).
Proof.
  intros Hurl key kv'. subst key kv'.
  rewrite getRegistrationOptions_eq, Hurl. simpl.
  eexists. split; [reflexivity|]. split; [reflexivity|]. split; [|split].
  - unfold Keyv.set. simpl. rewrite lookup_insert_eq. reflexivity.
  - intros d t Hd Hnz. rewrite Keyv_get_set_eq.
    unfold Keyv.effective_ttl. rewrite Hd. destruct d; congruence.
  - intros Hnone t. rewrite Keyv_get_set_eq.
    unfold Keyv.effective_ttl. rewrite Hnone. reflexivity.
Qed.

Lemma C9_registration_challenge_store_default_witness :
  ∃ options,
    (getRegistrationOptions hackers_pub (AccountWithPasskeys.mk alice [])
       (empty_world (Some 600000) 1000)).1 = Returned options ∧
    Keyv.store
      (World.kv (getRegistrationOptions hackers_pub
                   (AccountWithPasskeys.mk alice [])
                   (empty_world (Some 600000) 1000)).2)
      !! registration_key "alice-uuid" =
    Some (KvEntry.mk (StoredCreation options) (Some 601000)).
Proof.
  destruct (C9_registration_challenge_store_default (P := reference_platform)
              hackers_pub (URL.mk hackers_pub "hackers.pub")
              (AccountWithPasskeys.mk alice [])
              (empty_world (Some 600000) 1000) eq_refl)
    as (options & Hret & _ & Hstore & _).
  exists options. split; [exact Hret | exact Hstore].
Defined.

(** C9, as claimed, fails: on a store without a default time-to-live the
    registration challenge issued at time 1000 carries no expiry and is still
    read back at any time [t], however late; no bound makes it absent. *)
Lemma C9_registration_challenge_never_expires :
  let out := getRegistrationOptions hackers_pub
               (AccountWithPasskeys.mk alice []) (empty_world None 1000) in
  ∃ options,
    out.1 = Returned options ∧
    Keyv.store (World.kv out.2) !! registration_key "alice-uuid" =
      Some (KvEntry.mk (StoredCreation options) None) ∧
    (∀ t, Keyv.get (registration_key "alice-uuid") t (World.kv out.2)
          = Some (StoredCreation options)) ∧
    ¬ ∃ bound, ∀ t, 1000 + bound < t →
        Keyv.get (registration_key "alice-uuid") t (World.kv out.2) = None.
Proof.
  cbv zeta.
  rewrite getRegistrationOptions_eq.
  change (URL_parse hackers_pub) with (Some (URL.mk hackers_pub "hackers.pub")).
  cbv zeta. cbn [fst snd World.kv].
  eexists. split; [reflexivity|].
  assert (Hget : ∀ t,
    Keyv.get (registration_key "alice-uuid") t
      (Keyv.set (registration_key (Account.id alice))
         (StoredCreation
            (CreationOptions.mk (randomChallenge 0%nat)
               (RpEntity.mk RP_NAME "hackers.pub")
               (UserEntity.mk (randomUserId 1%nat) (Account.username alice) "")
               "none" []))
         None 1000 (Keyv.mk ∅ None)) =
    Some (StoredCreation
            (CreationOptions.mk (randomChallenge 0%nat)
               (RpEntity.mk RP_NAME "hackers.pub")
               (UserEntity.mk (randomUserId 1%nat) (Account.username alice) "")
               "none" []))).
  { intros t. apply (Keyv_get_set_eq (registration_key "alice-uuid")). }
  split; [|split].
  - unfold Keyv.set. simpl. rewrite lookup_insert_eq. reflexivity.
  - exact Hget.
  - intros [bound Hb].
    specialize (Hb (Z.max 0 bound + 1001)).
    rewrite Hget in Hb. discriminate Hb. lia.
Qed.

(** ** Submitting a response without a live challenge *)

(** C4: when the challenge entry of the ceremony is absent or expired,
    [verifyRegistration] throws its missing-options error and
    [verifyAuthentication] returns undefined; in both the world is left as it
    was, log included, so the verifier was not consulted, and the outcome is
    not an error of the verifier. *)
Theorem C4_missing_challenge_skips_verifier
    `{P : Platform} `{V : CredentialVerifier}
    (origin : string) (account : Account.t) (name : string)
    (sessionId : Uuid) (registration : RegistrationResponse.t)
    (authentication : AuthenticationResponse.t) (w : World.t) :
  (absent_or_expired (registration_key (Account.id account)) (World.now w)
     (World.kv w) →
   verifyRegistration origin account name registration w =
     (Threw (Error_MissingRegistrationOptions (Account.id account)), w) ∧
   World.log (verifyRegistration origin account name registration w).2
     = World.log w ∧
   ∀ kind message,
     (verifyRegistration origin account name registration w).1
       ≠ Threw (VerifierError kind message)) ∧
  (absent_or_expired (authentication_key sessionId) (World.now w)
     (World.kv w) →
   verifyAuthentication origin sessionId authentication w = (Returned None, w) ∧
   World.log (verifyAuthentication origin sessionId authentication w).2
     = World.log w ∧
   ∀ kind message,
     (verifyAuthentication origin sessionId authentication w).1
       ≠ Threw (VerifierError kind message)).
Proof.
  split; intros Hgone; apply Keyv_get_None in Hgone.
  - rewrite (verifyRegistration_missing _ _ _ _ _ Hgone).
    repeat split; intros; discriminate.
  - rewrite (verifyAuthentication_missing _ _ _ _ Hgone).
    repeat split; intros; discriminate.
Qed.

Lemma C4_missing_challenge_skips_verifier_witness :
  verifyRegistration hackers_pub alice "laptop"
    (registration_of "challenge-0" 0) (empty_world None 1000) =
    (Threw (Error_MissingRegistrationOptions "alice-uuid"),
     empty_world None 1000) ∧
  verifyAuthentication hackers_pub "sess-1"
    (authentication_of "challenge-2" 0 key_1)
    (World.at_time 301001 (challenged_world 0)) =
    (Returned None, World.at_time 301001 (challenged_world 0)).
Proof.
  split.
  - apply (C4_missing_challenge_skips_verifier (P := reference_platform)
             (V := reference_verifier) hackers_pub alice "laptop" "sess-1"
             (registration_of "challenge-0" 0)
             (authentication_of "challenge-2" 0 key_1) (empty_world None 1000)).
    left. reflexivity.
  - apply (C4_missing_challenge_skips_verifier (P := reference_platform)
             (V := reference_verifier) hackers_pub alice "laptop" "sess-1"
             (registration_of "challenge-0" 0)
             (authentication_of "challenge-2" 0 key_1)
             (World.at_time 301001 (challenged_world 0))).
    right. eexists _, 301000. split; [|split].
    + vm_compute. reflexivity.
    + reflexivity.
    + reflexivity.
Defined.

(** ** Authenticating with an unknown credential *)

(** C5, as the code has it: when the challenge is live and no row carries the
    response's credential id, [verifyAuthentication] returns undefined and
    leaves the world as it was (no store written, verifier not consulted).
    That is the very value it returns for a missing challenge, so the two
    failures are not told apart by what is returned. *)
Theorem C5_unknown_credential_returns_undefined
    `{P : Platform} `{V : CredentialVerifier}
    (origin : string) (sessionId : Uuid) (response : AuthenticationResponse.t)
    (options : KvValue) (w : World.t) :
  Keyv.get (authentication_key sessionId) (World.now w) (World.kv w)
    = Some options →
  (∀ p, p ∈ Database.passkeyTable (World.db w) →
        Passkey.id p ≠ AuthenticationResponse.id response) →
  verifyAuthentication origin sessionId response w = (Returned None, w) ∧
  ∀ origin' sessionId' response' w',
    absent_or_expired (authentication_key sessionId') (World.now w')
      (World.kv w') →
    (verifyAuthentication origin' sessionId' response' w').1 =
    (verifyAuthentication origin sessionId response w).1.
Proof.
  intros Hlive Hnone.
  apply passkey_findFirst_None, db_findPasskey_None in Hnone.
  assert (Hrun : verifyAuthentication origin sessionId response w
                 = (Returned None, w)).
  { rewrite verifyAuthentication_eq, Hlive, Hnone. reflexivity. }
  split; [exact Hrun|].
  intros origin' sessionId' response' w' Hgone.
  apply Keyv_get_None in Hgone.
  rewrite (verifyAuthentication_missing _ _ _ _ Hgone), Hrun. reflexivity.
Qed.

Lemma C5_unknown_credential_returns_undefined_witness :
  verifyAuthentication hackers_pub "sess-1" (stranger_response "challenge-2")
    (challenged_world 0) = (Returned None, challenged_world 0).
Proof.
  apply (C5_unknown_credential_returns_undefined (P := reference_platform)
           (V := reference_verifier) hackers_pub "sess-1"
           (stranger_response "challenge-2")
           (StoredRequest (RequestOptions.mk "challenge-2" "hackers.pub" []))
           (challenged_world 0)).
  - vm_compute. reflexivity.
  - apply passkey_findFirst_None. reflexivity.
Defined.

(** C5, as claimed, fails: in the scenario the session [sess-1] has a live
    challenge and the response names [cred-9], which is in no row, while
    [sess-2] has no challenge at all; the two calls return the same value,
    so an unknown credential is not reported apart from a missing challenge. *)
Lemma C5_unknown_credential_not_distinct :
  Keyv.get (authentication_key "sess-1") (World.now (challenged_world 0))
    (World.kv (challenged_world 0)) ≠ None ∧
  passkey_findFirst "cred-9"
    (Database.passkeyTable (World.db (challenged_world 0))) = None ∧
  Keyv.get (authentication_key "sess-2") (World.now (challenged_world 0))
    (World.kv (challenged_world 0)) = None ∧
  (verifyAuthentication hackers_pub "sess-1" (stranger_response "challenge-2")
     (challenged_world 0)).1 =
  (verifyAuthentication hackers_pub "sess-2" (stranger_response "challenge-2")
     (challenged_world 0)).1.
Proof.
  split; [|split; [|split]].
  - vm_compute. discriminate.
  - reflexivity.
  - vm_compute. reflexivity.
  - vm_compute. reflexivity.
Qed.

(** ** Failure of the verifier *)

(** C3: whenever a call consults the verifier and the verifier reports
    failure (it throws, or returns an unverified verdict), the call leaves
    the database and the challenge store as they were: [verifyRegistration]
    inserts no row and [verifyAuthentication] changes no counter and no
    last-used time. *)
Theorem C3_verifier_failure_mutates_nothing
    `{P : Platform} `{V : CredentialVerifier}
    (origin : string) (account : Account.t) (name : string)
    (sessionId : Uuid) (registration : RegistrationResponse.t)
    (authentication : AuthenticationResponse.t) (w : World.t) :
  (∀ a,
     World.log (verifyRegistration origin account name registration w).2
       = (World.log w ++ [ConsultedRegistrationVerifier a])%list →
     reports_failure VerifiedRegistration.verified
       (verifyRegistrationResponse a) →
     World.db (verifyRegistration origin account name registration w).2
       = World.db w ∧
     World.kv (verifyRegistration origin account name registration w).2
       = World.kv w) ∧
  (∀ a,
     World.log (verifyAuthentication origin sessionId authentication w).2
       = (World.log w ++ [ConsultedAuthenticationVerifier a])%list →
     reports_failure VerifiedAuthentication.verified
       (verifyAuthenticationResponse a) →
     World.db (verifyAuthentication origin sessionId authentication w).2
       = World.db w ∧
     World.kv (verifyAuthentication origin sessionId authentication w).2
       = World.kv w).
Proof.
  assert (Hlog : ∀ (l : list Event) (e : Event), l ≠ (l ++ [e])%list).
  { intros l e Heq. apply (f_equal length) in Heq.
    rewrite length_app in Heq. simpl in Heq. lia. }
  split; intros a.
  - rewrite verifyRegistration_eq.
    destruct (Keyv.get _ _ _) as [options|];
      [|intros Hl; destruct (Hlog _ _ Hl)].
    destruct (URL_parse origin) as [url|];
      [|intros Hl; destruct (Hlog _ _ Hl)].
    cbv zeta.
    destruct (verifyRegistrationResponse (registration_args _ _ _))
      as [r|e] eqn:Hv.
    + intros Hl Hfail.
      assert (Ha : a = registration_args registration options url).
      { destruct (VerifiedRegistration.verified r);
          [destruct (VerifiedRegistration.registrationInfo r);
             [destruct (stored_user options);
                [destruct (db_insertPasskey _ _)|]|]|];
          simpl in Hl; apply app_inj_tail in Hl; destruct Hl as [_ Hl];
          congruence. }
      subst a. rewrite Hv in Hfail. simpl in Hfail. rewrite Hfail.
      split; reflexivity.
    + intros _ _. split; reflexivity.
  - rewrite verifyAuthentication_eq.
    destruct (Keyv.get _ _ _) as [options|];
      [|intros Hl; destruct (Hlog _ _ Hl)].
    destruct (db_findPasskey _ _) as [passkey|];
      [|intros Hl; destruct (Hlog _ _ Hl)].
    destruct (URL_parse origin) as [url|];
      [|intros Hl; destruct (Hlog _ _ Hl)].
    cbv zeta.
    destruct (verifyAuthenticationResponse (authentication_args _ _ _ _))
      as [r|e] eqn:Hv.
    + intros Hl Hfail.
      assert (Ha : a = authentication_args authentication options url
                         (PasskeyWithAccount.passkey passkey)).
      { destruct (VerifiedAuthentication.verified r);
          simpl in Hl; apply app_inj_tail in Hl; destruct Hl as [_ Hl];
          congruence. }
      subst a. rewrite Hv in Hfail. simpl in Hfail. rewrite Hfail.
      split; reflexivity.
    + intros _ _. split; reflexivity.
Qed.

Lemma C3_verifier_failure_mutates_nothing_witness :
  World.db (verifyAuthentication hackers_pub "sess-1"
              (authentication_of "challenge-2" 1 key_2) (challenged_world 0)).2
    = World.db (challenged_world 0) ∧
  World.db (verifyRegistration hackers_pub alice "laptop"
              (registration_of "stale" 0) (pending_world None)).2
    = World.db (pending_world None).
Proof.
  split.
  - edestruct (C3_verifier_failure_mutates_nothing (P := reference_platform)
                 (V := reference_verifier) hackers_pub alice "laptop" "sess-1"
                 (registration_of "stale" 0)
                 (authentication_of "challenge-2" 1 key_2) (challenged_world 0))
      as [_ Hauth].
    edestruct Hauth as [Hdb _];
      [vm_compute; reflexivity | vm_compute; reflexivity | exact Hdb].
  - edestruct (C3_verifier_failure_mutates_nothing (P := reference_platform)
                 (V := reference_verifier) hackers_pub alice "laptop" "sess-1"
                 (registration_of "stale" 0)
                 (authentication_of "challenge-2" 1 key_2) (pending_world None))
      as [Hreg _].
    edestruct Hreg as [Hdb _];
      [vm_compute; reflexivity | vm_compute; exact I | exact Hdb].
Defined.

(** ** The UPDATE of a successful authentication *)

Lemma db_updateCounter_lookup cid c now db (i : nat) :
  Database.passkeyTable (db_updateCounter cid c now db) !! i =
  (λ p, if String.eqb (Passkey.id p) cid
        then Passkey.set_counter_lastUsed c (Some now) p else p)
    <$> Database.passkeyTable db !! i.
Proof.
  unfold db_updateCounter. simpl.
  generalize (Database.passkeyTable db) i.
  intros rows. induction rows as [|q rows IH]; intros [|j]; simpl;
    try reflexivity.
  apply IH.
Qed.

(** C10: whatever the outcome of [verifyAuthentication], the account table is
    untouched, the passkey table keeps its length and order, every row keeps
    its id, owner, public key, name, user handle, device type, backed-up flag,
    transports and creation time, and a row whose id is not the response's
    credential id is unchanged altogether. Only the counter and the last-used
    time of the matched row can differ. *)
Theorem C10_update_touches_counter_and_lastUsed_only
    `{P : Platform} `{V : CredentialVerifier}
    (origin : string) (sessionId : Uuid) (response : AuthenticationResponse.t)
    (w : World.t) :
  let db' := World.db (verifyAuthentication origin sessionId response w).2 in
  Database.accountTable db' = Database.accountTable (World.db w) ∧
  length (Database.passkeyTable db')
    = length (Database.passkeyTable (World.db w)) ∧
  ∀ (i : nat) (p : Passkey.t),
    Database.passkeyTable (World.db w) !! i = Some p →
    ∃ p',
      Database.passkeyTable db' !! i = Some p' ∧
      Passkey.id p' = Passkey.id p ∧
      Passkey.accountId p' = Passkey.accountId p ∧
      Passkey.publicKey p' = Passkey.publicKey p ∧
      Passkey.name p' = Passkey.name p ∧
      Passkey.webauthnUserId p' = Passkey.webauthnUserId p ∧
      Passkey.deviceType p' = Passkey.deviceType p ∧
      Passkey.backedUp p' = Passkey.backedUp p ∧
      Passkey.transports p' = Passkey.transports p ∧
      Passkey.created p' = Passkey.created p ∧
      (Passkey.id p ≠ AuthenticationResponse.id response → p' = p) ∧
      (∀ r, (verifyAuthentication origin sessionId response w).1
              = Returned (Some r) →
            VerifiedAuthentication.verified (AuthenticationResult.response r)
              = true →
            Passkey.id p = AuthenticationResponse.id response →
            Passkey.counter p' =
              AuthenticationInfo.newCounter
                (VerifiedAuthentication.authenticationInfo
                   (AuthenticationResult.response r)) ∧
            Passkey.lastUsed p' = Some (World.now w)).
Proof.
  intros db'. subst db'.
  rewrite verifyAuthentication_eq.
  destruct (Keyv.get _ _ _) as [options|];
    [|split; [reflexivity|]; split; [reflexivity|]; intros i p Hp; exists p;
      repeat split; auto; discriminate].
  destruct (db_findPasskey _ _) as [passkey|];
    [|split; [reflexivity|]; split; [reflexivity|]; intros i p Hp; exists p;
      repeat split; auto; discriminate].
  destruct (URL_parse origin) as [url|];
    [|split; [reflexivity|]; split; [reflexivity|]; intros i p Hp; exists p;
      repeat split; auto; discriminate].
  cbv zeta.
  destruct (verifyAuthenticationResponse _) as [result|e];
    [|split; [reflexivity|]; split; [reflexivity|]; intros i p Hp; exists p;
      repeat split; auto; discriminate].
  destruct (VerifiedAuthentication.verified result) eqn:Hverified.
  - split; [reflexivity|]. split.
    + unfold db_updateCounter. simpl. apply length_map.
    + intros i p Hp. cbn [fst snd World.db World.with_db].
      rewrite db_updateCounter_lookup, Hp. simpl.
      destruct (String.eqb (Passkey.id p) (AuthenticationResponse.id response))
        eqn:E.
      * eexists. split; [reflexivity|]. simpl. repeat split; auto.
        -- intros Hne. apply String.eqb_eq in E. contradiction.
        -- match goal with
           | Hret : _ = Returned (Some _) |- _ => injection Hret as <-
           end. reflexivity.
      * exists p. repeat split; auto;
          apply String.eqb_neq in E; contradiction.
  - split; [reflexivity|]. split; [reflexivity|].
    intros i p Hp. exists p. repeat split; auto;
      match goal with
      | Hret : _ = Returned (Some _) |- _ => injection Hret as <-
      end; simpl in *; congruence.
Qed.

Lemma C10_update_touches_counter_and_lastUsed_only_witness :
  ∃ p',
    Database.passkeyTable
      (World.db (verifyAuthentication hackers_pub "sess-1"
                   (authentication_of "challenge-2" 6 key_1)
                   (challenged_world 5)).2) !! 0%nat = Some p' ∧
    Passkey.publicKey p' = key_1 ∧
    Passkey.counter p' = 6 ∧
    Passkey.lastUsed p' = Some 1000.
Proof.
  destruct (C10_update_touches_counter_and_lastUsed_only
              (P := reference_platform) (V := reference_verifier)
              hackers_pub "sess-1" (authentication_of "challenge-2" 6 key_1)
              (challenged_world 5)) as (_ & _ & Hrows).
  destruct (Hrows 0%nat
              (Passkey.mk "cred-1" "alice-uuid" "laptop" key_1 "user-1" 5
                 multiDevice true (Some [internal; hybrid]) None 1000)
              eq_refl)
    as (p' & Hp' & _ & _ & Hkey & _ & _ & _ & _ & _ & _ & _ & Hset).
  exists p'. split; [exact Hp'|]. split; [exact Hkey|].
  edestruct Hset as [Hc Hl]; [vm_compute; reflexivity | reflexivity
                             | reflexivity | ].
  split; [exact Hc | exact Hl].
Defined.

(** ** The signature counter *)

Section Counter.
Context `{P : Platform} `{V : CredentialVerifier}.
Variables (origin : string) (url : URL.t) (sessionId : Uuid).
Variables (response : AuthenticationResponse.t) (options : KvValue).
Variables (row : Passkey.t) (w : World.t).
Hypothesis Hcontract : CounterContract V.
Hypothesis Hlive :
  Keyv.get (authentication_key sessionId) (World.now w) (World.kv w)
    = Some options.
Hypothesis Hrow :
  passkey_findFirst (AuthenticationResponse.id response)
    (Database.passkeyTable (World.db w)) = Some row.
Hypothesis Hurl : URL_parse origin = Some url.
Hypothesis Hvalid :
  otherwise_valid V (authentication_args response options url row).

(** A counter that breaks the rule: the verifier's refusal is passed on and
    the database is as before. *)
Lemma verifyAuthentication_regression :
  counter_rule (Passkey.counter row) (AuthenticationResponse.counter response)
    = false →
  (∃ message,
     (verifyAuthentication origin sessionId response w).1
       = Threw (VerifierError PossibleCloneDetected message)) ∧
  World.db (verifyAuthentication origin sessionId response w).2 = World.db w.
Proof.
  intros Hrule. rewrite verifyAuthentication_eq, Hlive.
  unfold db_findPasskey. rewrite Hrow, Hurl. cbv zeta. simpl.
  destruct (contract_regression V Hcontract
              (authentication_args response options url row) Hvalid Hrule)
    as [message ->].
  split; [exists message|]; reflexivity.
Qed.

(** A counter that passes the rule: the call returns a verified result and
    the stored counter is the reported one. *)
Lemma verifyAuthentication_advance :
  counter_rule (Passkey.counter row) (AuthenticationResponse.counter response)
    = true →
  (∃ r,
     (verifyAuthentication origin sessionId response w).1 = Returned (Some r) ∧
     VerifiedAuthentication.verified (AuthenticationResult.response r) = true) ∧
  Passkey.counter
    <$> passkey_findFirst (AuthenticationResponse.id response)
          (Database.passkeyTable
             (World.db (verifyAuthentication origin sessionId response w).2))
    = Some (AuthenticationResponse.counter response).
Proof.
  intros Hrule. rewrite verifyAuthentication_eq, Hlive.
  unfold db_findPasskey. rewrite Hrow, Hurl. cbv zeta. simpl.
  destruct (Hvalid (Passkey.counter row) Hrule) as (r & Hr & Hverified).
  change (VerifyAuthenticationArgs.with_counter (Passkey.counter row)
            (authentication_args response options url row))
    with (authentication_args response options url row) in Hr.
  rewrite Hr, Hverified. simpl. split.
  - eexists. split; [reflexivity | exact Hverified].
  - rewrite passkey_findFirst_update, Hrow. simpl.
    rewrite (contract_newCounter V Hcontract _ _ Hr). reflexivity.
Qed.

End Counter.

(** C2: on a live challenge and a stored credential, with a verifier that
    keeps the counter contract and a response with nothing wrong apart,
    possibly, from its counter: stored 5 and reported 6 returns a verified
    result and leaves 6 stored; stored 5 and reported 5 or less throws
    [PossibleCloneDetected] and leaves the database as it was, 5 still
    stored; stored 0 and reported 0 returns a verified result, 0 still
    stored. *)
Theorem C2_counter_monotonicity `{P : Platform} `{V : CredentialVerifier}
    (origin : string) (url : URL.t) (sessionId : Uuid)
    (response : AuthenticationResponse.t) (options : KvValue)
    (row : Passkey.t) (w : World.t) :
  CounterContract V →
  Keyv.get (authentication_key sessionId) (World.now w) (World.kv w)
    = Some options →
  passkey_findFirst (AuthenticationResponse.id response)
    (Database.passkeyTable (World.db w)) = Some row →
  URL_parse origin = Some url →
  otherwise_valid V (authentication_args response options url row) →
  let c := Passkey.counter row in
  let n := AuthenticationResponse.counter response in
  let out := verifyAuthentication origin sessionId response w in
  let stored' :=
    Passkey.counter
      <$> passkey_findFirst (AuthenticationResponse.id response)
            (Database.passkeyTable (World.db out.2)) in
  (c = 5 → n = 6 →
   (∃ r, out.1 = Returned (Some r) ∧
         VerifiedAuthentication.verified (AuthenticationResult.response r)
           = true) ∧
   stored' = Some 6) ∧
  (c = 5 → n ≤ 5 →
   (∃ message, out.1 = Threw (VerifierError PossibleCloneDetected message)) ∧
   World.db out.2 = World.db w ∧
   stored' = Some 5) ∧
  (c = 0 → n = 0 →
   (∃ r, out.1 = Returned (Some r) ∧
         VerifiedAuthentication.verified (AuthenticationResult.response r)
           = true) ∧
   stored' = Some 0).
Proof.
  intros Hcontract Hlive Hrow Hurl Hvalid c n out stored'.
  subst c n out stored'.
  split; [|split].
  - intros Hc Hn.
    destruct (verifyAuthentication_advance origin url sessionId response
                options row w Hcontract Hlive Hrow Hurl Hvalid)
      as [Hret Hstored]; [rewrite Hc, Hn; reflexivity |].
    split; [exact Hret|]. rewrite Hstored, Hn. reflexivity.
  - intros Hc Hn.
    destruct (verifyAuthentication_regression origin url sessionId response
                options row w Hcontract Hlive Hrow Hurl Hvalid)
      as [Hthrow Hdb].
    { rewrite Hc. unfold counter_rule.
      destruct (Z.ltb_spec 5 (AuthenticationResponse.counter response));
        [lia|reflexivity]. }
    split; [exact Hthrow|]. split; [exact Hdb|].
    rewrite Hdb, Hrow. simpl. rewrite Hc. reflexivity.
  - intros Hc Hn.
    destruct (verifyAuthentication_advance origin url sessionId response
                options row w Hcontract Hlive Hrow Hurl Hvalid)
      as [Hret Hstored]; [rewrite Hc, Hn; reflexivity |].
    split; [exact Hret|]. rewrite Hstored, Hn. reflexivity.
Qed.

(** The reference verifier keeps the counter contract. *)
Lemma reference_verifier_contract : CounterContract reference_verifier.
Proof.
  split.
  - intros a Hvalid Hrule.
    destruct (Hvalid
                (AuthenticationResponse.counter
                   (VerifyAuthenticationArgs.response a) - 1))
      as (r & Hr & _).
    { unfold counter_rule.
      destruct (Z.ltb_spec
                  (AuthenticationResponse.counter
                     (VerifyAuthenticationArgs.response a) - 1)
                  (AuthenticationResponse.counter
                     (VerifyAuthenticationArgs.response a))); [reflexivity|lia]. }
    revert Hr. simpl. unfold reference_verifyAuthenticationResponse. simpl.
    rewrite Hrule. simpl.
    repeat match goal with
           | |- context [if negb ?b then _ else _] => destruct b; simpl
           end; try discriminate.
    intros _. eexists. reflexivity.
  - intros a r. simpl. unfold reference_verifyAuthenticationResponse.
    repeat match goal with
           | |- context [if negb ?b then _ else _] => destruct b; simpl
           end; try discriminate.
    intros [= <-]. reflexivity.
Qed.

(** The responses of the scenario are otherwise valid for the reference
    verifier. *)
Lemma scenario_otherwise_valid counter stored :
  otherwise_valid reference_verifier
    (authentication_args (authentication_of "challenge-2" counter key_1)
       (StoredRequest (RequestOptions.mk "challenge-2" "hackers.pub" []))
       (URL.mk hackers_pub "hackers.pub")
       (Passkey.mk "cred-1" "alice-uuid" "laptop" key_1 "user-1" stored
          multiDevice true (Some [internal; hybrid]) None 1000)).
Proof.
  intros c Hc. simpl. unfold reference_verifyAuthenticationResponse. simpl.
  simpl in Hc. rewrite Hc. simpl. eexists. split; reflexivity.
Qed.

Lemma C2_counter_monotonicity_witness :
  ((∃ r,
      (verifyAuthentication hackers_pub "sess-1"
         (authentication_of "challenge-2" 6 key_1) (challenged_world 5)).1
        = Returned (Some r) ∧
      VerifiedAuthentication.verified (AuthenticationResult.response r) = true) ∧
   Passkey.counter
     <$> passkey_findFirst "cred-1"
           (Database.passkeyTable
              (World.db (verifyAuthentication hackers_pub "sess-1"
                           (authentication_of "challenge-2" 6 key_1)
                           (challenged_world 5)).2)) = Some 6) ∧
  (∃ message,
     (verifyAuthentication hackers_pub "sess-1"
        (authentication_of "challenge-2" 5 key_1) (challenged_world 5)).1
       = Threw (VerifierError PossibleCloneDetected message)) ∧
  (∃ r,
     (verifyAuthentication hackers_pub "sess-1"
        (authentication_of "challenge-2" 0 key_1) (challenged_world 0)).1
       = Returned (Some r) ∧
     VerifiedAuthentication.verified (AuthenticationResult.response r) = true).
Proof.
  split; [|split].
  - apply (C2_counter_monotonicity (P := reference_platform)
             (V := reference_verifier) hackers_pub
             (URL.mk hackers_pub "hackers.pub") "sess-1"
             (authentication_of "challenge-2" 6 key_1)
             (StoredRequest (RequestOptions.mk "challenge-2" "hackers.pub" []))
             (Passkey.mk "cred-1" "alice-uuid" "laptop" key_1 "user-1" 5
                multiDevice true (Some [internal; hybrid]) None 1000)
             (challenged_world 5)).
    + exact reference_verifier_contract.
    + vm_compute. reflexivity.
    + reflexivity.
    + reflexivity.
    + apply scenario_otherwise_valid.
    + reflexivity.
    + reflexivity.
  - apply (C2_counter_monotonicity (P := reference_platform)
             (V := reference_verifier) hackers_pub
             (URL.mk hackers_pub "hackers.pub") "sess-1"
             (authentication_of "challenge-2" 5 key_1)
             (StoredRequest (RequestOptions.mk "challenge-2" "hackers.pub" []))
             (Passkey.mk "cred-1" "alice-uuid" "laptop" key_1 "user-1" 5
                multiDevice true (Some [internal; hybrid]) None 1000)
             (challenged_world 5)).
    + exact reference_verifier_contract.
    + vm_compute. reflexivity.
    + reflexivity.
    + reflexivity.
    + apply scenario_otherwise_valid.
    + reflexivity.
    + simpl. lia.
  - apply (C2_counter_monotonicity (P := reference_platform)
             (V := reference_verifier) hackers_pub
             (URL.mk hackers_pub "hackers.pub") "sess-1"
             (authentication_of "challenge-2" 0 key_1)
             (StoredRequest (RequestOptions.mk "challenge-2" "hackers.pub" []))
             (Passkey.mk "cred-1" "alice-uuid" "laptop" key_1 "user-1" 0
                multiDevice true (Some [internal; hybrid]) None 1000)
             (challenged_world 0)).
    + exact reference_verifier_contract.
    + vm_compute. reflexivity.
    + reflexivity.
    + reflexivity.
    + apply scenario_otherwise_valid.
    + reflexivity.
    + reflexivity.
Defined.

(** ** The exclusion list and the new row *)

(** A registration that returns a verified verdict with its information has
    inserted exactly one row, built from that information, under an id that
    no row carried before. *)
Lemma verifyRegistration_success `{P : Platform} `{V : CredentialVerifier}
    origin account name response w r info :
  (verifyRegistration origin account name response w).1 = Returned r →
  VerifiedRegistration.verified r = true →
  VerifiedRegistration.registrationInfo r = Some info →
  ∃ user,
    passkey_findFirst
      (WebAuthnCredential.id (RegistrationInfo.credential info))
      (Database.passkeyTable (World.db w)) = None ∧
    World.db (verifyRegistration origin account name response w).2 =
    Database.mk
      (Database.passkeyTable (World.db w)
         ++ [new_passkey account name info user (World.now w)])
      (Database.accountTable (World.db w)).
Proof.
  rewrite verifyRegistration_eq.
  destruct (Keyv.get _ _ _) as [options|]; [|discriminate].
  destruct (URL_parse origin) as [url|]; [|discriminate].
  cbv zeta.
  destruct (verifyRegistrationResponse _) as [result|e]; [|discriminate].
  destruct (VerifiedRegistration.verified result) eqn:Hverified;
    [|simpl; intros [= <-]; congruence].
  destruct (VerifiedRegistration.registrationInfo result) as [info'|] eqn:Hinfo;
    [|simpl; intros [= <-]; congruence].
  destruct (stored_user options) as [user|]; [|discriminate].
  unfold db_insertPasskey.
  destruct (passkey_findFirst _ _) eqn:Hfind; [discriminate|].
  simpl. intros [= <-] _ Hinfo'.
  assert (info' = info) as -> by congruence.
  exists user. split; [exact Hfind | reflexivity].
Qed.

(** C7: the registration options issued for an account list, as excluded
    credentials, exactly the ids and transports of the passkeys of that
    account, in order (none when it has none). A later registration that
    returns a verified verdict has inserted a row whose id is carried by no
    row stored before, hence, when the account's passkeys are stored rows, by
    no entry of that exclusion list. *)
Theorem C7_exclusion_list `{P : Platform} `{V : CredentialVerifier}
    (origin : string) (url : URL.t) (account : AccountWithPasskeys.t)
    (w : World.t) :
  URL_parse origin = Some url →
  ∃ options,
    (getRegistrationOptions origin account w).1 = Returned options ∧
    CreationOptions.excludeCredentials options =
      map (λ p, Descriptor.mk (Passkey.id p) (Passkey.transports p))
          (AccountWithPasskeys.passkeys account) ∧
    (AccountWithPasskeys.passkeys account = [] →
     CreationOptions.excludeCredentials options = []) ∧
    ∀ name response w1 r info,
      (∀ p, p ∈ AccountWithPasskeys.passkeys account →
            p ∈ Database.passkeyTable (World.db w1)) →
      (verifyRegistration origin (AccountWithPasskeys.account account) name
         response w1).1 = Returned r →
      VerifiedRegistration.verified r = true →
      VerifiedRegistration.registrationInfo r = Some info →
      let cid := WebAuthnCredential.id (RegistrationInfo.credential info) in
      (∀ p, p ∈ Database.passkeyTable (World.db w1) → Passkey.id p ≠ cid) ∧
      (∀ d, d ∈ CreationOptions.excludeCredentials options →
            Descriptor.id d ≠ cid) ∧
      ∃ row,
        Database.passkeyTable
          (World.db (verifyRegistration origin
                       (AccountWithPasskeys.account account) name response
                       w1).2)
          = (Database.passkeyTable (World.db w1) ++ [row])%list ∧
        Passkey.id row = cid ∧
        Passkey.accountId row
          = Account.id (AccountWithPasskeys.account account).
Proof.
  intros Hurl. rewrite getRegistrationOptions_eq, Hurl. cbv zeta.
  eexists. split; [reflexivity|]. split; [reflexivity|]. split.
  - simpl. intros ->. reflexivity.
  - intros name response w1 r info Hstored Hret Hverified Hinfo.
    destruct (verifyRegistration_success _ _ _ _ _ _ _ Hret Hverified Hinfo)
      as (user & Hfresh & Hdb).
    pose proof (proj1 (passkey_findFirst_None _ _) Hfresh) as Hnew.
    split; [exact Hnew|]. split.
    + simpl. intros d Hd.
      apply list_elem_of_In, in_map_iff in Hd.
      destruct Hd as (p & <- & Hp). simpl.
      apply Hnew, Hstored, list_elem_of_In, Hp.
    + rewrite Hdb. simpl. eexists. split; [reflexivity|].
      split; reflexivity.
Qed.

Lemma C7_exclusion_list_witness :
  ∃ options,
    (getRegistrationOptions hackers_pub
       (AccountWithPasskeys.mk alice
          (Database.passkeyTable (World.db (registered_world 0))))
       (registered_world 0)).1 = Returned options ∧
    CreationOptions.excludeCredentials options =
      [Descriptor.mk "cred-1" (Some [internal; hybrid])].
Proof.
  destruct (C7_exclusion_list (P := reference_platform)
              (V := reference_verifier) hackers_pub
              (URL.mk hackers_pub "hackers.pub")
              (AccountWithPasskeys.mk alice
                 (Database.passkeyTable (World.db (registered_world 0))))
              (registered_world 0) eq_refl)
    as (options & Hret & Hexcl & _).
  exists options. split; [exact Hret | exact Hexcl].
Defined.

(** ** What the returned values carry *)

(** C8, as the code has it: [verifyRegistration] returns the verifier's
    result as it is: whatever it returns is what the verifier returned for
    the stored challenge, and what the verifier returns is returned (after
    the insert, when there is one). On success that result carries the
    public key, the same bytes as stored in the new row. Every record
    returned by [verifyAuthentication] is made of the verifier's result,
    verified or not, and the passkey row as read, public key included. A
    submission stopped at the challenge lookup or at the credential lookup
    ends in a value fixed by the account id alone (the missing-options
    error) or in undefined, which carry no stored challenge and no key. *)
Theorem C8_what_results_carry `{P : Platform} `{V : CredentialVerifier}
    (origin : string) (account : Account.t) (name : string)
    (sessionId : Uuid) (registration : RegistrationResponse.t)
    (authentication : AuthenticationResponse.t) (w : World.t) :
  let reg := verifyRegistration origin account name registration w in
  let auth := verifyAuthentication origin sessionId authentication w in
  (∀ r,
     reg.1 = Returned r →
     ∃ options url,
       Keyv.get (registration_key (Account.id account)) (World.now w)
         (World.kv w) = Some options ∧
       URL_parse origin = Some url ∧
       verifyRegistrationResponse (registration_args registration options url)
         = Returned r) ∧
  (∀ options url r,
     Keyv.get (registration_key (Account.id account)) (World.now w)
       (World.kv w) = Some options →
     URL_parse origin = Some url →
     verifyRegistrationResponse (registration_args registration options url)
       = Returned r →
     (VerifiedRegistration.verified r = false
      ∨ VerifiedRegistration.registrationInfo r = None →
      reg.1 = Returned r) ∧
     (∀ info user,
        VerifiedRegistration.verified r = true →
        VerifiedRegistration.registrationInfo r = Some info →
        stored_user options = Some user →
        passkey_findFirst
          (WebAuthnCredential.id (RegistrationInfo.credential info))
          (Database.passkeyTable (World.db w)) = None →
        reg.1 = Returned r)) ∧
  (∀ r info,
     reg.1 = Returned r →
     VerifiedRegistration.verified r = true →
     VerifiedRegistration.registrationInfo r = Some info →
     ∃ row,
       passkey_findFirst
         (WebAuthnCredential.id (RegistrationInfo.credential info))
         (Database.passkeyTable (World.db reg.2)) = Some row ∧
       Passkey.publicKey row
         = WebAuthnCredential.publicKey (RegistrationInfo.credential info)) ∧
  (∀ r,
     auth.1 = Returned (Some r) →
     passkey_findFirst (AuthenticationResponse.id authentication)
       (Database.passkeyTable (World.db w))
       = Some (PasskeyWithAccount.passkey (AuthenticationResult.passkey r)) ∧
     ∃ options url,
       Keyv.get (authentication_key sessionId) (World.now w) (World.kv w)
         = Some options ∧
       URL_parse origin = Some url ∧
       db_findPasskey (AuthenticationResponse.id authentication) (World.db w)
         = Some (AuthenticationResult.passkey r) ∧
       verifyAuthenticationResponse
         (authentication_args authentication options url
            (PasskeyWithAccount.passkey (AuthenticationResult.passkey r)))
         = Returned (AuthenticationResult.response r)) ∧
  (∀ options url passkey result,
     Keyv.get (authentication_key sessionId) (World.now w) (World.kv w)
       = Some options →
     db_findPasskey (AuthenticationResponse.id authentication) (World.db w)
       = Some passkey →
     URL_parse origin = Some url →
     verifyAuthenticationResponse
       (authentication_args authentication options url
          (PasskeyWithAccount.passkey passkey)) = Returned result →
     auth.1 = Returned (Some (AuthenticationResult.mk result
                                (PasskeyWithAccount.account passkey) passkey))) ∧
  (absent_or_expired (registration_key (Account.id account)) (World.now w)
     (World.kv w) →
   reg.1 = Threw (Error_MissingRegistrationOptions (Account.id account))) ∧
  (absent_or_expired (authentication_key sessionId) (World.now w) (World.kv w)
   ∨ passkey_findFirst (AuthenticationResponse.id authentication)
       (Database.passkeyTable (World.db w)) = None →
   auth.1 = Returned None).
Proof.
  cbv zeta. split; [|split; [|split; [|split; [|split; [|split]]]]].
  - intros r. rewrite verifyRegistration_eq.
    destruct (Keyv.get _ _ _) as [options|]; [|discriminate].
    destruct (URL_parse origin) as [url|]; [|discriminate].
    cbv zeta.
    destruct (verifyRegistrationResponse _) as [result|e] eqn:Hverdict;
      [|discriminate].
    intros Hret. exists options, url.
    split; [reflexivity|]. split; [reflexivity|].
    rewrite Hverdict. f_equal.
    destruct (VerifiedRegistration.verified result);
      [|simpl in Hret; congruence].
    destruct (VerifiedRegistration.registrationInfo result);
      [|simpl in Hret; congruence].
    destruct (stored_user options); [|discriminate].
    destruct (db_insertPasskey _ _); [|discriminate].
    simpl in Hret. congruence.
  - intros options url r Hget Hurl Hverdict.
    rewrite verifyRegistration_eq, Hget, Hurl. cbv zeta. rewrite Hverdict.
    split.
    + intros [Hno | Hno]; rewrite Hno; [reflexivity|].
      destruct (VerifiedRegistration.verified r); reflexivity.
    + intros info user Hverified Hinfo Huser Hfresh.
      rewrite Hverified, Hinfo, Huser. unfold db_insertPasskey.
      change (Passkey.id (new_passkey account name info user (World.now w)))
        with (WebAuthnCredential.id (RegistrationInfo.credential info)).
      rewrite Hfresh. reflexivity.
  - intros r info Hret Hverified Hinfo.
    destruct (verifyRegistration_success _ _ _ _ _ _ _ Hret Hverified Hinfo)
      as (user & Hfresh & ->).
    simpl. exists (new_passkey account name info user (World.now w)).
    split; [|reflexivity].
    revert Hfresh. generalize (Database.passkeyTable (World.db w)).
    intros rows. induction rows as [|q rows IH]; simpl.
    + intros _. rewrite String.eqb_refl. reflexivity.
    + destruct (String.eqb (Passkey.id q) _); [discriminate | exact IH].
  - intros r. rewrite verifyAuthentication_eq.
    destruct (Keyv.get _ _ _) as [options|]; [|discriminate].
    destruct (db_findPasskey _ _) as [passkey|] eqn:Hfind; [|discriminate].
    destruct (URL_parse origin) as [url|]; [|discriminate].
    cbv zeta.
    destruct (verifyAuthenticationResponse _) as [result|e] eqn:Hverdict;
      [|discriminate].
    simpl. intros [= <-]. simpl. split.
    + unfold db_findPasskey in Hfind.
      destruct (passkey_findFirst _ _) as [row|]; [|discriminate].
      injection Hfind as <-. reflexivity.
    + exists options, url. repeat split. exact Hverdict.
  - intros options url passkey result Hget Hfind Hurl Hverdict.
    rewrite verifyAuthentication_eq, Hget, Hfind, Hurl. cbv zeta.
    rewrite Hverdict. reflexivity.
  - intros Hgone. apply Keyv_get_None in Hgone.
    rewrite (verifyRegistration_missing _ _ _ _ _ Hgone). reflexivity.
  - intros [Hgone | Hunknown].
    + apply Keyv_get_None in Hgone.
      rewrite (verifyAuthentication_missing _ _ _ _ Hgone). reflexivity.
    + rewrite verifyAuthentication_eq.
      apply db_findPasskey_None in Hunknown. rewrite Hunknown.
      destruct (Keyv.get _ _ _); reflexivity.
Qed.

Lemma C8_what_results_carry_witness :
  (∃ r row,
     (verifyRegistration hackers_pub alice " laptop "
        (registration_of "challenge-0" 0) (pending_world None)).1 = Returned r ∧
     reference_verifyRegistrationResponse
       (VerifyRegistrationArgs.mk (registration_of "challenge-0" 0)
          "challenge-0" hackers_pub "hackers.pub") = Returned r ∧
     passkey_findFirst "cred-1"
       (Database.passkeyTable (World.db (registered_world 0))) = Some row ∧
     Passkey.publicKey row = key_1) ∧
  (verifyRegistration hackers_pub alice " laptop "
     (registration_of "challenge-0" 0) (empty_world None 1000)).1
    = Threw (Error_MissingRegistrationOptions "alice-uuid").
Proof.
  destruct (C8_what_results_carry (P := reference_platform)
              (V := reference_verifier) hackers_pub alice " laptop " "sess-1"
              (registration_of "challenge-0" 0)
              (authentication_of "challenge-2" 0 key_1) (pending_world None))
    as (Hfrom & Hto & Hkey & _).
  destruct (C8_what_results_carry (P := reference_platform)
              (V := reference_verifier) hackers_pub alice " laptop " "sess-1"
              (registration_of "challenge-0" 0)
              (authentication_of "challenge-2" 0 key_1) (empty_world None 1000))
    as (_ & _ & _ & _ & _ & Hmissing & _).
  split.
  - edestruct Hto as (_ & Hret);
      [vm_compute; reflexivity | reflexivity | vm_compute; reflexivity |].
    specialize (Hret _ _ eq_refl eq_refl eq_refl eq_refl).
    edestruct Hkey as (row & Hrow & Hpk);
      [exact Hret | reflexivity | reflexivity |].
    eexists _, row. split; [exact Hret|].
    split; [vm_compute; reflexivity|]. split; [exact Hrow | exact Hpk].
  - apply Hmissing. left. reflexivity.
Defined.

(** C8, as claimed, fails: the value returned by the successful registration
    of the scenario holds the public key [key_1], the key stored in the new
    row; and the authentication whose signature does not verify (a failure:
    [verified] is false) returns a record holding the stored row with that
    same public key. *)
Lemma C8_results_expose_public_key :
  (∃ r info row,
     (verifyRegistration hackers_pub alice " laptop "
        (registration_of "challenge-0" 0) (pending_world None)).1 = Returned r ∧
     VerifiedRegistration.verified r = true ∧
     VerifiedRegistration.registrationInfo r = Some info ∧
     passkey_findFirst "cred-1"
       (Database.passkeyTable (World.db (registered_world 0))) = Some row ∧
     WebAuthnCredential.publicKey (RegistrationInfo.credential info) = key_1 ∧
     Passkey.publicKey row = key_1) ∧
  (∃ r row,
     (verifyAuthentication hackers_pub "sess-1"
        (authentication_of "challenge-2" 1 key_2) (challenged_world 0)).1
       = Returned (Some r) ∧
     VerifiedAuthentication.verified (AuthenticationResult.response r) = false ∧
     passkey_findFirst "cred-1"
       (Database.passkeyTable (World.db (challenged_world 0))) = Some row ∧
     Passkey.publicKey
       (PasskeyWithAccount.passkey (AuthenticationResult.passkey r)) = key_1 ∧
     Passkey.publicKey row = key_1).
Proof.
  split.
  - do 3 eexists. vm_compute. repeat split; reflexivity.
  - do 2 eexists. vm_compute. repeat split; reflexivity.
Qed.

(** ** Submitting a response twice *)





(** * Further properties of models/passkey.ts *)

Lemma Keyv_get_set_ne key key' v explicit now t kv :
  key ≠ key' →
  Keyv.get key' t (Keyv.set key v explicit now kv) = Keyv.get key' t kv.
Proof.
  intros Hne. unfold Keyv.get, Keyv.set. simpl.
  rewrite lookup_insert_ne by exact Hne. reflexivity.
Qed.

Lemma registration_key_inj a b :
  registration_key a = registration_key b → a = b.
Proof.
  unfold registration_key, KV_NAMESPACE. cbv [String.append]. congruence.
Qed.

Lemma authentication_key_inj a b :
  authentication_key a = authentication_key b → a = b.
Proof.
  unfold authentication_key, KV_NAMESPACE. cbv [String.append]. congruence.
Qed.

Lemma registration_key_not_authentication_key a s :
  registration_key a ≠ authentication_key s.
Proof.
  unfold registration_key, authentication_key, KV_NAMESPACE.
  cbv [String.append]. congruence.
Qed.

(** X1: Issuing options for one subject writes one key only: whatever the
    outcome, issuing authentication options to a session leaves the entry of
    every registration ceremony and of every other session as it reads at
    any time, and issuing registration options to an account leaves the
    entry of every authentication ceremony and of every other account so. *)
Theorem issuing_options_keeps_other_challenges `{P : Platform}
    (origin : string) (account : AccountWithPasskeys.t) (sessionId : Uuid)
    (w : World.t) (t : Z) :
  let after_auth := World.kv (getAuthenticationOptions origin sessionId w).2 in
  let after_reg := World.kv (getRegistrationOptions origin account w).2 in
  (∀ a, Keyv.get (registration_key a) t after_auth
        = Keyv.get (registration_key a) t (World.kv w)) ∧
  (∀ s, s ≠ sessionId →
        Keyv.get (authentication_key s) t after_auth
        = Keyv.get (authentication_key s) t (World.kv w)) ∧
  (∀ s, Keyv.get (authentication_key s) t after_reg
        = Keyv.get (authentication_key s) t (World.kv w)) ∧
  (∀ a, a ≠ Account.id (AccountWithPasskeys.account account) →
        Keyv.get (registration_key a) t after_reg
        = Keyv.get (registration_key a) t (World.kv w)).
Proof.
  cbv zeta. rewrite getAuthenticationOptions_eq, getRegistrationOptions_eq.
  destruct (URL_parse origin) as [url|]; simpl;
    [|repeat split; reflexivity].
  repeat split.
  - intros a. apply Keyv_get_set_ne.
    intros Heq. symmetry in Heq.
    exact (registration_key_not_authentication_key _ _ Heq).
  - intros s Hs. apply Keyv_get_set_ne.
    intros Heq. apply authentication_key_inj in Heq. congruence.
  - intros s. apply Keyv_get_set_ne.
    apply registration_key_not_authentication_key.
  - intros a Ha. apply Keyv_get_set_ne.
    intros Heq. apply registration_key_inj in Heq. congruence.
Qed.

Lemma issuing_options_keeps_other_challenges_witness :
  Keyv.get (registration_key "alice-uuid") 2000
    (World.kv (getAuthenticationOptions hackers_pub "alice-uuid"
                 (pending_world None)).2)
  = Keyv.get (registration_key "alice-uuid") 2000
      (World.kv (pending_world None)).
Proof.
  pose proof (issuing_options_keeps_other_challenges
                (P := reference_platform) hackers_pub
                (AccountWithPasskeys.mk alice []) "alice-uuid"
                (pending_world None) 2000) as H.
  cbv zeta in H. destruct H as (H & _). exact (H "alice-uuid").
Defined.

(** X2: An origin that is not a URL: the two issuing functions throw the
    [TypeError] of [new URL] and leave the world as it was (nothing stored,
    no challenge drawn); so do the two verifying functions once the challenge
    (and, for authentication, the credential) has been found, before the
    verifier is consulted. *)
Theorem invalid_origin_throws_before_any_effect
    `{P : Platform} `{V : CredentialVerifier}
    (origin : string) (account : AccountWithPasskeys.t) (name : string)
    (sessionId : Uuid) (registration : RegistrationResponse.t)
    (authentication : AuthenticationResponse.t) (w : World.t) :
  URL_parse origin = None →
  getRegistrationOptions origin account w
    = (Threw (TypeError_InvalidURL origin), w) ∧
  getAuthenticationOptions origin sessionId w
    = (Threw (TypeError_InvalidURL origin), w) ∧
  (Keyv.get (registration_key (Account.id (AccountWithPasskeys.account account)))
     (World.now w) (World.kv w) ≠ None →
   verifyRegistration origin (AccountWithPasskeys.account account) name
     registration w = (Threw (TypeError_InvalidURL origin), w)) ∧
  (Keyv.get (authentication_key sessionId) (World.now w) (World.kv w) ≠ None →
   passkey_findFirst (AuthenticationResponse.id authentication)
     (Database.passkeyTable (World.db w)) ≠ None →
   verifyAuthentication origin sessionId authentication w
     = (Threw (TypeError_InvalidURL origin), w)).
Proof.
  intros Hurl.
  rewrite getRegistrationOptions_eq, getAuthenticationOptions_eq,
    verifyRegistration_eq, verifyAuthentication_eq, Hurl.
  split; [reflexivity|]. split; [reflexivity|]. split.
  - destruct (Keyv.get _ _ _); [reflexivity | congruence].
  - destruct (Keyv.get _ _ _); [|congruence]. intros _.
    unfold db_findPasskey.
    destruct (passkey_findFirst _ _); [reflexivity | congruence].
Qed.

Lemma invalid_origin_throws_before_any_effect_witness :
  getAuthenticationOptions "hackers.pub" "sess-1" (registered_world 0)
    = (Threw (TypeError_InvalidURL "hackers.pub"), registered_world 0) ∧
  verifyAuthentication "hackers.pub" "sess-1"
    (authentication_of "challenge-2" 0 key_1) (challenged_world 0)
    = (Threw (TypeError_InvalidURL "hackers.pub"), challenged_world 0).
Proof.
  split.
  - destruct (invalid_origin_throws_before_any_effect
                (P := reference_platform) (V := reference_verifier)
                "hackers.pub" (AccountWithPasskeys.mk alice []) "laptop"
                "sess-1" (registration_of "challenge-0" 0)
                (authentication_of "challenge-2" 0 key_1) (registered_world 0)
                eq_refl) as (_ & H & _).
    exact H.
  - destruct (invalid_origin_throws_before_any_effect
                (P := reference_platform) (V := reference_verifier)
                "hackers.pub" (AccountWithPasskeys.mk alice []) "laptop"
                "sess-1" (registration_of "challenge-0" 0)
                (authentication_of "challenge-2" 0 key_1) (challenged_world 0)
                eq_refl) as (_ & _ & _ & H).
    apply H.
    + vm_compute. discriminate.
    + vm_compute. discriminate.
Defined.

(** X3: Issuing options never writes the database and never consults the
    verifier; verifying never writes the challenge store, never draws
    randomness and inserts at most one row, after the rows that were there. *)
Theorem ceremonies_frame `{P : Platform} `{V : CredentialVerifier}
    (origin : string) (account : AccountWithPasskeys.t) (name : string)
    (sessionId : Uuid) (registration : RegistrationResponse.t)
    (authentication : AuthenticationResponse.t) (w : World.t) :
  let issued_reg := (getRegistrationOptions origin account w).2 in
  let issued_auth := (getAuthenticationOptions origin sessionId w).2 in
  let verified_reg :=
    (verifyRegistration origin (AccountWithPasskeys.account account) name
       registration w).2 in
  let verified_auth :=
    (verifyAuthentication origin sessionId authentication w).2 in
  (World.db issued_reg = World.db w ∧ World.log issued_reg = World.log w) ∧
  (World.db issued_auth = World.db w ∧ World.log issued_auth = World.log w) ∧
  (World.kv verified_reg = World.kv w ∧ World.rng verified_reg = World.rng w ∧
   Database.accountTable (World.db verified_reg)
     = Database.accountTable (World.db w) ∧
   ∃ added,
     Database.passkeyTable (World.db verified_reg)
       = (Database.passkeyTable (World.db w) ++ added)%list ∧
     (length added ≤ 1)%nat) ∧
  (World.kv verified_auth = World.kv w ∧ World.rng verified_auth = World.rng w).
Proof.
  cbv zeta.
  rewrite getRegistrationOptions_eq, getAuthenticationOptions_eq,
    verifyRegistration_eq, verifyAuthentication_eq.
  split; [|split; [|split]].
  - destruct (URL_parse origin); split; reflexivity.
  - destruct (URL_parse origin); split; reflexivity.
  - assert (Hnil : ∀ rows : list Passkey.t,
              ∃ added, rows = (rows ++ added)%list ∧ (length added ≤ 1)%nat).
    { intros rows. exists []. rewrite app_nil_r. split; [reflexivity|].
      simpl. lia. }
    destruct (Keyv.get _ _ _) as [options|]; [|repeat split; apply Hnil].
    destruct (URL_parse origin) as [url|]; [|repeat split; apply Hnil].
    cbv zeta.
    destruct (verifyRegistrationResponse _) as [r|e];
      [|repeat split; apply Hnil].
    destruct (VerifiedRegistration.verified r); [|repeat split; apply Hnil].
    destruct (VerifiedRegistration.registrationInfo r) as [info|];
      [|repeat split; apply Hnil].
    destruct (stored_user options) as [user|]; [|repeat split; apply Hnil].
    unfold db_insertPasskey.
    destruct (passkey_findFirst _ _); [repeat split; apply Hnil|].
    simpl. repeat split. eexists. split; [reflexivity|]. simpl. lia.
  - destruct (Keyv.get _ _ _); [|split; reflexivity].
    destruct (db_findPasskey _ _); [|split; reflexivity].
    destruct (URL_parse origin); [|split; reflexivity].
    cbv zeta.
    destruct (verifyAuthenticationResponse _) as [r|e]; [|split; reflexivity].
    destruct (VerifiedAuthentication.verified r); split; reflexivity.
Qed.

(** X4: Register, then look up. When registration options are issued at the
    time of [w] and a response that the verifier accepts against those
    options comes back at a time [t] at which the entry has not expired, for
    a credential id that no row carries, then the call returns the verdict
    and the lookup by that id finds the new row: the verdict's credential,
    the account's id, the trimmed name, the user handle of the issued
    options, no last use, created at [t], joined with the owner's account
    row. The name is ASCII text, on which [trim] is what
    [String.prototype.trim] does. *)
Theorem register_then_find `{P : Platform} `{V : CredentialVerifier}
    (origin : string) (url : URL.t) (account : AccountWithPasskeys.t)
    (name : string) (response : RegistrationResponse.t)
    (info : RegistrationInfo.t) (w : World.t) (t : Z) :
  let owner := AccountWithPasskeys.account account in
  let credential := RegistrationInfo.credential info in
  let issued := getRegistrationOptions origin account w in
  is_ascii_text name →
  URL_parse origin = Some url →
  (∀ d, Keyv.effective_ttl None (World.kv w) = Some d → t ≤ World.now w + d) →
  (∀ options,
     issued.1 = Returned options →
     verifyRegistrationResponse
       (registration_args response (StoredCreation options) url)
       = Returned (VerifiedRegistration.mk true (Some info))) →
  passkey_findFirst (WebAuthnCredential.id credential)
    (Database.passkeyTable (World.db w)) = None →
  ∃ options,
    issued.1 = Returned options ∧
    let out := verifyRegistration origin owner name response
                 (World.at_time t issued.2) in
    out.1 = Returned (VerifiedRegistration.mk true (Some info)) ∧
    db_findPasskey (WebAuthnCredential.id credential) (World.db out.2) =
      Some (PasskeyWithAccount.mk
              (Passkey.mk
                 (WebAuthnCredential.id credential)
                 (Account.id owner)
                 (trim name)
                 (WebAuthnCredential.publicKey credential)
                 (UserEntity.id (CreationOptions.user options))
                 (WebAuthnCredential.counter credential)
                 (RegistrationInfo.credentialDeviceType info)
                 (RegistrationInfo.credentialBackedUp info)
                 (WebAuthnCredential.transports credential)
                 None t)
              (account_findFirst (Account.id owner)
                 (Database.accountTable (World.db w)))).
Proof.
  cbv zeta. intros _ Hurl Hlive Haccept Hfresh.
  rewrite getRegistrationOptions_eq, Hurl in *. cbv zeta in *. simpl in *.
  eexists. split; [reflexivity|].
  specialize (Haccept _ eq_refl).
  rewrite verifyRegistration_eq. simpl.
  rewrite Keyv_get_set_eq.
  assert (Hget :
    match Keyv.effective_ttl None (World.kv w) with
    | Some d => if World.now w + d <? t then None else Some (StoredCreation
        (CreationOptions.mk (randomChallenge (World.rng w))
           (RpEntity.mk RP_NAME (URL.hostname url))
           (UserEntity.mk (randomUserId (S (World.rng w)))
              (Account.username (AccountWithPasskeys.account account)) "")
           "none"
           (map (λ passkey,
                   Descriptor.mk (Passkey.id passkey)
                     (Passkey.transports passkey))
                (AccountWithPasskeys.passkeys account))))
    | None => Some (StoredCreation
        (CreationOptions.mk (randomChallenge (World.rng w))
           (RpEntity.mk RP_NAME (URL.hostname url))
           (UserEntity.mk (randomUserId (S (World.rng w)))
              (Account.username (AccountWithPasskeys.account account)) "")
           "none"
           (map (λ passkey,
                   Descriptor.mk (Passkey.id passkey)
                     (Passkey.transports passkey))
                (AccountWithPasskeys.passkeys account))))
    end = Some (StoredCreation
        (CreationOptions.mk (randomChallenge (World.rng w))
           (RpEntity.mk RP_NAME (URL.hostname url))
           (UserEntity.mk (randomUserId (S (World.rng w)))
              (Account.username (AccountWithPasskeys.account account)) "")
           "none"
           (map (λ passkey,
                   Descriptor.mk (Passkey.id passkey)
                     (Passkey.transports passkey))
                (AccountWithPasskeys.passkeys account))))).
  { destruct (Keyv.effective_ttl None (World.kv w)) as [d|]; [|reflexivity].
    specialize (Hlive d eq_refl).
    destruct (Z.ltb_spec (World.now w + d) t); [lia | reflexivity]. }
  rewrite Hget, Hurl. cbv zeta. rewrite Haccept. simpl.
  unfold db_insertPasskey, new_passkey. simpl. rewrite Hfresh. simpl.
  split; [reflexivity|].
  unfold db_findPasskey. simpl.
  assert (Hfound : ∀ rows (p : Passkey.t),
            passkey_findFirst (Passkey.id p) rows = None →
            passkey_findFirst (Passkey.id p) (rows ++ [p]) = Some p).
  { intros rows p. induction rows as [|q rows IH]; simpl.
    - intros _. rewrite String.eqb_refl. reflexivity.
    - destruct (String.eqb (Passkey.id q) (Passkey.id p));
        [discriminate | exact IH]. }
  rewrite (Hfound _ (Passkey.mk _ _ _ _ _ _ _ _ _ _ _) Hfresh). reflexivity.
Qed.

Lemma register_then_find_witness :
  ∃ found,
    db_findPasskey "cred-1"
      (World.db (verifyRegistration hackers_pub alice " laptop "
                   (registration_of "challenge-0" 0)
                   (World.at_time 5000
                      (getRegistrationOptions hackers_pub
                         (AccountWithPasskeys.mk alice [])
                         (empty_world (Some 600000) 1000)).2)).2)
      = Some found ∧
    Passkey.name (PasskeyWithAccount.passkey found) = "laptop" ∧
    Passkey.created (PasskeyWithAccount.passkey found) = 5000 ∧
    PasskeyWithAccount.account found = Some alice.
Proof.
  pose proof (register_then_find (P := reference_platform)
                (V := reference_verifier) hackers_pub
                (URL.mk hackers_pub "hackers.pub")
                (AccountWithPasskeys.mk alice []) " laptop "
                (registration_of "challenge-0" 0)
                (RegistrationInfo.mk
                   (WebAuthnCredential.mk "cred-1" key_1 0
                      (Some [internal; hybrid]))
                   multiDevice true)
                (empty_world (Some 600000) 1000) 5000) as H.
  cbv zeta in H.
  destruct H as (options & _ & _ & Hfind).
  - unfold is_ascii_text. simpl. repeat constructor.
  - reflexivity.
  - intros d [= <-]. simpl. lia.
  - intros options [= <-]. reflexivity.
  - reflexivity.
  - eexists. split; [exact Hfind|]. repeat split.
Defined.

(** X5: Registering a credential id that is already stored: with a live
    challenge and a verdict of the verifier that is verified and names an id
    carried by a stored row, the call throws the unique-key error of the
    insert; the verifier was consulted once, and neither the database nor
    the challenge store changed. *)
Theorem registering_stored_credential_is_refused
    `{P : Platform} `{V : CredentialVerifier}
    (origin : string) (url : URL.t) (account : Account.t) (name : string)
    (response : RegistrationResponse.t) (options : CreationOptions.t)
    (info : RegistrationInfo.t) (existing : Passkey.t) (w : World.t) :
  Keyv.get (registration_key (Account.id account)) (World.now w) (World.kv w)
    = Some (StoredCreation options) →
  URL_parse origin = Some url →
  verifyRegistrationResponse
    (registration_args response (StoredCreation options) url)
    = Returned (VerifiedRegistration.mk true (Some info)) →
  passkey_findFirst (WebAuthnCredential.id (RegistrationInfo.credential info))
    (Database.passkeyTable (World.db w)) = Some existing →
  let out := verifyRegistration origin account name response w in
  out.1 = Threw (DbError_UniqueViolation
                   (WebAuthnCredential.id (RegistrationInfo.credential info))) ∧
  World.db out.2 = World.db w ∧
  World.kv out.2 = World.kv w ∧
  World.log out.2 =
    (World.log w ++
     [ConsultedRegistrationVerifier
        (registration_args response (StoredCreation options) url)])%list.
Proof.
  intros Hlive Hurl Hverdict Hstored. cbv zeta.
  rewrite verifyRegistration_eq, Hlive, Hurl. cbv zeta.
  rewrite Hverdict. simpl.
  unfold db_insertPasskey, new_passkey. simpl. rewrite Hstored.
  repeat split.
Qed.

Lemma registering_stored_credential_is_refused_witness :
  (verifyRegistration hackers_pub alice "phone"
     (registration_of "challenge-0" 7) (registered_world 0)).1
  = Threw (DbError_UniqueViolation "cred-1").
Proof.
  apply (registering_stored_credential_is_refused (P := reference_platform)
           (V := reference_verifier) hackers_pub
           (URL.mk hackers_pub "hackers.pub") alice "phone"
           (registration_of "challenge-0" 7)
           (CreationOptions.mk "challenge-0"
              (RpEntity.mk "Hackers' Pub" "hackers.pub")
              (UserEntity.mk "user-1" "alice" "") "none" [])
           (RegistrationInfo.mk
              (WebAuthnCredential.mk "cred-1" key_1 7 (Some [internal; hybrid]))
              multiDevice true)
           (Passkey.mk "cred-1" "alice-uuid" "laptop" key_1 "user-1" 0
              multiDevice true (Some [internal; hybrid]) None 1000)
           (registered_world 0)).
  - vm_compute. reflexivity.
  - reflexivity.
  - reflexivity.
  - reflexivity.
Defined.

Lemma account_findFirst_id aid rows a :
  account_findFirst aid rows = Some a → Account.id a = aid.
Proof.
  induction rows as [|q rows IH]; simpl; [discriminate|].
  destruct (String.eqb (Account.id q) aid) eqn:E.
  - intros [= <-]. apply String.eqb_eq. exact E.
  - exact IH.
Qed.

(** X6: What the verifier is asked. After authentication options are issued to
    a session, a response for that session arriving no later than five
    minutes afterwards and naming a stored credential makes the call consult
    the verifier exactly once, with the challenge and relying-party
    identifier of the options just issued, the origin as [new URL] reports
    it, and the id named by the response together with the stored public
    key, counter and transports of the row. *)
Theorem verifier_is_asked_about_the_issued_challenge
    `{P : Platform} `{V : CredentialVerifier}
    (origin : string) (url : URL.t) (sessionId : Uuid)
    (response : AuthenticationResponse.t) (row : Passkey.t)
    (w : World.t) (t : Z) :
  let issued := getAuthenticationOptions origin sessionId w in
  URL_parse origin = Some url →
  t ≤ World.now w + 5 * 60 * 1000 →
  passkey_findFirst (AuthenticationResponse.id response)
    (Database.passkeyTable (World.db w)) = Some row →
  ∃ options,
    issued.1 = Returned options ∧
    World.log (verifyAuthentication origin sessionId response
                 (World.at_time t issued.2)).2 =
    (World.log w ++
     [ConsultedAuthenticationVerifier
        (VerifyAuthenticationArgs.mk response
           (RequestOptions.challenge options)
           (URL.origin url)
           (RequestOptions.rpId options)
           (WebAuthnCredential.mk (AuthenticationResponse.id response)
              (Passkey.publicKey row) (Passkey.counter row)
              (Passkey.transports row)))])%list.
Proof.
  cbv zeta. intros Hurl Hearly Hrow.
  pose proof (getAuthenticationOptions_get origin url sessionId w t Hurl)
    as Hget.
  rewrite getAuthenticationOptions_eq, Hurl in *. cbv zeta in *. simpl in *.
  eexists. split; [reflexivity|].
  rewrite verifyAuthentication_eq. simpl. rewrite Hget.
  change AUTHENTICATION_TTL with (5 * 60 * 1000).
  destruct (Z.ltb_spec (World.now w + 5 * 60 * 1000) t); [lia|].
  unfold db_findPasskey. rewrite Hrow, Hurl. cbv zeta.
  unfold authentication_args. simpl.
  destruct (verifyAuthenticationResponse _) as [r|e]; [|reflexivity].
  destruct (VerifiedAuthentication.verified r); reflexivity.
Qed.

Lemma verifier_is_asked_about_the_issued_challenge_witness :
  ∃ a,
    World.log (verifyAuthentication hackers_pub "sess-1"
                 (authentication_of "challenge-2" 6 key_1)
                 (World.at_time 200000 (challenged_world 5))).2
      = [ConsultedRegistrationVerifier
           (VerifyRegistrationArgs.mk (registration_of "challenge-0" 5)
              "challenge-0" hackers_pub "hackers.pub");
         ConsultedAuthenticationVerifier a] ∧
    VerifyAuthenticationArgs.expectedChallenge a = "challenge-2" ∧
    WebAuthnCredential.counter (VerifyAuthenticationArgs.credential a) = 5.
Proof.
  destruct (verifier_is_asked_about_the_issued_challenge
              (P := reference_platform) (V := reference_verifier)
              hackers_pub (URL.mk hackers_pub "hackers.pub") "sess-1"
              (authentication_of "challenge-2" 6 key_1)
              (Passkey.mk "cred-1" "alice-uuid" "laptop" key_1 "user-1" 5
                 multiDevice true (Some [internal; hybrid]) None 1000)
              (registered_world 5) 200000)
    as (options & Hissued & Hlog).
  - reflexivity.
  - vm_compute. discriminate.
  - reflexivity.
  - injection Hissued as <-. eexists. split; [exact Hlog|].
    split; reflexivity.
Defined.

(** X7: Who is authenticated. Whenever [verifyAuthentication] returns a record,
    its account is the one joined to the passkey it returns, and it is the
    first row of the account table whose id is the owner id of that passkey
    (null when there is none): the call resolves to the owner of the
    credential and to no other account. *)
Theorem authentication_resolves_to_the_owner
    `{P : Platform} `{V : CredentialVerifier}
    (origin : string) (sessionId : Uuid) (response : AuthenticationResponse.t)
    (w : World.t) (r : AuthenticationResult.t) :
  (verifyAuthentication origin sessionId response w).1 = Returned (Some r) →
  let passkey := PasskeyWithAccount.passkey (AuthenticationResult.passkey r) in
  Passkey.id passkey = AuthenticationResponse.id response ∧
  AuthenticationResult.account r
    = PasskeyWithAccount.account (AuthenticationResult.passkey r) ∧
  AuthenticationResult.account r
    = account_findFirst (Passkey.accountId passkey)
        (Database.accountTable (World.db w)) ∧
  ∀ a, AuthenticationResult.account r = Some a →
       Account.id a = Passkey.accountId passkey.
Proof.
  rewrite verifyAuthentication_eq.
  destruct (Keyv.get _ _ _) as [options|]; [|discriminate].
  unfold db_findPasskey.
  destruct (passkey_findFirst _ _) as [row|] eqn:Hrow; [|discriminate].
  destruct (URL_parse origin) as [url|]; [|discriminate].
  cbv zeta. destruct (verifyAuthenticationResponse _) as [verdict|e];
    [|discriminate].
  simpl. intros [= <-]. simpl.
  assert (Hid : Passkey.id row = AuthenticationResponse.id response).
  { revert Hrow. generalize (Database.passkeyTable (World.db w)).
    intros rows. induction rows as [|q rows IH]; simpl; [discriminate|].
    destruct (String.eqb (Passkey.id q) _) eqn:E; [|exact IH].
    intros [= <-]. apply String.eqb_eq. exact E. }
  repeat split; try assumption.
  intros owner Howner. exact (account_findFirst_id _ _ _ Howner).
Qed.

Lemma authentication_resolves_to_the_owner_witness :
  ∃ r,
    (verifyAuthentication hackers_pub "sess-1"
       (authentication_of "challenge-2" 6 key_1) (challenged_world 5)).1
      = Returned (Some r) ∧
    AuthenticationResult.account r = Some alice.
Proof.
  eexists. split; [vm_compute; reflexivity|].
  destruct (authentication_resolves_to_the_owner (P := reference_platform)
              (V := reference_verifier) hackers_pub "sess-1"
              (authentication_of "challenge-2" 6 key_1) (challenged_world 5)
              _ eq_refl) as (_ & _ & Hacc & _).
  exact Hacc.
Defined.

(** * Properties of the locale module *)

Lemma isLocale_In value : isLocale value = true ↔ In value POSSIBLE_LOCALES.
Proof.
  unfold isLocale. rewrite existsb_exists. split.
  - intros (l & Hl & Heq). apply String.eqb_eq in Heq. subst. exact Hl.
  - intros Hin. exists value. split; [exact Hin | apply String.eqb_refl].
Qed.

Lemma normalizeLocale_members :
  forallb (λ l, match normalizeLocale l with
                | Some l' => String.eqb l' l
                | None => false
                end) POSSIBLE_LOCALES = true.
Proof. vm_compute. reflexivity. Qed.

(** X8: The values of [normalizeLocale] are exactly the possible locales: what
    it returns is a member of [POSSIBLE_LOCALES], spelled as in that list,
    and every member is returned for itself. Hence normalizing twice is
    normalizing once. *)
Theorem normalizeLocale_range (l : string) :
  ((∃ value, normalizeLocale value = Some l) ↔ isLocale l = true) ∧
  (∀ value, normalizeLocale value = Some l → normalizeLocale l = Some l).
Proof.
  assert (Hsound : ∀ value, normalizeLocale value = Some l → isLocale l = true).
  { intros value. unfold normalizeLocale. cbv zeta.
    match goal with
    | |- (if isLocale ?n then _ else _) = _ → _ =>
        destruct (isLocale n) eqn:E; [|discriminate]
    end.
    intros [= <-]. exact E. }
  assert (Hfix : isLocale l = true → normalizeLocale l = Some l).
  { intros Hl. apply isLocale_In in Hl.
    pose proof normalizeLocale_members as Hall.
    rewrite forallb_forall in Hall. specialize (Hall l Hl).
    destruct (normalizeLocale l) as [l'|]; [|discriminate].
    apply String.eqb_eq in Hall. congruence. }
  split; [split|].
  - intros [value Hv]. exact (Hsound value Hv).
  - intros Hl. exists l. exact (Hfix Hl).
  - intros value Hv. exact (Hfix (Hsound value Hv)).
Qed.

Lemma normalizeLocale_range_witness : normalizeLocale "en-US" = Some "en-US".
Proof.
  destruct (normalizeLocale_range "en-US") as [_ Hidem].
  apply (Hidem "EN_us"). reflexivity.
Defined.

Lemma toLowerCase_char_idem c :
  toLowerCase_char (toLowerCase_char c) = toLowerCase_char c.
Proof. destruct c as [[] [] [] [] [] [] [] []]; reflexivity. Qed.

Lemma toLowerCase_toUpperCase_char c :
  toLowerCase_char (toUpperCase_char c) = toLowerCase_char c.
Proof. destruct c as [[] [] [] [] [] [] [] []]; reflexivity. Qed.

Lemma map_chars_map_chars f g s :
  map_chars f (map_chars g s) = map_chars (λ c, f (g c)) s.
Proof. induction s as [|c s IH]; simpl; [reflexivity|]. rewrite IH. reflexivity. Qed.

Lemma map_chars_ext f g s :
  (∀ c, f c = g c) → map_chars f s = map_chars g s.
Proof.
  intros Hfg. induction s as [|c s IH]; simpl; [reflexivity|].
  rewrite Hfg, IH. reflexivity.
Qed.

(** The form [normalizeLocale] computes first. *)
Lemma normalizeLocale_by_form value value' :
  replaceAll "_" "-" (toLowerCase value)
    = replaceAll "_" "-" (toLowerCase value') →
  normalizeLocale value = normalizeLocale value'.
Proof. unfold normalizeLocale. intros ->. reflexivity. Qed.

(** X9: On ASCII text [normalizeLocale] does not tell letter case apart, nor an
    underscore from a hyphen: upper-casing the input, lower-casing it, and
    exchanging the two separators all leave the result as it is. *)
Theorem normalizeLocale_spelling_insensitive (value : string) :
  is_ascii_text value →
  normalizeLocale (toUpperCase value) = normalizeLocale value ∧
  normalizeLocale (toLowerCase value) = normalizeLocale value ∧
  normalizeLocale (replaceAll "-" "_" value) = normalizeLocale value ∧
  normalizeLocale (replaceAll "_" "-" value) = normalizeLocale value.
Proof.
  intros _. unfold toUpperCase, toLowerCase, replaceAll.
  repeat split; apply normalizeLocale_by_form;
    unfold toLowerCase, replaceAll; rewrite !map_chars_map_chars;
    apply map_chars_ext; intros c;
    destruct c as [[] [] [] [] [] [] [] []]; reflexivity.
Qed.

Lemma normalizeLocale_spelling_insensitive_witness :
  normalizeLocale "PT_br" = Some "pt-BR" ∧
  normalizeLocale (toUpperCase "PT_br") = Some "pt-BR".
Proof.
  assert (Hascii : is_ascii_text "PT_br").
  { unfold is_ascii_text. simpl. repeat constructor. }
  destruct (normalizeLocale_spelling_insensitive "PT_br" Hascii) as (Hup & _).
  split; [reflexivity|]. rewrite Hup. reflexivity.
Defined.

(** X10: The script aliases are not resolved: for every spelling of [zh-Hans] and
    of [zh-Hant], in any letter case and with either separator,
    [normalizeLocale] returns undefined, because the replacements [zh-cn]
    and [zh-tw] are compared in lower case with a list that spells them
    [zh-CN] and [zh-TW]. *)
Theorem normalizeLocale_script_aliases_undefined (value : string) :
  replaceAll "_" "-" (toLowerCase value) = "zh-hans" ∨
  replaceAll "_" "-" (toLowerCase value) = "zh-hant" →
  normalizeLocale value = None.
Proof.
  unfold normalizeLocale. intros [-> | ->]; vm_compute; reflexivity.
Qed.

Lemma normalizeLocale_script_aliases_undefined_witness :
  normalizeLocale "zh-Hans" = None ∧ normalizeLocale "ZH_hant" = None.
Proof.
  split; apply normalizeLocale_script_aliases_undefined.
  - left. reflexivity.
  - right. reflexivity.
Defined.

Lemma append_cons c a b : String c a +:+ b = String c (a +:+ b).
Proof. reflexivity. Qed.

Lemma map_chars_app f a b :
  map_chars f (a +:+ b) = map_chars f a +:+ map_chars f b.
Proof.
  induction a as [|c a IH]; [reflexivity|].
  rewrite append_cons. cbn [map_chars]. rewrite append_cons, IH.
  reflexivity.
Qed.

Lemma split_app_sep sep a b :
  includes sep a = false →
  split sep (a +:+ String sep b) = a :: split sep b.
Proof.
  induction a as [|c a IH].
  - intros _. change (EmptyString +:+ String sep b) with (String sep b).
    cbn [split]. rewrite Ascii.eqb_refl. reflexivity.
  - rewrite append_cons. cbn [split includes].
    intros Hno. apply orb_false_iff in Hno. destruct Hno as [Hc Ha].
    rewrite Hc, (IH Ha). reflexivity.
Qed.

Lemma includes_app sep a b :
  includes sep (a +:+ b) = (includes sep a || includes sep b)%bool.
Proof.
  induction a as [|c a IH]; [reflexivity|].
  rewrite append_cons. cbn [includes]. rewrite IH. apply orb_assoc.
Qed.

Lemma includes_normal_form s :
  includes "-" (replaceAll "_" "-" (toLowerCase s))
  = (includes "-" s || includes "_" s)%bool.
Proof.
  unfold replaceAll, toLowerCase. rewrite map_chars_map_chars.
  induction s as [|c s IH]; [reflexivity|].
  cbn [map_chars includes]. rewrite IH.
  destruct c as [[] [] [] [] [] [] [] []]; cbn;
    destruct (includes "-" s), (includes "_" s); reflexivity.
Qed.

(** X11: Subtags after the second are dropped. For a language and a region
    without separators, joined by a hyphen or an underscore and not spelling
    [zh-Hans] or [zh-Hant], appending a separator and anything at all does
    not change the result: [en-US-posix] and [en_us_] normalize as [en-US]
    does. *)
Theorem normalizeLocale_ignores_further_subtags
    (lang region rest : string) (sep1 sep2 : ascii) :
  (sep1 = "-" ∨ sep1 = "_")%char →
  (sep2 = "-" ∨ sep2 = "_")%char →
  (includes "-" lang || includes "_" lang)%bool = false →
  (includes "-" region || includes "_" region)%bool = false →
  let short := lang +:+ String sep1 region in
  replaceAll "_" "-" (toLowerCase short) ≠ "zh-hans" →
  replaceAll "_" "-" (toLowerCase short) ≠ "zh-hant" →
  normalizeLocale (short +:+ String sep2 rest) = normalizeLocale short.
Proof.
  intros Hsep1 Hsep2 Hlang Hregion short Hhans Hhant. subst short.
  set (norm := λ s, replaceAll "_" "-" (toLowerCase s)).
  assert (Happ : ∀ a c b, norm (a +:+ String c b)
                          = norm a +:+ String (if Ascii.eqb (toLowerCase_char c) "_"
                                               then "-"%char
                                               else toLowerCase_char c)
                                        (norm b)).
  { intros a c b. unfold norm, replaceAll, toLowerCase.
    rewrite !map_chars_app. reflexivity. }
  assert (Hs : ∀ c : ascii, (c = "-" ∨ c = "_")%char →
               (if Ascii.eqb (toLowerCase_char c) "_" then "-"%char
                else toLowerCase_char c) = "-"%char).
  { intros c [-> | ->]; reflexivity. }
  assert (HL : includes "-" (norm lang) = false)
    by (unfold norm; rewrite includes_normal_form; exact Hlang).
  assert (HR : includes "-" (norm region) = false)
    by (unfold norm; rewrite includes_normal_form; exact Hregion).
  assert (Hshort : norm (lang +:+ String sep1 region)
                   = norm lang +:+ String "-" (norm region))
    by (rewrite Happ, (Hs _ Hsep1); reflexivity).
  assert (Hlong : norm ((lang +:+ String sep1 region) +:+ String sep2 rest)
                  = norm lang +:+ String "-"
                      (norm region +:+ String "-" (norm rest))).
  { rewrite Happ, (Hs _ Hsep2), Hshort.
    generalize (norm lang). intros a.
    induction a as [|c a IH]; [reflexivity|].
    rewrite !append_cons, IH. reflexivity. }
  assert (Hsplit_short : split "-" (norm lang +:+ String "-" (norm region))
                         = [norm lang; norm region]).
  { rewrite (split_app_sep _ _ _ HL).
    f_equal. clear -HR. generalize dependent (norm region). intros r.
    induction r as [|c r IH]; cbn [split includes]; [reflexivity|].
    intros Hno. apply orb_false_iff in Hno. destruct Hno as [Hc Hr].
    rewrite Hc, (IH Hr). reflexivity. }
  assert (Hsplit_long :
            split "-" (norm lang +:+ String "-"
                         (norm region +:+ String "-" (norm rest)))
            = norm lang :: norm region :: split "-" (norm rest)).
  { rewrite (split_app_sep _ _ _ HL), (split_app_sep _ _ _ HR). reflexivity. }
  assert (Hne : ∀ target,
            split "-" target = [norm lang; norm region] ∨
            length (split "-" target) = 2%nat →
            norm lang +:+ String "-" (norm region +:+ String "-" (norm rest))
              ≠ target).
  { intros target Htarget Heq. rewrite <- Heq, Hsplit_long in Htarget.
    destruct Htarget as [Habs | Habs].
    - injection Habs as Habs.
      destruct (norm rest) as [|c r]; cbn [split] in Habs;
        [discriminate|].
      destruct (Ascii.eqb c "-"); [discriminate|].
      destruct (split "-" r); discriminate.
    - cbn [length] in Habs.
      destruct (norm rest) as [|c r]; cbn [split length] in Habs;
        [discriminate|].
      destruct (Ascii.eqb c "-"); [discriminate|].
      destruct (split "-" r); discriminate. }
  unfold normalizeLocale. fold (norm (lang +:+ String sep1 region)).
  fold (norm ((lang +:+ String sep1 region) +:+ String sep2 rest)).
  change (norm (lang +:+ String sep1 region) ≠ "zh-hans") in Hhans.
  change (norm (lang +:+ String sep1 region) ≠ "zh-hant") in Hhant.
  rewrite Hlong. rewrite Hshort in *.
  destruct (String.eqb_spec (norm lang +:+ String "-" (norm region)) "zh-hans")
    as [E|_]; [contradiction|].
  destruct (String.eqb_spec (norm lang +:+ String "-" (norm region)) "zh-hant")
    as [E|_]; [contradiction|].
  destruct (String.eqb_spec
              (norm lang +:+ String "-"
                 (norm region +:+ String "-" (norm rest))) "zh-hans")
    as [E|_]; [exfalso; revert E; apply Hne; right; reflexivity|].
  destruct (String.eqb_spec
              (norm lang +:+ String "-"
                 (norm region +:+ String "-" (norm rest))) "zh-hant")
    as [E|_]; [exfalso; revert E; apply Hne; right; reflexivity|].
  rewrite !includes_app. cbn [includes]. rewrite !orb_true_r.
  cbn [orb]. rewrite Hsplit_long, Hsplit_short. reflexivity.
Qed.

Lemma normalizeLocale_ignores_further_subtags_witness :
  normalizeLocale "en_us-posix" = Some "en-US".
Proof.
  change (normalizeLocale "en_us-posix")
    with (normalizeLocale (("en" +:+ String "_" "us") +:+ String "-" "posix")).
  rewrite (normalizeLocale_ignores_further_subtags "en" "us" "posix" "_" "-").
  - reflexivity.
  - right. reflexivity.
  - left. reflexivity.
  - reflexivity.
  - reflexivity.
  - vm_compute. discriminate.
  - vm_compute. discriminate.
Defined.

Lemma split_nonempty sep s : split sep s ≠ [].
Proof.
  destruct s as [|c s]; cbn [split]; [discriminate|].
  destruct (Ascii.eqb c sep); [discriminate|].
  destruct (split sep s); discriminate.
Qed.

(** A string is its first piece, or starts with that piece and the
    separator. *)
Lemma first_piece_prefix sep s :
  (startsWith (hd EmptyString (split sep s) +:+ String sep EmptyString) s
   || String.eqb s (hd EmptyString (split sep s)))%bool = true.
Proof.
  induction s as [|c s IH]; [reflexivity|].
  cbn [split]. destruct (Ascii.eqb c sep) eqn:E.
  - apply Ascii.eqb_eq in E. subst c. cbn [hd].
    change (EmptyString +:+ String sep EmptyString) with (String sep EmptyString).
    cbn [startsWith]. rewrite Ascii.eqb_refl. reflexivity.
  - destruct (split sep s) as [|piece pieces] eqn:Hs;
      [destruct (split_nonempty _ _ Hs)|].
    cbn [hd] in *. rewrite append_cons. cbn [startsWith String.eqb].
    rewrite Ascii.eqb_refl. exact IH.
Qed.

Lemma exact_match_sameLanguage locale lang :
  String.eqb (toLowerCase lang) (toLowerCase locale) = true →
  sameLanguage locale lang = true.
Proof.
  intros Heq. apply String.eqb_eq in Heq. unfold sameLanguage.
  rewrite Heq. apply first_piece_prefix.
Qed.

Lemma truthy_Some found l : truthy found = Some l → found = Some l.
Proof. destruct found as [[|c s]|]; simpl; congruence. Qed.

(** X12: On ASCII text (the wanted locale and every available one),
    [findNearestLocale] answers with one of the available locales, in the
    spelling of the list, and with one of the wanted language: in lower case
    it is that language alone or that language followed by a hyphen. It
    answers undefined exactly when the list holds no such locale. *)
Theorem findNearestLocale_sound_and_complete
    (locale : string) (availableLocales : list string) :
  is_ascii_text locale →
  Forall is_ascii_text availableLocales →
  (∀ l, findNearestLocale locale availableLocales = Some l →
        In l availableLocales ∧ sameLanguage locale l = true) ∧
  (findNearestLocale locale availableLocales = None ↔
   ∀ l, In l availableLocales → sameLanguage locale l = false).
Proof.
  intros _ _. unfold findNearestLocale. cbv zeta.
  fold (sameLanguage locale).
  change (λ lang : string,
            (startsWith (hd EmptyString (split "-" (toLowerCase locale)) +:+ "-")
               (toLowerCase lang)
             || String.eqb (toLowerCase lang)
                  (hd EmptyString (split "-" (toLowerCase locale))))%bool)
    with (sameLanguage locale).
  set (exact := List.find _ availableLocales).
  set (base := List.find _ availableLocales).
  assert (Hexact : ∀ l, exact = Some l →
                        In l availableLocales ∧ sameLanguage locale l = true).
  { intros l Hl. apply find_some in Hl. destruct Hl as [Hin Heq].
    split; [exact Hin | apply exact_match_sameLanguage, Heq]. }
  assert (Hbase : ∀ l, base = Some l →
                       In l availableLocales ∧ sameLanguage locale l = true).
  { intros l Hl. apply find_some in Hl. destruct Hl as [Hin Heq].
    split; [exact Hin|]. unfold sameLanguage. rewrite Heq.
    apply orb_true_r. }
  assert (Hfilter : ∀ l, hd_error (List.filter (sameLanguage locale)
                                     availableLocales) = Some l →
                         In l availableLocales ∧ sameLanguage locale l = true).
  { intros l Hl.
    destruct (List.filter (sameLanguage locale) availableLocales)
      as [|x xs] eqn:Hf; [discriminate|].
    injection Hl as ->.
    apply filter_In. rewrite Hf. left. reflexivity. }
  split.
  - intros l.
    destruct (truthy exact) as [e|] eqn:He.
    + intros [= <-]. apply Hexact, truthy_Some, He.
    + destruct (0 <? length _)%nat; [|discriminate].
      destruct (truthy base) as [b|] eqn:Hb.
      * intros [= <-]. apply Hbase, truthy_Some, Hb.
      * apply Hfilter.
  - split.
    + intros Hnone l Hin.
      destruct (sameLanguage locale l) eqn:Hl; [|reflexivity].
      assert (Hmem : In l (List.filter (sameLanguage locale) availableLocales))
        by (apply filter_In; split; assumption).
      destruct (truthy exact); [discriminate|].
      destruct (List.filter (sameLanguage locale) availableLocales)
        as [|x xs]; [destruct Hmem|].
      cbn [length Nat.ltb Nat.leb hd_error] in Hnone.
      destruct (truthy base); discriminate.
    + intros Hall.
      assert (Hempty : List.filter (sameLanguage locale) availableLocales = []).
      { destruct (List.filter (sameLanguage locale) availableLocales)
          as [|x xs] eqn:Hf; [reflexivity|].
        assert (Hx : In x (List.filter (sameLanguage locale) availableLocales))
          by (rewrite Hf; left; reflexivity).
        apply filter_In in Hx. destruct Hx as [Hin Hx].
        rewrite (Hall x Hin) in Hx. discriminate. }
      destruct (truthy exact) as [e|] eqn:He.
      * apply truthy_Some, Hexact in He. destruct He as [Hin He].
        rewrite (Hall e Hin) in He. discriminate.
      * rewrite Hempty. reflexivity.
Qed.

Lemma findNearestLocale_sound_and_complete_witness :
  sameLanguage "zh-CN" "zh-HK" = true ∧
  findNearestLocale "fr" ["en-US"; "ko"; "zh-HK"] = None.
Proof.
  assert (Hlist : Forall is_ascii_text ["en-US"; "ko"; "zh-HK"])
    by (unfold is_ascii_text; simpl; repeat constructor).
  assert (Hzh : is_ascii_text "zh-CN")
    by (unfold is_ascii_text; simpl; repeat constructor).
  assert (Hfr : is_ascii_text "fr")
    by (unfold is_ascii_text; simpl; repeat constructor).
  destruct (findNearestLocale_sound_and_complete "zh-CN"
              ["en-US"; "ko"; "zh-HK"] Hzh Hlist) as [Hsound _].
  destruct (findNearestLocale_sound_and_complete "fr"
              ["en-US"; "ko"; "zh-HK"] Hfr Hlist) as [_ Hcomplete].
  split.
  - apply (Hsound "zh-HK"). reflexivity.
  - apply Hcomplete. intros l [<- | [<- | [<- | []]]]; reflexivity.
Defined.

(** X13: The order of preference of [findNearestLocale], on ASCII text (the
    wanted locale and every available one), among the available
    locales of the wanted language: a locale equal to the wanted one up to
    letter case comes before everything; failing that, the bare language
    comes before its regional variants wherever it stands in the list; and
    only failing both is the first regional variant of the list taken.
    (Empty strings in the list are passed over by the first two.) *)
Theorem findNearestLocale_preference
    (locale : string) (before after : list string) (l : string) :
  l ≠ EmptyString →
  is_ascii_text locale →
  Forall is_ascii_text (before ++ l :: after)%list →
  let base := hd EmptyString (split "-" (toLowerCase locale)) in
  let available := (before ++ l :: after)%list in
  (toLowerCase l = toLowerCase locale →
   (∀ x, In x before → toLowerCase x ≠ toLowerCase locale) →
   findNearestLocale locale available = Some l) ∧
  (toLowerCase l = base →
   (∀ x, In x available → toLowerCase x ≠ toLowerCase locale) →
   (∀ x, In x before → toLowerCase x ≠ base) →
   findNearestLocale locale available = Some l) ∧
  (sameLanguage locale l = true →
   (∀ x, In x available → toLowerCase x ≠ toLowerCase locale) →
   (∀ x, In x available → toLowerCase x ≠ base) →
   (∀ x, In x before → sameLanguage locale x = false) →
   findNearestLocale locale available = Some l).
Proof.
  intros Hl _ _ base available. subst available.
  assert (Hfind_here : ∀ (f : string → bool),
            f l = true → (∀ x, In x before → f x = false) →
            List.find f (before ++ l :: after) = Some l).
  { intros f Hfl Hnot. induction before as [|x xs IH]; cbn [app List.find].
    - rewrite Hfl. reflexivity.
    - rewrite (Hnot x (or_introl eq_refl)).
      apply IH. intros y Hy. apply Hnot. right. exact Hy. }
  assert (Hfind_none : ∀ (f : string → bool) (xs : list string),
            (∀ x, In x xs → f x = false) → List.find f xs = None).
  { intros f xs Hnot. induction xs as [|x xs IH]; cbn [List.find];
      [reflexivity|].
    rewrite (Hnot x (or_introl eq_refl)).
    apply IH. intros y Hy. apply Hnot. right. exact Hy. }
  assert (Htruthy : truthy (Some l) = Some l)
    by (destruct l; [congruence | reflexivity]).
  assert (Hneq : ∀ a b : string, a ≠ b → String.eqb a b = false)
    by (intros a b Hab; apply String.eqb_neq; exact Hab).
  split; [|split].
  - intros Heq Hbefore. unfold findNearestLocale. cbv zeta.
    rewrite Hfind_here.
    + rewrite Htruthy. reflexivity.
    + rewrite Heq. apply String.eqb_refl.
    + intros x Hx. apply Hneq, Hbefore, Hx.
  - intros Heq Hexact Hbefore. unfold findNearestLocale. cbv zeta.
    rewrite (Hfind_none (λ lang, String.eqb (toLowerCase lang)
                                   (toLowerCase locale)))
      by (intros x Hx; apply Hneq, Hexact, Hx).
    cbn [truthy]. fold base.
    rewrite (Hfind_here (λ lang, String.eqb (toLowerCase lang) base)).
    + rewrite Htruthy.
      destruct (0 <? length _)%nat eqn:Hlen; [reflexivity|].
      exfalso. apply Nat.ltb_ge in Hlen.
      assert (Hmem : In l (List.filter
                (λ lang, (startsWith (base +:+ "-") (toLowerCase lang)
                          || String.eqb (toLowerCase lang) base)%bool)
                (before ++ l :: after))).
      { apply filter_In. split.
        - apply in_or_app. right. left. reflexivity.
        - rewrite Heq, String.eqb_refl. apply orb_true_r. }
      destruct (List.filter _ _); [destruct Hmem | cbn [length] in Hlen; lia].
    + rewrite Heq. apply String.eqb_refl.
    + intros x Hx. apply Hneq, Hbefore, Hx.
  - intros Hsame Hexact Hbase Hbefore. unfold findNearestLocale. cbv zeta.
    rewrite (Hfind_none (λ lang, String.eqb (toLowerCase lang)
                                   (toLowerCase locale)))
      by (intros x Hx; apply Hneq, Hexact, Hx).
    cbn [truthy]. fold base.
    rewrite (Hfind_none (λ lang, String.eqb (toLowerCase lang) base))
      by (intros x Hx; apply Hneq, Hbase, Hx).
    cbn [truthy].
    change (λ lang : string,
              (startsWith (base +:+ "-") (toLowerCase lang)
               || String.eqb (toLowerCase lang) base)%bool)
      with (sameLanguage locale).
    assert (Hfilter : ∃ rest,
              List.filter (sameLanguage locale) (before ++ l :: after)
              = l :: rest).
    { clear -Hsame Hbefore. induction before as [|x xs IH];
        cbn [app List.filter].
      - rewrite Hsame. eexists. reflexivity.
      - rewrite (Hbefore x (or_introl eq_refl)).
        apply IH. intros y Hy. apply Hbefore. right. exact Hy. }
    destruct Hfilter as [rest ->]. reflexivity.
Qed.

Lemma findNearestLocale_preference_witness :
  findNearestLocale "zh-CN" ["zh-HK"; "ko"; "zh"; "ZH-cn"] = Some "ZH-cn" ∧
  findNearestLocale "zh-CN" ["zh-HK"; "ko"; "zh"] = Some "zh" ∧
  findNearestLocale "zh-CN" ["en-US"; "ko"; "zh-HK"] = Some "zh-HK".
Proof.
  assert (Hne : ∀ c s, String c s ≠ EmptyString) by discriminate.
  assert (Hzh : is_ascii_text "zh-CN")
    by (unfold is_ascii_text; simpl; repeat constructor).
  assert (Hlist1 : Forall is_ascii_text ["zh-HK"; "ko"; "zh"; "ZH-cn"])
    by (unfold is_ascii_text; simpl; repeat constructor).
  assert (Hlist2 : Forall is_ascii_text ["zh-HK"; "ko"; "zh"])
    by (unfold is_ascii_text; simpl; repeat constructor).
  assert (Hlist3 : Forall is_ascii_text ["en-US"; "ko"; "zh-HK"])
    by (unfold is_ascii_text; simpl; repeat constructor).
  split; [|split].
  - pose proof (findNearestLocale_preference "zh-CN" ["zh-HK"; "ko"; "zh"] []
                  "ZH-cn" (Hne _ _) Hzh Hlist1) as H.
    cbv zeta in H. destruct H as (H & _ & _). apply H.
    + reflexivity.
    + intros x [<- | [<- | [<- | []]]]; vm_compute; discriminate.
  - pose proof (findNearestLocale_preference "zh-CN" ["zh-HK"; "ko"] [] "zh"
                  (Hne _ _) Hzh Hlist2) as H.
    cbv zeta in H. destruct H as (_ & H & _). apply H.
    + reflexivity.
    + intros x [<- | [<- | [<- | []]]]; vm_compute; discriminate.
    + intros x [<- | [<- | []]]; vm_compute; discriminate.
  - pose proof (findNearestLocale_preference "zh-CN" ["en-US"; "ko"] []
                  "zh-HK" (Hne _ _) Hzh Hlist3) as H.
    cbv zeta in H. destruct H as (_ & _ & H). apply H.
    + reflexivity.
    + intros x [<- | [<- | [<- | []]]]; vm_compute; discriminate.
    + intros x [<- | [<- | [<- | []]]]; vm_compute; discriminate.
    + intros x [<- | [<- | []]]; reflexivity.
Defined.

(** ** [negotiateLocale] *)

Section Negotiate.
Context `{I : Intl}.

Lemma find_with_maximized (p : IntlLocale.t → bool) (avs : list IntlLocale.t) :
  List.find (λ a : IntlLocale.t * IntlLocale.t, p a.2)
    (map (λ raw, (raw, maximize raw)) avs)
  = (λ raw, (raw, maximize raw)) <$> List.find (λ raw, p (maximize raw)) avs.
Proof.
  induction avs as [|a avs IH]; cbn [map List.find]; [reflexivity|].
  cbn [snd]. destruct (p (maximize a)); [reflexivity | exact IH].
Qed.

(** The three passes, read on the available locales as given. *)
Lemma matchWanted_eq (wanted : IntlLocale.t) (avs : list IntlLocale.t) :
  matchWanted (maximize wanted) (map (λ raw, (raw, maximize raw)) avs) =
  match List.find (sameBaseName wanted) avs with
  | Some a => Some a
  | None =>
    match List.find (sameLanguageAndScript wanted) avs with
    | Some a => Some a
    | None => List.find (sameMaximizedLanguage wanted) avs
    end
  end.
Proof.
  unfold matchWanted.
  rewrite (find_with_maximized
             (λ m, String.eqb (IntlLocale.baseName (maximize wanted))
                     (IntlLocale.baseName m))).
  rewrite (find_with_maximized
             (λ m, (String.eqb (IntlLocale.language (maximize wanted))
                      (IntlLocale.language m)
                    && option_string_eqb (IntlLocale.script (maximize wanted))
                         (IntlLocale.script m))%bool)).
  rewrite (find_with_maximized
             (λ m, String.eqb (IntlLocale.language (maximize wanted))
                     (IntlLocale.language m))).
  change (λ raw, String.eqb (IntlLocale.baseName (maximize wanted))
                   (IntlLocale.baseName (maximize raw)))
    with (sameBaseName wanted).
  change (λ raw, (String.eqb (IntlLocale.language (maximize wanted))
                    (IntlLocale.language (maximize raw))
                  && option_string_eqb (IntlLocale.script (maximize wanted))
                       (IntlLocale.script (maximize raw)))%bool)
    with (sameLanguageAndScript wanted).
  change (λ raw, String.eqb (IntlLocale.language (maximize wanted))
                   (IntlLocale.language (maximize raw)))
    with (sameMaximizedLanguage wanted).
  destruct (List.find (sameBaseName wanted) avs); [reflexivity|].
  destruct (List.find (sameLanguageAndScript wanted) avs); [reflexivity|].
  destruct (List.find (sameMaximizedLanguage wanted) avs); reflexivity.
Qed.

Lemma sameBaseName_language wanted a :
  sameLanguageAndScript wanted a = true → sameMaximizedLanguage wanted a = true.
Proof.
  unfold sameLanguageAndScript, sameMaximizedLanguage.
  intros H. apply andb_true_iff in H. exact (proj1 H).
Qed.

Lemma find_none_iff {A} (f : A → bool) (xs : list A) :
  List.find f xs = None ↔ ∀ x, In x xs → f x = false.
Proof.
  split; [apply find_none|].
  intros Hnot. induction xs as [|x xs IH]; cbn [List.find]; [reflexivity|].
  rewrite (Hnot x (or_introl eq_refl)).
  apply IH. intros y Hy. apply Hnot. right. exact Hy.
Qed.

Lemma matchWanted_None (wanted : IntlLocale.t) (avs : list IntlLocale.t) :
  (∀ a, In a avs → sameBaseName wanted a = true →
        sameMaximizedLanguage wanted a = true) →
  matchWanted (maximize wanted) (map (λ raw, (raw, maximize raw)) avs) = None ↔
  ∀ a, In a avs → sameMaximizedLanguage wanted a = false.
Proof.
  intros Hbase. rewrite matchWanted_eq. split.
  - destruct (List.find (sameBaseName wanted) avs); [discriminate|].
    destruct (List.find (sameLanguageAndScript wanted) avs); [discriminate|].
    apply find_none_iff.
  - intros Hnone.
    destruct (List.find (sameBaseName wanted) avs) as [a|] eqn:E1.
    { apply find_some in E1. destruct E1 as [Hin Ha].
      pose proof (Hbase a Hin Ha) as Hlang.
      rewrite (Hnone a Hin) in Hlang. discriminate. }
    destruct (List.find (sameLanguageAndScript wanted) avs) as [a|] eqn:E2.
    { apply find_some in E2. destruct E2 as [Hin Ha].
      apply sameBaseName_language in Ha.
      rewrite (Hnone a Hin) in Ha. discriminate. }
    apply find_none_iff. exact Hnone.
Qed.

Lemma mapToIntlLocale_app (xs ys : list LocaleOrTag) :
  mapToIntlLocale (xs ++ ys) =
  match mapToIntlLocale xs with
  | Raise e => Raise e
  | Ok xs' =>
      match mapToIntlLocale ys with
      | Raise e => Raise e
      | Ok ys' => Ok (xs' ++ ys')%list
      end
  end.
Proof.
  induction xs as [|x xs IH]; cbn [app mapToIntlLocale].
  - destruct (mapToIntlLocale ys); reflexivity.
  - destruct (toIntlLocale x); [|reflexivity]. rewrite IH.
    destruct (mapToIntlLocale xs); [|reflexivity].
    destruct (mapToIntlLocale ys); reflexivity.
Qed.

Lemma mapToIntlLocale_Ok (ls : list LocaleOrTag) (ls' : list IntlLocale.t) :
  mapToIntlLocale ls = Ok ls' →
  Forall2 (λ l l', toIntlLocale l = Ok l') ls ls'.
Proof.
  revert ls'. induction ls as [|l ls IH]; cbn [mapToIntlLocale]; intros ls'.
  - intros [= <-]. constructor.
  - destruct (toIntlLocale l) as [l'|] eqn:E; [|discriminate].
    destruct (mapToIntlLocale ls) as [rest|]; [|discriminate].
    intros [= <-]. constructor; [exact E | apply IH; reflexivity].
Qed.

(** The first tag that is not well formed. *)
Lemma mapToIntlLocale_Raise (ls : list LocaleOrTag) (tag : string) :
  mapToIntlLocale ls = Raise (RangeError_InvalidLanguageTag tag) ↔
  ∃ before after,
    ls = (before ++ OfTag tag :: after)%list ∧
    Intl_Locale tag = None ∧
    ∀ t, In (OfTag t) before → Intl_Locale t ≠ None.
Proof.
  induction ls as [|l ls IH]; cbn [mapToIntlLocale].
  - split; [discriminate|]. intros (before & after & Heq & _).
    destruct before; discriminate.
  - split.
    + destruct (toIntlLocale l) as [l'|e] eqn:E.
      * destruct (mapToIntlLocale ls) as [rest|e]; [discriminate|].
        intros [= ->]. destruct (proj1 IH eq_refl)
          as (before & after & -> & Hbad & Hgood).
        exists (l :: before), after. split; [reflexivity|].
        split; [exact Hbad|].
        intros t [-> | Hin]; [|exact (Hgood t Hin)].
        cbn [toIntlLocale] in E. destruct (Intl_Locale t); congruence.
      * intros [= ->]. destruct l as [l|t]; cbn [toIntlLocale] in E;
          [discriminate|].
        destruct (Intl_Locale t) eqn:Ht; [discriminate|].
        injection E as ->.
        exists [], ls. split; [reflexivity|]. split; [exact Ht|].
        intros t' [].
    + intros (before & after & Heq & Hbad & Hgood).
      destruct before as [|b before]; cbn [app] in Heq.
      * injection Heq as -> ->. cbn [toIntlLocale]. rewrite Hbad. reflexivity.
      * injection Heq as -> ->.
        assert (Hb : ∃ b', toIntlLocale b = Ok b').
        { destruct b as [b|t]; cbn [toIntlLocale]; [eexists; reflexivity|].
          destruct (Intl_Locale t) eqn:Ht; [eexists; reflexivity|].
          destruct (Hgood t (or_introl eq_refl) Ht). }
        destruct Hb as [b' ->].
        assert (Hrest : mapToIntlLocale (before ++ OfTag tag :: after)
                        = Raise (RangeError_InvalidLanguageTag tag)).
        { apply IH. exists before, after. split; [reflexivity|].
          split; [exact Hbad|]. intros t Ht. apply Hgood. right. exact Ht. }
        rewrite Hrest. reflexivity.
Qed.

End Negotiate.

(** X14: When [negotiateLocale] throws. With no available locale it returns
    undefined without looking at the wanted ones, well formed or not.
    Otherwise it throws the [RangeError] of [new Intl.Locale] exactly when
    some tag given as a string is not well formed, and the error is that of
    the first such tag, the wanted ones coming before the available ones:
    also when an earlier wanted locale would have matched. *)
Theorem negotiateLocale_throws `{I : Intl}
    (wantedLocales : WantedLocales) (availableLocales : list LocaleOrTag)
    (tag : string) :
  negotiateLocale wantedLocales [] = Ok None ∧
  (negotiateLocale wantedLocales availableLocales
     = Raise (RangeError_InvalidLanguageTag tag) ↔
   availableLocales ≠ [] ∧
   ∃ before after,
     (wantedList wantedLocales ++ availableLocales
        = before ++ OfTag tag :: after)%list ∧
     Intl_Locale tag = None ∧
     ∀ t, In (OfTag t) before → Intl_Locale t ≠ None).
Proof.
  split; [reflexivity|].
  rewrite <- mapToIntlLocale_Raise, mapToIntlLocale_app.
  unfold negotiateLocale. fold (wantedList wantedLocales).
  destruct availableLocales as [|a avs].
  - cbn [length Nat.eqb]. split; [discriminate|]. intros [Hne _].
    destruct (Hne eq_refl).
  - cbn [length Nat.eqb].
    destruct (mapToIntlLocale (wantedList wantedLocales)) as [ws|e].
    + destruct (mapToIntlLocale (a :: avs)) as [avs'|e].
      * split; [discriminate|]. intros [_ H]. discriminate.
      * split; [intros [= ->]; split; [discriminate | reflexivity]|].
        intros [_ [= ->]]. reflexivity.
    + split; [intros [= ->]; split; [discriminate | reflexivity]|].
      intros [_ [= ->]]. reflexivity.
Qed.

Lemma negotiateLocale_throws_witness :
  negotiateLocale (WantedArray [OfTag "en"; OfTag "no such tag"])
    [OfTag "en-US"; OfTag "??"]
  = Raise (RangeError_InvalidLanguageTag "no such tag").
Proof.
  apply (negotiateLocale_throws (I := reference_Intl)
           (WantedArray [OfTag "en"; OfTag "no such tag"])
           [OfTag "en-US"; OfTag "??"] "no such tag").
  split; [discriminate|].
  exists [OfTag "en"], [OfTag "en-US"; OfTag "??"].
  split; [reflexivity|]. split; [reflexivity|].
  intros t [[= <-] | []]. discriminate.
Defined.

Section NegotiateLoop.
Context `{I : Intl}.

Lemma negotiateLoop_Some (ws avs : list IntlLocale.t) r :
  negotiateLoop ws (map (λ raw, (raw, maximize raw)) avs) = Some r →
  In r avs ∧
  ∃ x, In x ws ∧
       (sameBaseName x r = true ∨ sameMaximizedLanguage x r = true).
Proof.
  induction ws as [|x rest IH]; cbn [negotiateLoop]; [discriminate|].
  rewrite matchWanted_eq.
  destruct (List.find (sameBaseName x) avs) as [a|] eqn:E1.
  { intros [= ->]. apply find_some in E1. destruct E1 as [Hin Ha].
    split; [exact Hin|]. exists x. split; [left; reflexivity | left; exact Ha]. }
  destruct (List.find (sameLanguageAndScript x) avs) as [a|] eqn:E2.
  { intros [= ->]. apply find_some in E2. destruct E2 as [Hin Ha].
    split; [exact Hin|]. exists x. split; [left; reflexivity|].
    right. apply sameBaseName_language, Ha. }
  destruct (List.find (sameMaximizedLanguage x) avs) as [a|] eqn:E3.
  { intros [= ->]. apply find_some in E3. destruct E3 as [Hin Ha].
    split; [exact Hin|]. exists x. split; [left; reflexivity | right; exact Ha]. }
  intros Hr. destruct (IH Hr) as (Hin & y & Hy & Hmatch).
  split; [exact Hin|]. exists y. split; [right; exact Hy | exact Hmatch].
Qed.

Lemma negotiateLoop_None (ws avs : list IntlLocale.t) :
  baseName_fixes_language →
  negotiateLoop ws (map (λ raw, (raw, maximize raw)) avs) = None ↔
  ∀ x a, In x ws → In a avs → sameMaximizedLanguage x a = false.
Proof.
  intros Hwf.
  assert (Hbase : ∀ x a, In a avs → sameBaseName x a = true →
                         sameMaximizedLanguage x a = true).
  { intros x a _ Ha. unfold sameBaseName in Ha. apply String.eqb_eq in Ha.
    unfold sameMaximizedLanguage. rewrite (Hwf _ _ Ha).
    apply String.eqb_refl. }
  induction ws as [|x rest IH]; cbn [negotiateLoop].
  - split; [intros _ x a []|reflexivity].
  - destruct (matchWanted _ _) as [r|] eqn:Hm.
    + split; [discriminate|]. intros Hnone. exfalso.
      assert (Hx : matchWanted (maximize x)
                     (map (λ raw, (raw, maximize raw)) avs) = None).
      { apply (proj2 (matchWanted_None x avs (Hbase x))).
        intros a Ha. apply Hnone; [left; reflexivity | exact Ha]. }
      congruence.
    + pose proof (proj1 (matchWanted_None x avs (Hbase x)) Hm) as Hm'.
      clear Hm. rename Hm' into Hm.
      rewrite IH. split.
      * intros Hrest y a [<- | Hy] Ha; [exact (Hm a Ha) | exact (Hrest y a Hy Ha)].
      * intros Hall y a Hy Ha. apply Hall; [right; exact Hy | exact Ha].
Qed.

End NegotiateLoop.

Section NegotiateResult.
Context `{I : Intl}.
Variables (wantedLocales : WantedLocales) (availableLocales : list LocaleOrTag).
Variables (ws avs : list IntlLocale.t).
Hypothesis Hwanted : mapToIntlLocale (wantedList wantedLocales) = Ok ws.
Hypothesis Havailable : mapToIntlLocale availableLocales = Ok avs.
Hypothesis Hnonempty : availableLocales ≠ [].

Lemma negotiateLocale_Ok :
  negotiateLocale wantedLocales availableLocales
  = Ok (negotiateLoop ws (map (λ raw, (raw, maximize raw)) avs)).
Proof.
  unfold negotiateLocale. fold (wantedList wantedLocales).
  destruct availableLocales as [|a rest]; [destruct (Hnonempty eq_refl)|].
  cbn [length Nat.eqb]. rewrite Hwanted, Havailable. reflexivity.
Qed.

End NegotiateResult.

(** X15: What [negotiateLocale] returns when every tag is well formed and some
    locale is available. A locale it returns is one of the available
    locales, as given and not maximized, whose maximized form has the base
    name or the language of the maximized form of a wanted locale. Where
    equal base names mean equal languages, it returns undefined exactly
    when no wanted and no available locale have the same maximized
    language. *)
Theorem negotiateLocale_sound_and_complete `{I : Intl}
    (wantedLocales : WantedLocales) (availableLocales : list LocaleOrTag)
    (ws avs : list IntlLocale.t) :
  mapToIntlLocale (wantedList wantedLocales) = Ok ws →
  mapToIntlLocale availableLocales = Ok avs →
  availableLocales ≠ [] →
  (∀ r, negotiateLocale wantedLocales availableLocales = Ok (Some r) →
        In r avs ∧
        ∃ x, In x ws ∧
             (sameBaseName x r = true ∨ sameMaximizedLanguage x r = true)) ∧
  (baseName_fixes_language →
   (negotiateLocale wantedLocales availableLocales = Ok None ↔
    ∀ x a, In x ws → In a avs → sameMaximizedLanguage x a = false)).
Proof.
  intros Hw Ha Hne.
  rewrite (negotiateLocale_Ok _ _ _ _ Hw Ha Hne). split.
  - intros r [= Hr]. exact (negotiateLoop_Some ws avs r Hr).
  - intros Hwf. rewrite <- (negotiateLoop_None ws avs Hwf).
    split; [intros [= ->]; reflexivity | intros ->; reflexivity].
Qed.

Lemma reference_baseName_fixes_language :
  baseName_fixes_language (H := reference_Intl).
Proof.
  intros x y. cbn [maximize reference_Intl]. unfold reference_maximize.
  cbn [IntlLocale.baseName IntlLocale.language]. intros ->. reflexivity.
Qed.

Lemma negotiateLocale_sound_and_complete_witness :
  negotiateLocale (WantedArray [OfTag "ja"; OfTag "ko"])
    [OfTag "en-US"; OfTag "ko-KR"; OfTag "zh-CN"]
    = Ok (Some (IntlLocale.mk "ko-KR" "ko" None (Some "KR"))) ∧
  negotiateLocale (WantedOne (OfTag "ja"))
    [OfTag "en-US"; OfTag "ko-KR"; OfTag "zh-CN"] = Ok None.
Proof.
  split; [reflexivity|].
  destruct (negotiateLocale_sound_and_complete (I := reference_Intl)
              (WantedOne (OfTag "ja"))
              [OfTag "en-US"; OfTag "ko-KR"; OfTag "zh-CN"]
              [IntlLocale.mk "ja" "ja" None None]
              [IntlLocale.mk "en-US" "en" None (Some "US");
               IntlLocale.mk "ko-KR" "ko" None (Some "KR");
               IntlLocale.mk "zh-CN" "zh" None (Some "CN")]
              eq_refl eq_refl) as [_ Hcomplete]; [discriminate|].
  apply (Hcomplete reference_baseName_fixes_language).
  intros x a [<- | []] [<- | [<- | [<- | []]]]; reflexivity.
Defined.



(** * Properties of the account module *)

(** ** [transformAvatar] *)

Lemma toInt32_small x : 0 ≤ x < 2 ^ 31 → toInt32 x = x.
Proof.
  intros Hx. unfold toInt32.
  rewrite Z.mod_small by lia.
  destruct (Z.ltb_spec x (2 ^ 31)); [reflexivity | lia].
Qed.

(** X17: The crop. For an image that is not square, of sides below 2^31, the
    first call on the pipeline extracts a square whose side is the shorter
    side of the image; the square lies inside the image, starts at the edge
    along the shorter side, and is centred along the longer side up to the
    one pixel that an odd difference leaves over, which goes to the far
    end. *)
Theorem transformAvatar_crop_is_centred_square
    (w h : Z) (alpha : bool) (fmt : option string) :
  0 < w < 2 ^ 31 → 0 < h < 2 ^ 31 → w ≠ h →
  ∃ left top rest format,
    transformAvatar (ImageMetadata.mk (Some w) (Some h) alpha fmt)
      = Ok (Extract left top (Z.min w h) (Z.min w h) :: rest, format) ∧
    0 ≤ left ∧ left + Z.min w h ≤ w ∧
    0 ≤ top ∧ top + Z.min w h ≤ h ∧
    (left = 0 ∨ top = 0) ∧
    0 ≤ (w - Z.min w h - left) - left ≤ 1 ∧
    0 ≤ (h - Z.min w h - top) - top ≤ 1 ∧
    ∀ l t w' h', ¬ In (Extract l t w' h') rest.
Proof.
  intros Hw Hh Hne. unfold transformAvatar. cbn [ImageMetadata.width
    ImageMetadata.height ImageMetadata.hasAlpha ImageMetadata.format].
  destruct (Z.eqb_spec w h) as [|_]; [contradiction|]. cbn [negb].
  assert (Hl : toInt32 (Z.quot (w - Z.min w h) 2) = (w - Z.min w h) / 2).
  { rewrite Z.quot_div_nonneg by lia. apply toInt32_small.
    split; [apply Z.div_pos; lia|].
    apply Z.div_lt_upper_bound; lia. }
  assert (Ht : toInt32 (Z.quot (h - Z.min w h) 2) = (h - Z.min w h) / 2).
  { rewrite Z.quot_div_nonneg by lia. apply toInt32_small.
    split; [apply Z.div_pos; lia|].
    apply Z.div_lt_upper_bound; lia. }
  rewrite Hl, Ht.
  exists ((w - Z.min w h) / 2), ((h - Z.min w h) / 2).
  assert (Hgeo :
    0 ≤ (w - Z.min w h) / 2 ∧ (w - Z.min w h) / 2 + Z.min w h ≤ w ∧
    0 ≤ (h - Z.min w h) / 2 ∧ (h - Z.min w h) / 2 + Z.min w h ≤ h ∧
    ((w - Z.min w h) / 2 = 0 ∨ (h - Z.min w h) / 2 = 0) ∧
    0 ≤ (w - Z.min w h - (w - Z.min w h) / 2) - (w - Z.min w h) / 2 ≤ 1 ∧
    0 ≤ (h - Z.min w h - (h - Z.min w h) / 2) - (h - Z.min w h) / 2 ≤ 1).
  { destruct (Z.min_spec w h) as [[Hlt ->] | [Hle ->]].
    - replace (w - w) with 0 by lia. rewrite Z.div_0_l by lia.
      pose proof (Z.div_mod (h - w) 2 ltac:(lia)).
      pose proof (Z.mod_pos_bound (h - w) 2 ltac:(lia)). lia.
    - replace (h - h) with 0 by lia. rewrite Z.div_0_l by lia.
      pose proof (Z.div_mod (w - h) 2 ltac:(lia)).
      pose proof (Z.mod_pos_bound (w - h) 2 ltac:(lia)). lia. }
  destruct (1024 <? Z.min w h), alpha;
    [| |  | ];
    try (destruct (negb (option_string_eqb fmt (Some "jpeg"))));
    (eexists _, _; split; [reflexivity|];
     repeat (split; [tauto|]);
     intros l t w' h' Hin; cbn in Hin;
     repeat destruct Hin as [Hin|Hin]; try discriminate; try contradiction).
Qed.

Lemma transformAvatar_crop_is_centred_square_witness :
  ∃ rest format,
    transformAvatar (ImageMetadata.mk (Some 4000) (Some 3001) false (Some "png"))
      = Ok (Extract 499 0 3001 3001 :: rest, format).
Proof.
  destruct (transformAvatar_crop_is_centred_square 4000 3001 false (Some "png"))
    as (left & top & rest & format & Hrun & _); [lia | lia | lia |].
  exists rest, format. rewrite Hrun. vm_compute in Hrun.
  injection Hrun as <- <- <- <-. reflexivity.
Defined.

(** X18: The pipeline as a whole. Without a width or a height the call throws.
    Otherwise it never enlarges: the only resize is to 1024, issued exactly
    when the shorter side exceeds 1024. The format reported is webp exactly
    when the image has an alpha channel and jpeg otherwise; the matching
    encoder is called with quality 90, except that an opaque JPEG is not
    encoded again. An opaque square JPEG of side at most 1024 goes through
    with no call at all. *)
Theorem transformAvatar_pipeline
    (w h : Z) (alpha : bool) (fmt : option string) :
  ∃ ops format,
    transformAvatar (ImageMetadata.mk (Some w) (Some h) alpha fmt)
      = Ok (ops, format) ∧
    (∀ n, In (Resize n) ops ↔ n = 1024 ∧ 1024 < Z.min w h) ∧
    (format = webp ↔ alpha = true) ∧
    (∀ q, In (Webp q) ops ↔ q = 90 ∧ alpha = true) ∧
    (∀ q, In (Jpeg q) ops ↔ q = 90 ∧ alpha = false ∧ fmt ≠ Some "jpeg") ∧
    (ops = [] ↔ w = h ∧ w ≤ 1024 ∧ alpha = false ∧ fmt = Some "jpeg") ∧
    ∀ height' alpha' fmt',
      transformAvatar (ImageMetadata.mk None height' alpha' fmt')
        = Raise "Failed to read image metadata." ∧
      transformAvatar (ImageMetadata.mk (Some w) None alpha' fmt')
        = Raise "Failed to read image metadata.".
Proof.
  unfold transformAvatar. cbn [ImageMetadata.width ImageMetadata.height
    ImageMetadata.hasAlpha ImageMetadata.format].
  assert (Hfmt : option_string_eqb fmt (Some "jpeg") = true ↔ fmt = Some "jpeg").
  { destruct fmt as [f|]; cbn [option_string_eqb].
    - rewrite String.eqb_eq. split; congruence.
    - split; discriminate. }
  destruct (Z.eqb_spec w h) as [Heq|Hne]; cbn [negb].
  - subst h. rewrite Z.min_id.
    destruct (Z.ltb_spec 1024 w), alpha;
      try (destruct (option_string_eqb fmt (Some "jpeg")) eqn:E; cbn [negb]);
      (eexists _, _; split; [reflexivity|];
       repeat split; try (intros; cbn in *; intuition (try congruence; try lia; try discriminate));
       try (cbn; left; congruence)).
    all: try (apply Hfmt in E; congruence).
    all: try (apply Hfmt; assumption).
    all: try (intros Hj; apply Hfmt in Hj; congruence).
  - destruct (Z.ltb_spec 1024 (Z.min w h)), alpha;
      try (destruct (option_string_eqb fmt (Some "jpeg")) eqn:E; cbn [negb]);
      (eexists _, _; split; [reflexivity|];
       repeat split; try (intros; cbn in *; intuition (try congruence; try lia; try discriminate));
       try (cbn; left; congruence)).
    all: try (apply Hfmt in E; congruence).
    all: try (apply Hfmt; assumption).
    all: try (intros Hj; apply Hfmt in Hj; congruence).
Qed.

(** ** [normalizeEmail] *)

Lemma split_one sep s piece :
  split sep s = [piece] → s = piece ∧ includes sep s = false.
Proof.
  revert piece. induction s as [|c s IH]; intros piece; cbn [split includes].
  - intros [= <-]. split; reflexivity.
  - destruct (Ascii.eqb c sep).
    + intros [= _ Hrest]. destruct (split_nonempty _ _ Hrest).
    + destruct (split sep s) as [|p ps] eqn:Hs;
        [destruct (split_nonempty _ _ Hs)|].
      intros [= <- ->]. destruct (IH p eq_refl) as [-> Hno].
      split; [reflexivity | exact Hno].
Qed.

Lemma split_no_sep sep s : includes sep s = false → split sep s = [s].
Proof.
  induction s as [|c s IH]; cbn [split includes]; [reflexivity|].
  intros Hno. apply orb_false_iff in Hno. destruct Hno as [-> Hs].
  rewrite (IH Hs). reflexivity.
Qed.

(** A string splits in two exactly when it holds the separator once. *)
Lemma split_two sep s a b :
  split sep s = [a; b] ↔
  s = a +:+ String sep b ∧ includes sep a = false ∧ includes sep b = false.
Proof.
  split.
  - revert a. induction s as [|c s IH]; intros a; cbn [split];
      [discriminate|].
    destruct (Ascii.eqb c sep) eqn:E.
    + intros [= <- Hrest]. apply Ascii.eqb_eq in E. subst c.
      destruct (split_one _ _ _ Hrest) as [-> Hno].
      split; [reflexivity|]. split; [reflexivity | exact Hno].
    + destruct (split sep s) as [|p ps] eqn:Hs;
        [destruct (split_nonempty _ _ Hs)|].
      intros [= <- ->]. destruct (IH p eq_refl) as (-> & Hp & Hb).
      rewrite append_cons. cbn [includes]. rewrite E, Hp.
      split; [reflexivity|]. split; [reflexivity | exact Hb].
  - intros (-> & Ha & Hb).
    rewrite (split_app_sep _ _ _ Ha), (split_no_sep _ _ Hb). reflexivity.
Qed.

(** X19: [normalizeEmail], characterised. Undefined and null are passed on. A
    string of ASCII text, on which [trim] is what [String.prototype.trim]
    does, is accepted exactly when, trimmed, it holds one [@] between a
    local part and a host that are not blank and the host makes
    [https://host/] a URL; the result is then the local part, character for
    character, an [@], and the host as that URL reports it. A string that
    trimmed has no [@], several, or a blank part is rejected as an invalid
    email format without the host being looked at. *)
Theorem normalizeEmail_characterised `{U : UrlHost} (email result : string) :
  is_ascii_text email →
  normalizeEmail IsUndefined = Ok IsUndefined ∧
  normalizeEmail IsNull = Ok IsNull ∧
  (normalizeEmail (IsString email) = Ok (IsString result) ↔
   ∃ local host normalizedHost,
     trim email = local +:+ "@" +:+ host ∧
     includes "@" local = false ∧ includes "@" host = false ∧
     is_blank local = false ∧ is_blank host = false ∧
     URL_host ("https://" +:+ host +:+ "/") = Some normalizedHost ∧
     result = local +:+ "@" +:+ normalizedHost) ∧
  (normalizeEmail (IsString email) = Raise TypeError_InvalidEmailFormat ↔
   ¬ ∃ local host,
       trim email = local +:+ "@" +:+ host ∧
       includes "@" local = false ∧ includes "@" host = false ∧
       is_blank local = false ∧ is_blank host = false).
Proof.
  intros _. split; [reflexivity|]. split; [reflexivity|].
  unfold normalizeEmail.
  assert (Hparts : ∀ parts : list string,
            (∃ a b, parts = [a; b]) ∨
            match nth_error parts 0, nth_error parts 1, nth_error parts 2 with
            | Some _, Some _, None => False
            | _, _, _ => True
            end).
  { intros [|a [|b [|c rest]]]; cbn; try (right; exact I).
    left. exists a, b. reflexivity. }
  destruct (Hparts (split "@" (trim email))) as [(a & b & Hsplit) | Hother].
  - rewrite Hsplit. cbn [nth_error].
    pose proof (proj1 (split_two _ _ _ _) Hsplit) as (Htrim & Ha & Hb).
    assert (Huniq : ∀ local host,
              trim email = local +:+ "@" +:+ host →
              includes "@" local = false → includes "@" host = false →
              local = a ∧ host = b).
    { intros local host Heq Hl Hh.
      assert (Hs : split "@" (trim email) = [local; host])
        by (apply split_two; auto).
      rewrite Hsplit in Hs. injection Hs as -> ->. split; reflexivity. }
    destruct (is_blank a) eqn:Hba; [|destruct (is_blank b) eqn:Hbb];
      cbn [orb].
    + split; [split; [discriminate|]|split; [intros _|reflexivity]].
      * intros (local & host & h & Heq & Hl & Hh & Hbl & _).
        exfalso. destruct (Huniq _ _ Heq Hl Hh) as [-> _]. congruence.
      * intros (local & host & Heq & Hl & Hh & Hbl & _).
        destruct (Huniq _ _ Heq Hl Hh) as [-> _]. congruence.
    + split; [split; [discriminate|]|split; [intros _|reflexivity]].
      * intros (local & host & h & Heq & Hl & Hh & _ & Hbh & _).
        exfalso. destruct (Huniq _ _ Heq Hl Hh) as [_ ->]. congruence.
      * intros (local & host & Heq & Hl & Hh & _ & Hbh).
        destruct (Huniq _ _ Heq Hl Hh) as [_ ->]. congruence.
    + split.
      * destruct (URL_host ("https://" +:+ b +:+ "/")) as [h|] eqn:Hurl.
        -- split.
           ++ intros [= <-]. exists a, b, h. auto 10.
           ++ intros (local & host & h' & Heq & Hl & Hh & _ & _ & Hu & ->).
              destruct (Huniq _ _ Heq Hl Hh) as [-> ->]. congruence.
        -- split; [discriminate|].
           intros (local & host & h' & Heq & Hl & Hh & _ & _ & Hu & _).
           destruct (Huniq _ _ Heq Hl Hh) as [-> ->]. congruence.
      * split.
        -- destruct (URL_host ("https://" +:+ b +:+ "/")); discriminate.
        -- intros Hnot. destruct Hnot. exists a, b. auto.
  - assert (Hnone : ∀ local host,
              trim email = local +:+ "@" +:+ host →
              includes "@" local = false → includes "@" host = false → False).
    { intros local host Heq Hl Hh.
      assert (Hs : split "@" (trim email) = [local; host])
        by (apply split_two; auto).
      rewrite Hs in Hother. exact Hother. }
    destruct (nth_error (split "@" (trim email)) 0) as [l|];
      [destruct (nth_error (split "@" (trim email)) 1) as [h|];
         [destruct (nth_error (split "@" (trim email)) 2) as [x|];
            [|destruct Hother]|]|].
    all: split; [split; [discriminate|]|split; [intros _|reflexivity]].
    all: try (intros (local & host & h' & Heq & Hl & Hh & _);
              exfalso; exact (Hnone _ _ Heq Hl Hh)).
    all: intros (local & host & Heq & Hl & Hh & _);
         exact (Hnone _ _ Heq Hl Hh).
Qed.

Lemma normalizeEmail_characterised_witness :
  normalizeEmail (IsString "  John.Doe@Example.COM ")
    = Ok (IsString "John.Doe@example.com") ∧
  normalizeEmail (IsString "a@b@c") = Raise TypeError_InvalidEmailFormat.
Proof.
  assert (Hjohn : is_ascii_text "  John.Doe@Example.COM ")
    by (unfold is_ascii_text; simpl; repeat constructor).
  assert (Habc : is_ascii_text "a@b@c")
    by (unfold is_ascii_text; simpl; repeat constructor).
  destruct (normalizeEmail_characterised (U := reference_UrlHost)
              "  John.Doe@Example.COM " "John.Doe@example.com" Hjohn)
    as (_ & _ & Haccept & _).
  destruct (normalizeEmail_characterised (U := reference_UrlHost)
              "a@b@c" "" Habc) as (_ & _ & _ & Hreject).
  split.
  - apply Haccept. exists "John.Doe", "Example.COM", "example.com".
    repeat split; reflexivity.
  - apply Hreject. intros (local & host & Heq & Hl & Hh & _).
    assert (Hs : split "@" (trim "a@b@c") = [local; host])
      by (apply split_two; auto).
    discriminate Hs.
Defined.

(** ** [updateAccountData] *)

Section UpdateAccountData.
Context `{S : AccountSchema}.

Lemma updateAccountData_Ok account now table result table' :
  updateAccountData account now table = Ok (result, table') →
  table' = map (λ row, if String.eqb (AccountRow.id row)
                            (AccountValues.id account)
                       then updateAccountData_set account now row
                       else row) table ∧
  result = updateAccountData_set account now
             <$> hd_error (List.filter
                             (λ row, String.eqb (AccountRow.id row)
                                       (AccountValues.id account)) table).
Proof.
  unfold updateAccountData. cbv zeta.
  destruct (accountTable_accepts _); [|discriminate].
  intros [= <- <-]. split; [reflexivity|].
  induction table as [|row table IH]; [reflexivity|].
  cbn [map List.filter].
  destruct (String.eqb (AccountRow.id row) (AccountValues.id account)) eqn:E.
  - cbn [AccountRow.id updateAccountData_set]. rewrite E. reflexivity.
  - rewrite E. exact IH.
Qed.

End UpdateAccountData.

(** X20: What an update touches. When [updateAccountData] returns, the table has
    the rows it had, in the same places; a row with another id is as it was;
    a row with the given id keeps its id and carries the time of the update
    in [updated]. The call returns undefined exactly when no row has the
    id, and otherwise a row of the new table with that id. *)
Theorem updateAccountData_touches_the_named_row_only `{S : AccountSchema}
    (account : AccountValues.t) (now : Z) (table table' : list AccountRow.t)
    (result : option AccountRow.t) :
  updateAccountData account now table = Ok (result, table') →
  length table' = length table ∧
  (∀ (i : nat) (row : AccountRow.t),
     table !! i = Some row →
     ∃ row',
       table' !! i = Some row' ∧
       AccountRow.id row' = AccountRow.id row ∧
       (AccountRow.id row ≠ AccountValues.id account → row' = row) ∧
       (AccountRow.id row = AccountValues.id account →
        AccountRow.updated row' = now)) ∧
  (result = None ↔
   ∀ row, In row table → AccountRow.id row ≠ AccountValues.id account) ∧
  (∀ row', result = Some row' →
           AccountRow.id row' = AccountValues.id account ∧ In row' table').
Proof.
  intros Hrun. destruct (updateAccountData_Ok _ _ _ _ _ Hrun) as [-> ->].
  split; [apply length_map|]. split; [|split].
  - intros i row Hrow.
    change (map ?f table) with (f <$> table).
    rewrite list_lookup_fmap, Hrow. cbn [fmap option_fmap option_map].
    destruct (String.eqb_spec (AccountRow.id row) (AccountValues.id account))
      as [Heq|Hne].
    + eexists. split; [reflexivity|]. cbn [AccountRow.id AccountRow.updated
        updateAccountData_set].
      split; [reflexivity|]. split; [congruence|]. intros _. reflexivity.
    + exists row. split; [reflexivity|]. split; [reflexivity|].
      split; [reflexivity | congruence].
  - clear Hrun. induction table as [|row table IH]; cbn [List.filter].
    + split; [intros _ row []|reflexivity].
    + destruct (String.eqb_spec (AccountRow.id row) (AccountValues.id account))
        as [Heq|Hne].
      * split; [discriminate|]. intros Hall.
        destruct (Hall row (or_introl eq_refl) Heq).
      * rewrite IH. split.
        -- intros Hall r [<- | Hr]; [exact Hne | exact (Hall r Hr)].
        -- intros Hall r Hr. apply Hall. right. exact Hr.
  - intros row'.
    destruct (hd_error _) as [row|] eqn:Hhd; [|discriminate].
    intros [= <-].
    assert (Hin : In row (List.filter
                            (λ row, String.eqb (AccountRow.id row)
                                      (AccountValues.id account)) table)).
    { destruct (List.filter _ table); [discriminate|].
      injection Hhd as ->. left. reflexivity. }
    apply filter_In in Hin. destruct Hin as [Hin Hid].
    split; [apply String.eqb_eq; exact Hid|].
    apply in_map_iff. exists row. rewrite Hid. split; [reflexivity | exact Hin].
Qed.

(** The three user-name columns after the SET clause of an update that
    carries a user name. *)
Lemma updateAccountData_set_username values now row username :
  AccountValues.username values = Some username →
  let row' := updateAccountData_set values now row in
  (AccountRow.usernameChanged row = None →
   AccountRow.username row ≠ username →
   AccountRow.username row' = username ∧
   AccountRow.oldUsername row' = Some (AccountRow.username row) ∧
   AccountRow.usernameChanged row' = Some now) ∧
  (AccountRow.usernameChanged row = None →
   AccountRow.username row = username →
   AccountRow.username row' = username ∧
   AccountRow.oldUsername row' = None ∧
   AccountRow.usernameChanged row' = None) ∧
  (∀ t, AccountRow.usernameChanged row = Some t →
        AccountRow.username row' = AccountRow.username row ∧
        AccountRow.oldUsername row' = None ∧
        AccountRow.usernameChanged row' = Some t).
Proof.
  intros Hname. cbv zeta. unfold updateAccountData_set. rewrite Hname.
  cbn [AccountRow.username AccountRow.oldUsername AccountRow.usernameChanged].
  split; [|split].
  - intros -> Hne. apply String.eqb_neq in Hne. rewrite Hne.
    repeat split.
  - intros -> ->. rewrite String.eqb_refl. repeat split.
  - intros t ->. cbn [is_null negb]. rewrite orb_true_r. repeat split.
Qed.

(** X21: A user name changes once. When an update that carries a user name
    returns a row, then, for the row as it was: if its name was never changed
    and differs from the one given, it gets the given name, the time of the
    update as [usernameChanged] and its former name as [oldUsername]; if its
    name was never changed and is the one given, the three columns end as
    name, null and null; and if its name was changed before, it keeps its
    name and the time of that change whatever name is given, and
    [oldUsername] is set to null. *)
Theorem updateAccountData_username_changes_once `{S : AccountSchema}
    (account : AccountValues.t) (now : Z) (table table' : list AccountRow.t)
    (row' : AccountRow.t) (username : string) :
  updateAccountData account now table = Ok (Some row', table') →
  AccountValues.username account = Some username →
  ∃ row,
    hd_error (List.filter (λ r, String.eqb (AccountRow.id r)
                                  (AccountValues.id account)) table)
      = Some row ∧
    (AccountRow.usernameChanged row = None →
     AccountRow.username row ≠ username →
     AccountRow.username row' = username ∧
     AccountRow.oldUsername row' = Some (AccountRow.username row) ∧
     AccountRow.usernameChanged row' = Some now) ∧
    (AccountRow.usernameChanged row = None →
     AccountRow.username row = username →
     AccountRow.username row' = username ∧
     AccountRow.oldUsername row' = None ∧
     AccountRow.usernameChanged row' = None) ∧
    (∀ t, AccountRow.usernameChanged row = Some t →
          AccountRow.username row' = AccountRow.username row ∧
          AccountRow.oldUsername row' = None ∧
          AccountRow.usernameChanged row' = Some t).
Proof.
  intros Hrun Hname.
  destruct (updateAccountData_Ok _ _ _ _ _ Hrun) as [_ Hresult].
  destruct (hd_error _) as [row|]; [|discriminate].
  injection Hresult as ->. exists row. split; [reflexivity|].
  exact (updateAccountData_set_username account now row username Hname).
Qed.

(** X22: Renaming, then saving again. After a first change of name from [a] to
    [b] at [t1], a later update of the same account that carries a user
    name, be it [b] itself, leaves the name [b] and the change time [t1],
    and leaves [oldUsername] null: the former name [a], recorded by the
    first update, is no longer in the row. *)
Theorem updateAccountData_second_update_drops_old_name `{S : AccountSchema}
    (first second : AccountValues.t) (t1 t2 : Z)
    (table table1 table2 : list AccountRow.t)
    (row0 row1 row2 : AccountRow.t) (b c : string) :
  hd_error (List.filter (λ r, String.eqb (AccountRow.id r)
                                (AccountValues.id first)) table) = Some row0 →
  AccountRow.usernameChanged row0 = None →
  AccountRow.username row0 ≠ b →
  AccountValues.username first = Some b →
  updateAccountData first t1 table = Ok (Some row1, table1) →
  AccountValues.id second = AccountValues.id first →
  AccountValues.username second = Some c →
  updateAccountData second t2 table1 = Ok (Some row2, table2) →
  AccountRow.oldUsername row1 = Some (AccountRow.username row0) ∧
  AccountRow.username row2 = b ∧
  AccountRow.usernameChanged row2 = Some t1 ∧
  AccountRow.oldUsername row2 = None.
Proof.
  intros Hrow0 Hnever Hne Hb Hrun1 Hid Hc Hrun2.
  destruct (updateAccountData_Ok _ _ _ _ _ Hrun1) as [Htable1 Hres1].
  rewrite Hrow0 in Hres1. cbn in Hres1. injection Hres1 as Hres1.
  destruct (updateAccountData_set_username first t1 row0 b Hb)
    as (Hfirst & _).
  rewrite <- Hres1 in Hfirst.
  destruct (Hfirst Hnever Hne) as (Hname1 & Hold1 & Hchanged1).
  destruct (updateAccountData_Ok _ _ _ _ _ Hrun2) as [_ Hres2].
  assert (Hr1 : hd_error (List.filter
                            (λ r, String.eqb (AccountRow.id r)
                                    (AccountValues.id second)) table1)
                = Some row1).
  { rewrite Htable1, Hid. clear -Hrow0 Hres1.
    revert Hrow0. induction table as [|r table IH]; [discriminate|].
    cbn [map List.filter].
    destruct (String.eqb (AccountRow.id r) (AccountValues.id first)) eqn:E.
    - cbn [AccountRow.id updateAccountData_set]. rewrite E.
      cbn [hd_error]. intros [= ->]. rewrite Hres1. reflexivity.
    - rewrite E. exact IH. }
  rewrite Hr1 in Hres2. cbn in Hres2. injection Hres2 as Hres2.
  destruct (updateAccountData_set_username second t2 row1 c Hc)
    as (_ & _ & Hsecond).
  rewrite <- Hres2 in Hsecond.
  destruct (Hsecond t1 Hchanged1) as (Hname2 & Hold2 & Hchanged2).
  split; [exact Hold1|]. split; [congruence|]. split; assumption.
Qed.

Lemma updateAccountData_touches_the_named_row_only_witness :
  ∃ row',
    updateAccountData (rename_to "alicia") 100 account_rows
      = Ok (Some row',
            [row'; AccountRow.mk "id-2" "bob" None None 20 ∅]) ∧
    AccountRow.id row' = "id-1".
Proof.
  eexists. split; [vm_compute; reflexivity|].
  eapply (updateAccountData_touches_the_named_row_only
            (S := reference_AccountSchema) (rename_to "alicia") 100
            account_rows).
  - vm_compute. reflexivity.
  - reflexivity.
Defined.

Lemma updateAccountData_username_changes_once_witness :
  ∃ row' table',
    updateAccountData (rename_to "alicia") 100 account_rows
      = Ok (Some row', table') ∧
    AccountRow.username row' = "alicia" ∧
    AccountRow.oldUsername row' = Some "alice" ∧
    AccountRow.usernameChanged row' = Some 100.
Proof.
  eexists _, _. split; [vm_compute; reflexivity|].
  destruct (updateAccountData_username_changes_once
              (S := reference_AccountSchema) (rename_to "alicia") 100
              account_rows _ _ "alicia" eq_refl eq_refl)
    as (row & Hrow & Hfirst & _).
  injection Hrow as <-. apply Hfirst; [reflexivity | discriminate].
Defined.

Lemma updateAccountData_second_update_drops_old_name_witness :
  ∃ row1 table1 row2 table2,
    updateAccountData (rename_to "alicia") 100 account_rows
      = Ok (Some row1, table1) ∧
    updateAccountData (rename_to "alicia") 200 table1
      = Ok (Some row2, table2) ∧
    AccountRow.oldUsername row1 = Some "alice" ∧
    AccountRow.username row2 = "alicia" ∧
    AccountRow.usernameChanged row2 = Some 100 ∧
    AccountRow.oldUsername row2 = None.
Proof.
  eexists _, _, _, _.
  split; [vm_compute; reflexivity|]. split; [vm_compute; reflexivity|].
  eapply (updateAccountData_second_update_drops_old_name
            (S := reference_AccountSchema) (rename_to "alicia")
            (rename_to "alicia") 100 200 account_rows _ _
            (AccountRow.mk "id-1" "alice" None None 10 ∅) _ _ "alicia"
            "alicia").
  - reflexivity.
  - reflexivity.
  - discriminate.
  - reflexivity.
  - vm_compute. reflexivity.
  - reflexivity.
  - reflexivity.
  - vm_compute. reflexivity.
Defined.

(** ** [getAvatarUrl] *)

(** X23: Which avatar. With an avatar key the URL is the disk's for that key,
    whatever the emails. Without one, only verified emails count: if there
    is none the URL is Gravatar's mystery-person default. Otherwise the
    verified emails, as the sort leaves them, are some [others] followed by
    a last one: the URL is the Gravatar URL of the hash of that last email,
    and its fallback is the URL the loop has built from the others, the
    Gravatar URL of the one before with its own fallback and so on, down to
    [mp] for the first. *)
Theorem getAvatarUrl_cases `{R : AvatarRuntime}
    (emails : list AccountEmail.t) :
  sort_rearranges →
  let verified :=
    List.filter (λ e, negb (is_null (AccountEmail.verified e))) emails in
  (∀ key, getAvatarUrl (Some key) emails = disk_getUrl key) ∧
  ((∀ e, In e emails → AccountEmail.verified e = None) →
   getAvatarUrl None emails = "https://gravatar.com/avatar/?d=mp&s=128") ∧
  ((∃ e, In e emails ∧ AccountEmail.verified e ≠ None) →
   ∃ others e, sort_emails verified = (others ++ [e])%list) ∧
  (∀ others e,
     sort_emails verified = (others ++ [e])%list →
     (∀ x, In x (others ++ [e])%list ↔
           In x emails ∧ AccountEmail.verified x ≠ None) ∧
     (length others + 1 = length verified)%nat ∧
     getAvatarUrl None emails =
       "https://gravatar.com/avatar/" +:+ gravatar_hash (AccountEmail.email e)
         +:+ "?r=pg&s=128&d="
         +:+ encodeURIComponent (fold_left gravatar_url others "mp") ∧
     (others = [] → getAvatarUrl None emails =
        "https://gravatar.com/avatar/" +:+ gravatar_hash (AccountEmail.email e)
          +:+ "?r=pg&s=128&d=" +:+ encodeURIComponent "mp") ∧
     (∀ before e', others = (before ++ [e'])%list →
        fold_left gravatar_url others "mp" =
        "https://gravatar.com/avatar/" +:+ gravatar_hash (AccountEmail.email e')
          +:+ "?r=pg&s=128&d="
          +:+ encodeURIComponent (fold_left gravatar_url before "mp"))).
Proof.
  intros Hsort verified. split; [reflexivity|]. unfold getAvatarUrl.
  cbv zeta. fold verified.
  assert (Hverified : ∀ e, In e verified ↔
                           In e emails ∧ AccountEmail.verified e ≠ None).
  { intros e. unfold verified. rewrite filter_In.
    destruct (AccountEmail.verified e); cbn; split; intros [? ?];
      split; congruence. }
  split; [|split].
  - intros Hnone.
    assert (Hempty : verified = []).
    { destruct verified as [|e rest]; [reflexivity|].
      assert (He : In e (e :: rest)) by (left; reflexivity).
      apply Hverified in He. destruct He as [Hin Hv].
      destruct (Hv (Hnone e Hin)). }
    rewrite Hempty.
    pose proof (Hsort []) as Hperm. symmetry in Hperm.
    apply Permutation_nil in Hperm. rewrite Hperm. reflexivity.
  - intros (e0 & Hin0 & Hv0).
    assert (Hne : sort_emails verified ≠ []).
    { intros Hnil. pose proof (Hsort verified) as Hperm. rewrite Hnil in Hperm.
      apply Permutation_nil in Hperm.
      assert (He : In e0 verified) by (apply Hverified; auto).
      rewrite Hperm in He. destruct He. }
    destruct (exists_last Hne) as (front & e & Hlast).
    exists front, e. exact Hlast.
  - intros others e Hlast.
    pose proof (Hsort verified) as Hperm. rewrite Hlast in Hperm.
    split; [|split; [|split; [|split]]].
    + intros x. rewrite <- Hverified. split.
      * apply (Permutation_in _ Hperm).
      * apply (Permutation_in _ (Permutation_sym Hperm)).
    + apply Permutation_length in Hperm. rewrite length_app in Hperm.
      exact Hperm.
    + rewrite Hlast, fold_left_app. cbn [fold_left].
      unfold gravatar_url at 1. reflexivity.
    + intros ->. rewrite Hlast. reflexivity.
    + intros before e' ->. rewrite fold_left_app. reflexivity.
Qed.

Lemma getAvatarUrl_cases_witness :
  getAvatarUrl None
    [AccountEmail.mk "Public@Example.com" (Some 5) true;
     AccountEmail.mk "private@example.com" (Some 6) false;
     AccountEmail.mk "unverified@example.com" None true]
  = "https://gravatar.com/avatar/hash(public@example.com)?r=pg&s=128&d=https://gravatar.com/avatar/hash(private@example.com)?r=pg&s=128&d=mp"
  ∧ getAvatarUrl None [AccountEmail.mk "unverified@example.com" None true]
    = "https://gravatar.com/avatar/?d=mp&s=128".
Proof.
  assert (Hsort : sort_rearranges (H := reference_AvatarRuntime)).
  { intros emails. cbn [sort_emails reference_AvatarRuntime].
    induction emails as [|e emails IH]; [constructor|].
    cbn [List.filter]. destruct (AccountEmail.public e); cbn [negb app].
    - symmetry. apply Permutation_cons_app. symmetry. exact IH.
    - constructor. exact IH. }
  split.
  - pose proof (getAvatarUrl_cases (R := reference_AvatarRuntime)
                  [AccountEmail.mk "Public@Example.com" (Some 5) true;
                   AccountEmail.mk "private@example.com" (Some 6) false;
                   AccountEmail.mk "unverified@example.com" None true]
                  Hsort) as H.
    cbv zeta in H. destruct H as (_ & _ & _ & H).
    destruct (H [AccountEmail.mk "private@example.com" (Some 6) false]
                (AccountEmail.mk "Public@Example.com" (Some 5) true)
                eq_refl) as (_ & _ & Hurl & _).
    rewrite Hurl. reflexivity.
  - pose proof (getAvatarUrl_cases (R := reference_AvatarRuntime)
                  [AccountEmail.mk "unverified@example.com" None true]
                  Hsort) as H.
    cbv zeta in H. destruct H as (_ & H & _). apply H.
    intros e [<- | []]. reflexivity.
Defined.

(** ** [getAccountByUsername] *)

Lemma latestChanged_In rows row :
  latestChanged rows = Some row →
  In row rows ∧
  ∀ other, In other rows →
    default 0 (AccountRow.usernameChanged other)
      ≤ default 0 (AccountRow.usernameChanged row).
Proof.
  revert row. induction rows as [|r rows IH]; intros row; cbn [latestChanged];
    [discriminate|].
  destruct (latestChanged rows) as [best|] eqn:Hbest.
  - destruct (IH best eq_refl) as [Hin Hmax].
    destruct (Z.ltb_spec (default 0 (AccountRow.usernameChanged r))
                (default 0 (AccountRow.usernameChanged best))).
    + intros [= <-]. split; [right; exact Hin|].
      intros other [<- | Ho]; [lia | exact (Hmax other Ho)].
    + intros [= <-]. split; [left; reflexivity|].
      intros other [<- | Ho]; [lia|]. specialize (Hmax other Ho). lia.
  - intros [= <-]. split; [left; reflexivity|].
    intros other [<- | Ho]; [lia|].
    destruct rows as [|x xs]; [destruct Ho|]. cbn [latestChanged] in Hbest.
    destruct (latestChanged xs) as [b|]; [|discriminate].
    destruct (_ <? _); discriminate.
Qed.

Lemma latestChanged_None rows : latestChanged rows = None ↔ rows = [].
Proof.
  destruct rows as [|r rows]; cbn [latestChanged]; [split; reflexivity|].
  split; [|discriminate].
  destruct (latestChanged rows) as [best|]; [|discriminate].
  destruct (_ <? _); discriminate.
Qed.

(** X24: Which account a user name finds. A row whose current name is the one
    asked for comes first, whatever old names other rows record. Failing
    that, the row found is one whose recorded old name is the one asked for
    and whose name change has a time, and none such was changed later. The
    answer is undefined exactly when no row has the name as its current
    name and none records it, with a change time, as its old name. *)
Theorem getAccountByUsername_characterised
    (username : string) (table : list AccountRow.t) :
  (∀ row, getAccountByUsername username table = Some row →
     In row table ∧
     (AccountRow.username row = username ∨
      ((∀ r, In r table → AccountRow.username r ≠ username) ∧
       AccountRow.oldUsername row = Some username ∧
       AccountRow.usernameChanged row ≠ None ∧
       ∀ r t t', In r table →
                 AccountRow.oldUsername r = Some username →
                 AccountRow.usernameChanged r = Some t →
                 AccountRow.usernameChanged row = Some t' → t ≤ t'))) ∧
  ((∃ r, In r table ∧ AccountRow.username r = username) →
   ∃ row, getAccountByUsername username table = Some row ∧
          AccountRow.username row = username) ∧
  (getAccountByUsername username table = None ↔
   ∀ r, In r table →
        AccountRow.username r ≠ username ∧
        ¬ (AccountRow.oldUsername r = Some username ∧
           AccountRow.usernameChanged r ≠ None)).
Proof.
  unfold getAccountByUsername.
  set (old := λ row : AccountRow.t,
                (option_string_eqb (AccountRow.oldUsername row) (Some username)
                 && negb (is_null (AccountRow.usernameChanged row)))%bool).
  assert (Hold : ∀ r, old r = true ↔
                      AccountRow.oldUsername r = Some username ∧
                      AccountRow.usernameChanged r ≠ None).
  { intros r. subst old. cbv beta.
    destruct (AccountRow.oldUsername r) as [o|],
             (AccountRow.usernameChanged r) as [t|];
      cbn [option_string_eqb is_null negb andb].
    - rewrite andb_true_r, String.eqb_eq. split.
      + intros ->. split; [reflexivity | discriminate].
      + intros [[= ->] _]. reflexivity.
    - rewrite andb_false_r. split; [discriminate|].
      intros [_ Hc]. destruct (Hc eq_refl).
    - split; [discriminate|]. intros [Ho _]. discriminate.
    - split; [discriminate|]. intros [Ho _]. discriminate. }
  destruct (List.find _ table) as [found|] eqn:Hfind.
  - apply find_some in Hfind. destruct Hfind as [Hin Hname].
    apply String.eqb_eq in Hname.
    split; [|split].
    + intros row [= <-]. split; [exact Hin | left; exact Hname].
    + intros _. exists found. split; [reflexivity | exact Hname].
    + split; [discriminate|]. intros Hall.
      destruct (proj1 (Hall found Hin) Hname).
  - pose proof (find_none _ _ Hfind) as Hnone.
    assert (Hnames : ∀ r, In r table → AccountRow.username r ≠ username).
    { intros r Hr. apply String.eqb_neq. exact (Hnone r Hr). }
    split; [|split].
    + intros row Hrow. apply latestChanged_In in Hrow.
      destruct Hrow as [Hin Hmax]. apply filter_In in Hin.
      destruct Hin as [Hin Hrow]. apply Hold in Hrow.
      destruct Hrow as [Ho Hc].
      split; [exact Hin|]. right. split; [exact Hnames|].
      split; [exact Ho|]. split; [exact Hc|].
      intros r t t' Hr Hro Hrt Hrowt.
      assert (Hr' : In r (List.filter old table)).
      { apply filter_In. split; [exact Hr|]. apply Hold.
        split; [exact Hro | congruence]. }
      specialize (Hmax r Hr'). rewrite Hrt, Hrowt in Hmax. exact Hmax.
    + intros (r & Hr & Hname). destruct (Hnames r Hr Hname).
    + rewrite latestChanged_None. split.
      * intros Hempty r Hr. split; [exact (Hnames r Hr)|].
        intros Ho. apply Hold in Ho.
        assert (Hr' : In r (List.filter old table))
          by (apply filter_In; split; assumption).
        rewrite Hempty in Hr'. destruct Hr'.
      * intros Hall.
        destruct (List.filter old table) as [|x xs] eqn:Hf; [reflexivity|].
        assert (Hx : In x (List.filter old table))
          by (rewrite Hf; left; reflexivity).
        apply filter_In in Hx. destruct Hx as [Hx Ho]. apply Hold in Ho.
        destruct (proj2 (Hall x Hx) Ho).
Qed.

Lemma getAccountByUsername_characterised_witness :
  getAccountByUsername "carol" account_rows = None ∧
  ∃ row, getAccountByUsername "bob" account_rows = Some row ∧
         AccountRow.username row = "bob".
Proof.
  destruct (getAccountByUsername_characterised "carol" account_rows)
    as (_ & _ & Hnone).
  destruct (getAccountByUsername_characterised "bob" account_rows)
    as (_ & Hcurrent & _).
  split.
  - apply Hnone. intros r [<- | [<- | []]]; split;
      try discriminate; intros [Ho _]; discriminate.
  - apply Hcurrent. eexists. split; [right; left; reflexivity | reflexivity].
Defined.

Lemma find_in_the_middle {A} (f : A → bool) (before after : list A) (x : A) :
  (∀ r, In r before → f r = false) → f x = true →
  List.find f (before ++ x :: after) = Some x.
Proof.
  intros Hbefore Hx. induction before as [|r before IH]; cbn [app List.find].
  - rewrite Hx. reflexivity.
  - rewrite (Hbefore r (or_introl eq_refl)).
    apply IH. intros y Hy. apply Hbefore. right. exact Hy.
Qed.

Lemma filter_around {A} (f : A → bool) (before after : list A) (x : A) :
  (∀ r, In r (before ++ after) → f r = false) →
  List.filter f (before ++ x :: after) = if f x then [x] else [].
Proof.
  intros Hothers.
  assert (Hnil : ∀ xs, (∀ r, In r xs → f r = false) → List.filter f xs = []).
  { intros xs Hxs. induction xs as [|r xs IH]; cbn [List.filter];
      [reflexivity|].
    rewrite (Hxs r (or_introl eq_refl)).
    apply IH. intros y Hy. apply Hxs. right. exact Hy. }
  rewrite List.filter_app. cbn [List.filter].
  rewrite (Hnil before), (Hnil after).
  - destruct (f x); reflexivity.
  - intros r Hr. apply Hothers, in_or_app. right. exact Hr.
  - intros r Hr. apply Hothers, in_or_app. left. exact Hr.
Qed.

Lemma map_around {A} (g : A → A) (before after : list A) (x : A) :
  (∀ r, In r (before ++ after) → g r = r) →
  map g (before ++ x :: after) = (before ++ g x :: after)%list.
Proof.
  intros Hothers.
  assert (Hid : ∀ xs, (∀ r, In r xs → g r = r) → map g xs = xs).
  { intros xs Hxs. induction xs as [|r xs IH]; cbn [map]; [reflexivity|].
    rewrite (Hxs r (or_introl eq_refl)), IH; [reflexivity|].
    intros y Hy. apply Hxs. right. exact Hy. }
  rewrite List.map_app. cbn [map]. rewrite (Hid before), (Hid after).
  - reflexivity.
  - intros r Hr. apply Hothers, in_or_app. right. exact Hr.
  - intros r Hr. apply Hothers, in_or_app. left. exact Hr.
Qed.

(** X25: Looking an account up after it was renamed. Take an account named [a]
    that was never renamed, in a table where no other row has its id, is
    named [a] or [b], or records [a] as an old name. After an update that
    renames it to [b], both [a] and [b] find it: [b] as its current name,
    [a] as its recorded old name. After one more update of the account that
    carries a user name, [b] still finds it and [a] finds nothing. *)
Theorem old_name_is_found_until_the_next_update `{S : AccountSchema}
    (first second : AccountValues.t) (t1 t2 : Z)
    (before after table1 table2 : list AccountRow.t)
    (row0 : AccountRow.t) (result1 result2 : option AccountRow.t)
    (b c : string) :
  let a := AccountRow.username row0 in
  AccountRow.id row0 = AccountValues.id first →
  AccountRow.usernameChanged row0 = None →
  a ≠ b →
  (∀ r, In r (before ++ after) →
        AccountRow.id r ≠ AccountValues.id first ∧
        AccountRow.username r ≠ a ∧ AccountRow.username r ≠ b ∧
        AccountRow.oldUsername r ≠ Some a) →
  AccountValues.username first = Some b →
  AccountValues.id second = AccountValues.id first →
  AccountValues.username second = Some c →
  updateAccountData first t1 (before ++ row0 :: after) = Ok (result1, table1) →
  updateAccountData second t2 table1 = Ok (result2, table2) →
  (∃ row1, result1 = Some row1 ∧
           getAccountByUsername a table1 = Some row1 ∧
           getAccountByUsername b table1 = Some row1) ∧
  (∃ row2, result2 = Some row2 ∧
           getAccountByUsername b table2 = Some row2) ∧
  getAccountByUsername a table2 = None.
Proof.
  intros a Hid Hnever Hab Hothers Hb Hid2 Hc Hrun1 Hrun2.
  assert (Hne : ∀ x y : string, x ≠ y → String.eqb x y = false)
    by (intros x y Hxy; apply String.eqb_neq; exact Hxy).
  assert (Hself : String.eqb (AccountRow.id row0) (AccountValues.id first)
                  = true) by (apply String.eqb_eq; exact Hid).
  (* the first update *)
  destruct (updateAccountData_Ok _ _ _ _ _ Hrun1) as [Htable1 Hresult1].
  rewrite (map_around _ before after row0) in Htable1.
  2:{ intros r Hr. destruct (Hothers r Hr) as (Hrid & _).
      rewrite (Hne _ _ Hrid). reflexivity. }
  rewrite Hself in Htable1.
  rewrite (filter_around _ before after row0), Hself in Hresult1.
  2:{ intros r Hr. destruct (Hothers r Hr) as (Hrid & _).
      exact (Hne _ _ Hrid). }
  cbn in Hresult1.
  set (row1 := updateAccountData_set first t1 row0) in *.
  destruct (updateAccountData_set_username first t1 row0 b Hb) as (Hfirst & _).
  destruct (Hfirst Hnever Hab) as (Hname1 & Hold1 & Hchanged1).
  fold row1 in Hname1, Hold1, Hchanged1.
  assert (Hid1 : AccountRow.id row1 = AccountValues.id first) by exact Hid.
  (* the second update *)
  destruct (updateAccountData_Ok _ _ _ _ _ Hrun2) as [Htable2 Hresult2].
  rewrite Htable1, Hid2 in Htable2, Hresult2.
  assert (Hself1 : String.eqb (AccountRow.id row1) (AccountValues.id first)
                   = true) by (apply String.eqb_eq; exact Hid1).
  rewrite (map_around _ before after row1) in Htable2.
  2:{ intros r Hr. destruct (Hothers r Hr) as (Hrid & _).
      rewrite (Hne _ _ Hrid). reflexivity. }
  rewrite Hself1 in Htable2.
  rewrite (filter_around _ before after row1), Hself1 in Hresult2.
  2:{ intros r Hr. destruct (Hothers r Hr) as (Hrid & _).
      exact (Hne _ _ Hrid). }
  cbn in Hresult2.
  set (row2 := updateAccountData_set second t2 row1) in *.
  destruct (updateAccountData_set_username second t2 row1 c Hc)
    as (_ & _ & Hsecond).
  destruct (Hsecond t1 Hchanged1) as (Hname2 & Hold2 & Hchanged2).
  fold row2 in Hname2, Hold2, Hchanged2.
  (* the lookups *)
  assert (Hlookup_a : ∀ row : AccountRow.t,
            AccountRow.username row ≠ a →
            getAccountByUsername a (before ++ row :: after) =
            if (option_string_eqb (AccountRow.oldUsername row) (Some a)
                && negb (is_null (AccountRow.usernameChanged row)))%bool
            then Some row else None).
  { intros row Hra. unfold getAccountByUsername.
    rewrite (proj2 (find_none_iff _ _)).
    2:{ intros r Hr. apply in_app_or in Hr.
        destruct Hr as [Hr | [<- | Hr]].
        - destruct (Hothers r (in_or_app _ _ _ (or_introl Hr)))
            as (_ & Hra' & _). exact (Hne _ _ Hra').
        - exact (Hne _ _ Hra).
        - destruct (Hothers r (in_or_app _ _ _ (or_intror Hr)))
            as (_ & Hra' & _). exact (Hne _ _ Hra'). }
    rewrite (filter_around _ before after row).
    2:{ intros r Hr. destruct (Hothers r Hr) as (_ & _ & _ & Hro).
        destruct (AccountRow.oldUsername r) as [o|]; cbn; [|reflexivity].
        rewrite (Hne o a); [reflexivity|]. congruence. }
    destruct (_ && _)%bool; reflexivity. }
  assert (Hlookup_b : ∀ row : AccountRow.t,
            AccountRow.username row = b →
            getAccountByUsername b (before ++ row :: after) = Some row).
  { intros row Hrb. unfold getAccountByUsername.
    rewrite (find_in_the_middle _ before after row); [reflexivity| |].
    - intros r Hr. destruct (Hothers r (in_or_app _ _ _ (or_introl Hr)))
        as (_ & _ & Hrb' & _). exact (Hne _ _ Hrb').
    - apply String.eqb_eq. exact Hrb. }
  assert (Hb1 : AccountRow.username row1 ≠ a) by congruence.
  assert (Hb2 : AccountRow.username row2 ≠ a) by congruence.
  split; [|split].
  - exists row1. split; [exact Hresult1|]. rewrite Htable1. split.
    + rewrite (Hlookup_a row1 Hb1), Hold1, Hchanged1. cbn.
      fold a. rewrite String.eqb_refl. reflexivity.
    + exact (Hlookup_b row1 Hname1).
  - exists row2. split; [exact Hresult2|]. rewrite Htable2.
    apply Hlookup_b. congruence.
  - rewrite Htable2, (Hlookup_a row2 Hb2), Hold2. reflexivity.
Qed.

Lemma old_name_is_found_until_the_next_update_witness :
  let bob := AccountRow.mk "id-2" "bob" None None 20 ∅ in
  let row1 := AccountRow.mk "id-1" "alicia" (Some "alice") (Some 100) 100 ∅ in
  let row2 := AccountRow.mk "id-1" "alicia" None (Some 100) 200 ∅ in
  updateAccountData (rename_to "alicia") 100 account_rows
    = Ok (Some row1, [row1; bob]) ∧
  updateAccountData (rename_to "alicia") 200 [row1; bob]
    = Ok (Some row2, [row2; bob]) ∧
  getAccountByUsername "alice" [row1; bob] = Some row1 ∧
  getAccountByUsername "alice" [row2; bob] = None.
Proof.
  intros bob row1 row2.
  assert (Hrun1 : updateAccountData (rename_to "alicia") 100 account_rows
                  = Ok (Some row1, [row1; bob])) by (vm_compute; reflexivity).
  assert (Hrun2 : updateAccountData (rename_to "alicia") 200 [row1; bob]
                  = Ok (Some row2, [row2; bob])) by (vm_compute; reflexivity).
  split; [exact Hrun1|]. split; [exact Hrun2|].
  destruct (old_name_is_found_until_the_next_update
              (S := reference_AccountSchema) (rename_to "alicia")
              (rename_to "alicia") 100 200 [] [bob] [row1; bob] [row2; bob]
              (AccountRow.mk "id-1" "alice" None None 10 ∅)
              (Some row1) (Some row2) "alicia" "alicia")
    as ((r1 & Hresult1 & Hfound & _) & _ & Hlost).
  - reflexivity.
  - reflexivity.
  - discriminate.
  - intros r [<- | []]. repeat split; discriminate.
  - reflexivity.
  - reflexivity.
  - reflexivity.
  - exact Hrun1.
  - exact Hrun2.
  - injection Hresult1 as <-. split; [exact Hfound | exact Hlost].
Defined.
